(** * Capture node pipeline: a shallow embedding

    The capture node of the motion-capture system is a single process in
    which a main loop, three signal handlers and the camera completion
    callback share a handful of globals: the [running] flag, the base
    [timestamp], the loop-control semaphore, the frame queue and the camera
    handler.  This file embeds

    - [camera_handler_t::queue_request] and
      [camera_handler_t::request_complete] (camera_handler.cpp),
    - [capture_signal_handler], [io_signal_handler], [exit_signal_handler],
      [arm_timer], [init_signals], [stream_pkt] and the body of the loop of
      [main] (main.cpp),

    as functions over one explicit [world] record.  Every externally visible
    action (a log line, a semaphore post, a driver call, a [timer_settime],
    a [write]) is appended to the [trace] of the world, so that statements
    about order ("enqueue before post") are statements about lists.

    Integers are [Z]; the 64-bit [timestamp] wraps through [wrap64].

    The process is modelled twice.  In [Main.step] a handler or a
    completion runs from beginning to end while the main loop is blocked in
    [sem_wait], and a round of the loop is one step: these are the schedules
    in which every signal and every completion finds the main thread
    waiting, and what is stated over [Main.run] is stated about them.  In
    [Fine.step] the main thread, the handlers and the completion callback
    take turns statement by statement: a signal is handled wherever the
    main thread is, also between the read and the write of [timestamp] in
    line 95 of main.cpp, and the callback, which runs on the camera's
    thread, goes on while the main thread dequeues and encodes.  What
    depends on the interleaving is stated over [Fine.run]; a run of
    [Main.step] in which the completions come to their end undisturbed is
    one of the runs of [Fine.step]. *)

From Stdlib Require Import String Ascii.
From Stdlib Require Import ZArith List Lia Bool.
From Stdlib.Strings Require Import Byte.
Import ListNotations.
Open Scope Z_scope.

(* ================================================================== *)
(** ** Machine integers and bytes *)

Module Int64.

Definition modulus : Z := 2 ^ 64.
Definition half_modulus : Z := 2 ^ 63.
Definition max_signed : Z := half_modulus - 1.
Definition min_signed : Z := - half_modulus.

(** Two's-complement reading of an integer as an [int64_t]. *)
Definition wrap64 (x : Z) : Z :=
  (x + half_modulus) mod modulus - half_modulus.

Definition in_range (x : Z) : Prop := min_signed <= x <= max_signed.

(** Value of a byte string read as a little-endian unsigned number. *)
Fixpoint le_unsigned (bs : list byte) : Z :=
  match bs with
  | [] => 0
  | b :: rest => Z.of_N (Byte.to_N b) + 256 * le_unsigned rest
  end.

(** [memcpy(&timestamp, buf, sizeof(timestamp))] on a little-endian host:
    the first eight bytes of [buf], read as a signed 64-bit integer. *)
Definition of_le_bytes (buf : list byte) : Z :=
  wrap64 (le_unsigned (firstn 8 buf)).

End Int64.

(* ================================================================== *)
(** ** Logger, effects, outcomes *)

Inductive level_t := DEBUG | INFO | ERROR.

(** What the process does to its environment, in program order. *)
Inductive effect :=
| Log (lvl : level_t) (msg : string)
| SemPost                                   (* sem_post(loop_ctl_sem)        *)
| SemWait                                   (* sem_wait returned             *)
| DrvQueueRequest (idx : Z) (ret : Z)       (* camera_->queueRequest(...)    *)
| Memcpy (dst src len : Z)                  (* pool offset, cookie, length   *)
| EnqueueTry (ptr : Z) (ok : bool)          (* frame_queue.enqueue(ptr)      *)
| Dequeued (ptr : Z)                        (* frame_queue.dequeue()         *)
| Reuse (cookie : Z)                        (* request->reuse(ReuseBuffers)  *)
| TimerSettime (flags tv_sec tv_nsec : Z)   (* timer_settime(timerid, ...)   *)
| EncodeFrame (ptr : Z)                     (* encoder.encode_frame(ptr,...) *)
| BindUdp (ret : Z)
| InitSigio (ret : Z).

(** A C++ call either returns or leaves by a thrown [std::runtime_error]. *)
Inductive outcome :=
| Returned
| Threw (what : string).

Definition ns_per_s : Z := 1000000000.

(* ================================================================== *)
(** ** The frame queue *)

Module Queue.

(** Modelled from the spec: [lock_free_queue_t] (lock_free_queue.h is not
    part of the sources at hand).  A bounded FIFO of pointers: [enqueue]
    answers false when the queue is full, [dequeue] answers the null pointer
    when it is empty.  The constructor receives the requested number of
    elements; the capacity is the least power of two that is not smaller. *)
Record lock_free_queue_t := mkQueue {
  capacity : Z;
  items : list Z
}.

Fixpoint pow2_ceil_from (fuel : nat) (c n : Z) : Z :=
  match fuel with
  | O => c
  | S fuel' => if n <=? c then c else pow2_ceil_from fuel' (2 * c) n
  end.

Definition pow2_ceil (n : Z) : Z := pow2_ceil_from (Z.to_nat n) 1 n.

Definition create (num_elements : Z) : lock_free_queue_t :=
  {| capacity := pow2_ceil num_elements; items := [] |}.

Definition is_full (q : lock_free_queue_t) : bool :=
  capacity q <=? Z.of_nat (length (items q)).

Definition enqueue (p : Z) (q : lock_free_queue_t) : bool * lock_free_queue_t :=
  if is_full q then (false, q)
  else (true, {| capacity := capacity q; items := items q ++ [p] |}).

Definition dequeue (q : lock_free_queue_t) : Z * lock_free_queue_t :=
  match items q with
  | [] => (0, q)
  | p :: rest => (p, {| capacity := capacity q; items := rest |})
  end.

(** The consumer taking [n] pointers out (used to describe what the main
    loop may do while the producer is retrying). *)
Fixpoint drain (n : nat) (q : lock_free_queue_t) : lock_free_queue_t :=
  match n with
  | O => q
  | S n' => drain n' (snd (dequeue q))
  end.

Definition is_pow2 (n : Z) : Prop := exists k : nat, n = 2 ^ Z.of_nat k.

End Queue.

(* ================================================================== *)
(** ** Camera handler state *)

Inductive req_status := RequestPending | RequestComplete | RequestCancelled.

(** A [libcamera::Request]: its cookie, the buffer attached to it (if any)
    and its status. *)
Record request := mkRequest {
  cookie : Z;
  buffer : option Z;
  req_state : req_status
}.

Record camera_handler_t := mkCamera {
  frame_buffers_ : Z;                 (* FRAME_BUFFERS                      *)
  frame_bytes_ : Z;                   (* bytes of one YUV420 frame          *)
  requests_ : list request;           (* one per DMA buffer                 *)
  mmap_buffers_ : list (list byte);   (* mapped planes, indexed by cookie   *)
  frame_bytes_buffer_ : list byte;    (* the pool, one flat allocation      *)
  pool_base : Z;                      (* address of frame_bytes_buffer_     *)
  next_req_idx_ : Z;
  frame_bytes_offset_ : Z
}.

(** State of the main thread as seen between two steps. *)
Inductive pstatus :=
| Blocked                  (* inside sem_wait at the bottom of the loop     *)
| Exited (code : Z)        (* main returned                                 *)
| Aborted (what : string)  (* an exception left a handler                   *)
| Spinning                 (* the completion callback never leaves its loop *)
| Undefined.               (* an index out of range was dereferenced        *)

Record world := mkWorld {
  running : Z;
  timestamp : Z;
  loop_ctl_sem : Z;
  frame_queue : Queue.lock_free_queue_t;
  cam : camera_handler_t;
  udpfd : Z;
  status : pstatus;
  trace : list effect
}.

Definition emit (e : effect) (w : world) : world :=
  mkWorld (running w) (timestamp w) (loop_ctl_sem w) (frame_queue w) (cam w)
          (udpfd w) (status w) (trace w ++ [e]).

Definition log (l : level_t) (m : string) (w : world) : world := emit (Log l m) w.

Definition set_running (v : Z) (w : world) : world :=
  mkWorld v (timestamp w) (loop_ctl_sem w) (frame_queue w) (cam w)
          (udpfd w) (status w) (trace w).

Definition set_timestamp (v : Z) (w : world) : world :=
  mkWorld (running w) v (loop_ctl_sem w) (frame_queue w) (cam w)
          (udpfd w) (status w) (trace w).

Definition set_sem (v : Z) (w : world) : world :=
  mkWorld (running w) (timestamp w) v (frame_queue w) (cam w)
          (udpfd w) (status w) (trace w).

Definition set_queue (q : Queue.lock_free_queue_t) (w : world) : world :=
  mkWorld (running w) (timestamp w) (loop_ctl_sem w) q (cam w)
          (udpfd w) (status w) (trace w).

Definition set_cam (c : camera_handler_t) (w : world) : world :=
  mkWorld (running w) (timestamp w) (loop_ctl_sem w) (frame_queue w) c
          (udpfd w) (status w) (trace w).

Definition set_udpfd (v : Z) (w : world) : world :=
  mkWorld (running w) (timestamp w) (loop_ctl_sem w) (frame_queue w) (cam w)
          v (status w) (trace w).

Definition set_status (s : pstatus) (w : world) : world :=
  mkWorld (running w) (timestamp w) (loop_ctl_sem w) (frame_queue w) (cam w)
          (udpfd w) s (trace w).

(** [sem_post]: one more unit on the semaphore, recorded in the trace. *)
Definition sem_post (w : world) : world :=
  emit SemPost (set_sem (loop_ctl_sem w + 1) w).

(* ================================================================== *)
(** ** camera_handler.cpp *)

Module Camera.

Definition set_next_req_idx (v : Z) (c : camera_handler_t) : camera_handler_t :=
  mkCamera (frame_buffers_ c) (frame_bytes_ c) (requests_ c) (mmap_buffers_ c)
           (frame_bytes_buffer_ c) (pool_base c) v (frame_bytes_offset_ c).

Definition set_offset (v : Z) (c : camera_handler_t) : camera_handler_t :=
  mkCamera (frame_buffers_ c) (frame_bytes_ c) (requests_ c) (mmap_buffers_ c)
           (frame_bytes_buffer_ c) (pool_base c) (next_req_idx_ c) v.

Definition set_pool (p : list byte) (c : camera_handler_t) : camera_handler_t :=
  mkCamera (frame_buffers_ c) (frame_bytes_ c) (requests_ c) (mmap_buffers_ c)
           p (pool_base c) (next_req_idx_ c) (frame_bytes_offset_ c).

Definition set_requests (r : list request) (c : camera_handler_t) : camera_handler_t :=
  mkCamera (frame_buffers_ c) (frame_bytes_ c) r (mmap_buffers_ c)
           (frame_bytes_buffer_ c) (pool_base c) (next_req_idx_ c)
           (frame_bytes_offset_ c).

Definition err_overrun : string := "Buffer is not ready for requeuing".
Definition err_queue : string := "Failed to queue request".

(** [camera_handler_t::queue_request].  [drv_ret] is what the driver's
    [queueRequest] answers if it is called. *)
Definition queue_request (drv_ret : Z) (w : world) : outcome * world :=
  let enqueued_buffers := loop_ctl_sem w in          (* sem_getvalue *)
  if enqueued_buffers >? frame_buffers_ (cam w) - 2 then
    (Threw err_overrun, log ERROR err_overrun w)
  else
    let w1 := emit (DrvQueueRequest (next_req_idx_ (cam w)) drv_ret) w in
    if drv_ret <? 0 then
      (Threw err_queue, log ERROR err_queue w1)
    else
      let idx := (next_req_idx_ (cam w) + 1)
                   mod Z.of_nat (length (requests_ (cam w))) in
      (Returned, set_cam (set_next_req_idx idx (cam w1)) w1).

(** [memcpy(pool + off, src, len)] on the flat pool. *)
Definition memcpy (pool : list byte) (off : Z) (src : list byte) (len : Z)
  : list byte :=
  firstn (Z.to_nat off) pool
    ++ firstn (Z.to_nat len) src
    ++ skipn (Z.to_nat (off + len)) pool.

(** [request->reuse(libcamera::Request::ReuseBuffers)]: the request is
    pending again and keeps the buffer it had. *)
Definition reuse (r : request) : request :=
  mkRequest (cookie r) (buffer r) RequestPending.

Fixpoint update_nth {A} (n : nat) (x : A) (l : list A) : list A :=
  match l, n with
  | [], _ => []
  | _ :: t, O => x :: t
  | h :: t, S n' => h :: update_nth n' x t
  end.

(** The loop [do enqueued = frame_queue.enqueue(p); while (!enqueued);].
    The queue can only change under the loop by the consumer dequeuing, so
    the environment is a schedule: its k-th entry is the number of pointers
    the consumer takes out before the k-th attempt.  When the schedule is
    used up without a successful attempt the loop is still turning. *)
Fixpoint enqueue_retry (sched : list nat) (p : Z) (w : world) : option world :=
  match sched with
  | [] => None
  | d :: rest =>
      let q := Queue.drain d (frame_queue w) in
      let (ok, q') := Queue.enqueue p q in
      let w' := emit (EnqueueTry p ok) (set_queue q' w) in
      if ok then Some w' else enqueue_retry rest p w'
  end.

Inductive completion :=
| Completed (w : world)
| NeverReturns (w : world)   (* still retrying the enqueue *)
| OutOfBounds.               (* requests_/mmap_buffers_ indexed out of range *)

(** [camera_handler_t::request_complete(request)], [r] being the position
    of the completed request in [requests_]. *)
Definition request_complete (r : nat) (sched : list nat) (w : world)
  : completion :=
  match nth_error (requests_ (cam w)) r with
  | None => OutOfBounds
  | Some req =>
      match req_state req with
      | RequestCancelled => Completed w
      | _ =>
        let w1 := log INFO "Request completed" w in
        match nth_error (mmap_buffers_ (cam w1)) (Z.to_nat (cookie req)) with
        | None => OutOfBounds
        | Some data =>
            let c := cam w1 in
            let off := frame_bytes_ c * frame_bytes_offset_ c in
            let frame_offset := pool_base c + off in
            let pool' := memcpy (frame_bytes_buffer_ c) off data (frame_bytes_ c) in
            let c1 := set_pool pool' c in
            let c2 := set_offset ((frame_bytes_offset_ c + 1) mod frame_buffers_ c) c1 in
            let w2 := emit (Memcpy off (cookie req) (frame_bytes_ c)) (set_cam c2 w1) in
            match enqueue_retry sched frame_offset w2 with
            | None => NeverReturns w2
            | Some w3 =>
                let w4 := sem_post w3 in
                let c4 := set_requests (update_nth r (reuse req) (requests_ (cam w4)))
                                       (cam w4) in
                Completed (emit (Reuse (cookie req)) (set_cam c4 w4))
            end
        end
      end
  end.

(** The driver finishing the request at position [r]: it marks the request
    complete or cancelled and then signals [requestCompleted], to which the
    constructor connected [request_complete]. *)
Definition driver_complete (r : nat) (st : req_status) (sched : list nat)
    (w : world) : completion :=
  match nth_error (requests_ (cam w)) r with
  | None => OutOfBounds
  | Some req =>
      let marked := mkRequest (cookie req) (buffer req) st in
      request_complete r sched
        (set_cam (set_requests (update_nth r marked (requests_ (cam w))) (cam w)) w)
  end.

(** Whether the retry loop meets a queue with room under a schedule. *)
Fixpoint eventually_room (sched : list nat) (q : Queue.lock_free_queue_t) : bool :=
  match sched with
  | [] => false
  | d :: rest =>
      let q' := Queue.drain d q in
      if Queue.is_full q' then eventually_room rest q' else true
  end.

(** Every request carries a cookie that indexes a mapped buffer. *)
Definition valid_cookies (c : camera_handler_t) : bool :=
  forallb (fun r => (0 <=? cookie r)
                    && (cookie r <? Z.of_nat (length (mmap_buffers_ c))))
          (requests_ c).

(** The driver calls recorded in a trace: request index and answer. *)
Fixpoint drv_calls (tr : list effect) : list (Z * Z) :=
  match tr with
  | [] => []
  | DrvQueueRequest idx ret :: rest => (idx, ret) :: drv_calls rest
  | _ :: rest => drv_calls rest
  end.

(** The producer running against a stalled consumer: [n] timer periods in
    each of which [queue_request] is called, the driver accepts the request
    and, if one was queued, completes it before the next period, while the
    main loop takes nothing from the queue.  The outcomes of the [n] calls
    are returned. *)
Fixpoint paused_producer (n : nat) (w : world) : list outcome :=
  match n with
  | O => []
  | S n' =>
      let r := Z.to_nat (next_req_idx_ (cam w)) in
      match queue_request 0 w with
      | (Threw what, w') => Threw what :: paused_producer n' w'
      | (Returned, w') =>
          Returned ::
            match driver_complete r RequestComplete [0%nat] w' with
            | Completed w'' => paused_producer n' w''
            | NeverReturns w'' => paused_producer n' w''
            | OutOfBounds => []
            end
      end
  end.

(** The world a completed callback leaves: [k] failed attempts, the
    consumer having taken [n] pointers out in the meantime. *)
Definition after_completion (r : nat) (req : request) (data : list byte)
    (k n : nat) (w : world) : world :=
  let c := cam w in
  let off := frame_bytes_ c * frame_bytes_offset_ c in
  let p := pool_base c + off in
  mkWorld (running w) (timestamp w) (loop_ctl_sem w + 1)
    (Queue.mkQueue (Queue.capacity (frame_queue w))
       (Queue.items (Queue.drain n (frame_queue w)) ++ [p]))
    (mkCamera (frame_buffers_ c) (frame_bytes_ c)
       (update_nth r (reuse req) (requests_ c))
       (mmap_buffers_ c)
       (memcpy (frame_bytes_buffer_ c) off data (frame_bytes_ c))
       (pool_base c) (next_req_idx_ c)
       ((frame_bytes_offset_ c + 1) mod frame_buffers_ c))
    (udpfd w) (status w)
    (trace w ++ [Log INFO "Request completed"; Memcpy off (cookie req) (frame_bytes_ c)]
             ++ repeat (EnqueueTry p false) k
             ++ [EnqueueTry p true; SemPost; Reuse (cookie req)]).

End Camera.

(* ================================================================== *)
(** ** main.cpp: handlers, timer, loop *)

Module Main.

Definition SIGINT : Z := 2.
Definition SIGUSR1 : Z := 10.
Definition SIGTERM : Z := 15.
Definition SIGIO : Z := 29.

(** The literal ["STOP"], with its terminator. *)
Definition STOP : list byte := [x53; x54; x4f; x50; x00].

Definition byte_val (b : byte) : Z := Z.of_N (Byte.to_N b).

(** [strncmp]: compares at most [n] characters and stops after a common
    terminator; a string is read as terminated where the list ends. *)
Fixpoint strncmp (s1 s2 : list byte) (n : nat) : Z :=
  match n with
  | O => 0
  | S n' =>
      let c1 := byte_val (hd x00 s1) in
      let c2 := byte_val (hd x00 s2) in
      if negb (c1 =? c2) then c1 - c2
      else if c1 =? 0 then 0
      else strncmp (tl s1) (tl s2) n'
  end.

(** [recvfrom(fd, buf, len, 0, NULL, NULL)] on the non-blocking datagram
    socket: with nothing pending it fails; otherwise one datagram is taken
    off the socket, at most [len] of its bytes land in [buf] (the rest of a
    longer datagram is discarded) and the number of bytes stored is
    returned. *)
Definition recvfrom (pending : option (list byte)) (len : Z) : Z * list byte :=
  match pending with
  | None => (-1, [])
  | Some d => (Z.min (Z.of_nat (length d)) len, firstn (Z.to_nat len) d)
  end.

Definition msg_stop : string := "Received STOP signal, shutting down...".
Definition msg_timestamp : string := "Received timestamp".
Definition msg_unexpected : string := "Received unexpected message size".
Definition msg_queued : string := "Capture request queued".

(** [io_signal_handler]; [pending] is the state of the datagram socket. *)
Definition io_signal_handler (signo : Z) (pending : option (list byte))
    (w : world) : world :=
  if negb (signo =? SIGIO) then w
  else
    let (bytes_recvd, buf) := recvfrom pending 8 in
    if (bytes_recvd =? 4) && (strncmp buf STOP 4 =? 0) then
      set_timestamp 0 (log INFO msg_stop w)
    else if bytes_recvd =? 8 then
      sem_post (log INFO msg_timestamp (set_timestamp (Int64.of_le_bytes buf) w))
    else
      log DEBUG msg_unexpected w.

(** [capture_signal_handler]: there is no handler for exceptions around the
    call, so what [queue_request] throws leaves the handler. *)
Definition capture_signal_handler (signo : Z) (drv_ret : Z) (w : world)
  : outcome * world :=
  if negb (signo =? SIGUSR1) || (running w =? 0) then (Returned, w)
  else
    match Camera.queue_request drv_ret w with
    | (Threw what, w') => (Threw what, w')
    | (Returned, w') => (Returned, log INFO msg_queued w')
    end.

(** [exit_signal_handler]. *)
Definition exit_signal_handler (signo : Z) (w : world) : world :=
  if negb (signo =? SIGINT) && negb (signo =? SIGTERM) then w
  else sem_post (set_running 0 w).

(** [arm_timer]: [timer_settime(timerid, 0, &its, NULL)] with
    [its.it_value] split from [timestamp] and a zero interval. *)
Definition arm_timer (w : world) : world :=
  if timestamp w =? 0 then w
  else emit (TimerSettime 0 (Z.quot (timestamp w) ns_per_s)
                            (Z.rem (timestamp w) ns_per_s)) w.

(** The fields of [config] that [main] reads. *)
Record config := mkConfig {
  fps : Z;
  frame_buffers : Z;
  dma_buffers : Z
}.

(** [int64_t frame_duration = ns_per_s / config.fps;] *)
Definition frame_duration (cfg : config) : Z := Z.quot ns_per_s (fps cfg).

(** Modelled from the spec: [connection::bind_udp] (connection.h is not part
    of the sources at hand) opens and binds the datagram socket and leaves
    its descriptor in [udpfd]; [udp_env] is what the system answers to it
    and to the two [fcntl] calls of [init_sigio]. *)
Record udp_env := mkUdpEnv {
  bind_ret : Z;
  bound_fd : Z;
  sigio_ret : Z
}.

(** From the loop condition down to [sem_wait]: lines 86-102 of main.cpp. *)
Definition loop_head (fd : Z) (env : udp_env) (w : world) : world :=
  if running w =? 0 then set_status (Exited 0) w
  else
    let rebound :=
      if udpfd w <? 0 then
        let w1 := emit (BindUdp (bind_ret env)) w in
        if bind_ret env <? 0 then inl (bind_ret env, w1)
        else
          let w2 := emit (InitSigio (sigio_ret env)) (set_udpfd (bound_fd env) w1) in
          if sigio_ret env <? 0 then inl (sigio_ret env, w2) else inr w2
      else inr w in
    match rebound with
    | inl (ret, w') => set_status (Exited ret) w'
    | inr w1 =>
        let w2 := if timestamp w1 =? 0 then w1
                  else set_timestamp (Int64.wrap64 (timestamp w1 + fd)) w1 in
        set_status Blocked (arm_timer w2)
    end.

(** [sem_wait] returns; lines 102-112, then round to the loop head. *)
Definition loop_resume (fd : Z) (env : udp_env) (w : world) : world :=
  let w1 := emit SemWait (set_sem (loop_ctl_sem w - 1) w) in
  let (frame, q') := Queue.dequeue (frame_queue w1) in
  let w2 := emit (Dequeued frame) (set_queue q' w1) in
  let w3 := if frame =? 0 then w2 else emit (EncodeFrame frame) w2 in
  loop_head fd env w3.

(** The world [main] has built when it first reaches [sem_wait]; [c] is the
    camera handler its constructor produced. *)
Definition startup (cfg : config) (c : camera_handler_t) (env : udp_env) : world :=
  loop_head (frame_duration cfg) env
    {| running := 1; timestamp := 0; loop_ctl_sem := 0;
       frame_queue := Queue.create (dma_buffers cfg);
       cam := c; udpfd := -1; status := Blocked; trace := [] |}.

(** What can happen to the process: a handler runs, the driver completes a
    request, or the semaphore lets the main loop go on.  An event names the
    handler that runs, with the signal it is written for; which handler the
    kernel has been told to run for a signal is the matter of
    [init_signals] below.

    [step] takes a handler, a completion and a round of the loop as one
    step each, and lets handlers and completions run only while the main
    loop is blocked in [sem_wait].  The signals are asynchronous and the
    callback runs on another thread, so these are not all the schedules of
    the process: a signal can also arrive between two statements of the
    loop, and the callback can run while the loop dequeues.  Module [Fine]
    below has those schedules. *)
Inductive event :=
| IoHandler (pending : option (list byte))
| CaptureHandler (drv_ret : Z)
| ExitHandler (signo : Z)
| RequestCompleted (r : nat) (st : req_status) (sched : list nat)
| Wake (env : udp_env).

Definition step (fd : Z) (w : world) (e : event) : world :=
  match status w with
  | Blocked =>
      match e with
      | IoHandler pending => io_signal_handler SIGIO pending w
      | CaptureHandler drv_ret =>
          match capture_signal_handler SIGUSR1 drv_ret w with
          | (Returned, w') => w'
          | (Threw what, w') => set_status (Aborted what) w'
          end
      | ExitHandler signo => exit_signal_handler signo w
      | RequestCompleted r st sched =>
          match Camera.driver_complete r st sched w with
          | Camera.Completed w' => w'
          | Camera.NeverReturns w' => set_status Spinning w'
          | Camera.OutOfBounds => set_status Undefined w
          end
      | Wake env =>
          if 0 <? loop_ctl_sem w then loop_resume fd env w else w
      end
  | _ => w
  end.

Definition run (fd : Z) (evs : list event) (w : world) : world :=
  fold_left (step fd) evs w.

(** The [it_value]s handed to [timer_settime], in nanoseconds. *)
Fixpoint timer_arms (tr : list effect) : list Z :=
  match tr with
  | [] => []
  | TimerSettime _ s ns :: rest => (s * ns_per_s + ns) :: timer_arms rest
  | _ :: rest => timer_arms rest
  end.

(** *** Signal set-up *)

Inductive handler := capture_h | io_h | exit_h.

(** A handler field holds one of the three handlers or, when the structure
    was never written, whatever the stack held. *)
Inductive fnptr := Fn (h : handler) | Wild (addr : Z).

Record sigaction_t := mkSigaction {
  sa_sigaction : fnptr;
  sa_flags : Z;
  sa_mask : list Z
}.

Definition SA_SIGINFO : Z := 4.
Definition SA_RESTART : Z := 268435456.

(** [init_signals].  [exit_action] is declared and never assigned: its
    content [junk] is indeterminate.  [rets] are the answers of the four
    [sigaction] calls; the calls are chained with [||], so the first failure
    ends the chain, and the function then returns [-errno], a negative
    number that stands as -1 here.  The second component lists what was
    installed, in order. *)
Definition init_signals (junk : sigaction_t) (rets : Z * Z * Z * Z)
  : Z * list (Z * sigaction_t) :=
  let action := mkSigaction (Fn capture_h) (Z.lor SA_SIGINFO SA_RESTART) [] in
  let io_action := mkSigaction (Fn io_h) (Z.lor SA_SIGINFO SA_RESTART) [] in
  let exit_action := junk in
  let io_action := mkSigaction (Fn exit_h) (Z.lor SA_SIGINFO SA_RESTART) [] in
  let '(r1, r2, r3, r4) := rets in
  let t1 := [(SIGUSR1, action)] in
  if r1 <? 0 then (-1, []) else
  let t2 := t1 ++ [(SIGIO, io_action)] in
  if r2 <? 0 then (-1, t1) else
  let t3 := t2 ++ [(SIGINT, exit_action)] in
  if r3 <? 0 then (-1, t2) else
  let t4 := t3 ++ [(SIGTERM, exit_action)] in
  if r4 <? 0 then (-1, t3) else (0, t4).

Fixpoint disposition (tbl : list (Z * sigaction_t)) (signo : Z)
  : option sigaction_t :=
  match tbl with
  | [] => None
  | (s, a) :: rest =>
      match disposition rest signo with
      | Some a' => Some a'
      | None => if s =? signo then Some a else None
      end
  end.

(** The frames handed to the encoder, in order. *)
Fixpoint encoded (tr : list effect) : list Z :=
  match tr with
  | [] => []
  | EncodeFrame p :: rest => p :: encoded rest
  | _ :: rest => encoded rest
  end.

(** The semaphore posts recorded in a trace. *)
Fixpoint posts (tr : list effect) : nat :=
  match tr with
  | [] => O
  | SemPost :: rest => S (posts rest)
  | _ :: rest => posts rest
  end.

(** An activation of the async-I/O handler that finds a datagram of eight
    bytes or more, that is, one for which [recvfrom] answers 8. *)
Definition is_start (e : event) : bool :=
  match e with
  | IoHandler (Some d) => (8 <=? length d)%nat
  | _ => false
  end.

Definition is_io (e : event) : bool :=
  match e with
  | IoHandler _ => true
  | _ => false
  end.

(** Capacity of the queue [main] creates. *)
Definition queue_capacity (cfg : config) : Z :=
  Queue.capacity (Queue.create (dma_buffers cfg)).

(** The configurations the data model admits: [N >= 3], [2 <= M <= N]. *)
Definition config_ok (cfg : config) : Prop :=
  0 < fps cfg /\ 3 <= frame_buffers cfg /\
  2 <= dma_buffers cfg <= frame_buffers cfg.

(** Rounds of the main loop: the times [sem_wait] returned. *)
Fixpoint rounds (tr : list effect) : nat :=
  match tr with
  | [] => O
  | SemWait :: rest => S (rounds rest)
  | _ :: rest => rounds rest
  end.

(** A step that leaves the base timestamp and the timer alone and is no
    round of the loop. *)
Definition quiet (w w' : world) : Prop :=
  timestamp w' = timestamp w /\
  timer_arms (trace w') = timer_arms (trace w) /\
  rounds (trace w') = rounds (trace w).

(** A step that leaves the base timestamp and the timer alone. *)
Definition still (w w' : world) : Prop :=
  timestamp w' = timestamp w /\
  timer_arms (trace w') = timer_arms (trace w).


(** Delivery of a signal according to the installed dispositions: the
    registered handler runs with the signal number; nothing of this program
    runs when the disposition is not one of its handlers. *)
Definition deliver (tbl : list (Z * sigaction_t)) (signo : Z)
    (pending : option (list byte)) (drv_ret : Z) (w : world)
  : option (outcome * world) :=
  match disposition tbl signo with
  | Some a =>
      match sa_sigaction a with
      | Fn capture_h => Some (capture_signal_handler signo drv_ret w)
      | Fn io_h => Some (Returned, io_signal_handler signo pending w)
      | Fn exit_h => Some (Returned, exit_signal_handler signo w)
      | Wild _ => None
      end
  | None => None
  end.

End Main.

(* ================================================================== *)
(** ** main.cpp: the stream sink *)

Module Stream.

Definition EINTR : Z := 4.

Inductive sock_event :=
| ConnTcp (ret fd : Z)                        (* conn.conn_tcp()             *)
| WriteCall (fd off count result errno : Z)   (* write(fd, data+off, count)  *)
| SinkLog (lvl : level_t) (msg : string).

Definition msg_error : string := "Error transmitting frame".
Definition msg_done : string := "Transmitted frame".

(** Modelled from the spec: [connection::conn_tcp] (connection.h is not part
    of the sources at hand) opens the stream socket and connects it; an
    answer [(ret, fd)] is its return value and the descriptor it leaves in
    [tcpfd].  An answer [(result, errno)] to [write] is its return value and
    the error number it sets. *)
Definition answers := list (Z * Z).

(** The loop of [stream_pkt], entered with [total] bytes already written.
    [None]: the environment has no further answer and the loop is still
    waiting in [write] or [conn_tcp]. *)
Fixpoint stream_loop (writes conns : answers) (tcpfd total size : Z)
    (tr : list sock_event) {struct writes}
  : option (Z * Z * list sock_event) :=
  if total <? size then
    let connected :=
      if tcpfd <? 0 then
        match conns with
        | [] => None
        | (ret, fd) :: conns' => Some (ret, fd, conns', tr ++ [ConnTcp ret fd])
        end
      else Some (0, tcpfd, conns, tr) in
    match connected with
    | None => None
    | Some (ret, fd, conns', tr1) =>
        if ret <? 0 then Some (ret, fd, tr1)
        else
          match writes with
          | [] => None
          | (result, errno) :: writes' =>
              let tr2 := tr1 ++ [WriteCall fd total (size - total) result errno] in
              if result <? 0 then
                if errno =? EINTR then stream_loop writes' conns' fd total size tr2
                else Some (-1, fd, tr2 ++ [SinkLog ERROR msg_error])
              else stream_loop writes' conns' fd (total + result) size tr2
          end
    end
  else Some (0, tcpfd, tr ++ [SinkLog INFO msg_done]).

(** [stream_pkt(conn, data, size)]: return value, [conn.tcpfd] afterwards
    and what was done to the socket. *)
Definition stream_pkt (writes conns : answers) (tcpfd size : Z)
  : option (Z * Z * list sock_event) :=
  stream_loop writes conns tcpfd 0 size [].

(** Bytes the socket accepted. *)
Fixpoint written (tr : list sock_event) : Z :=
  match tr with
  | [] => 0
  | WriteCall _ _ _ result _ :: rest =>
      (if result <? 0 then 0 else result) + written rest
  | _ :: rest => written rest
  end.



End Stream.

(* ================================================================== *)
(** ** Sample values *)

Module Sample.

(** A 2x2 frame: 4 + 1 + 1 bytes. *)
Definition plane (b : byte) : list byte := repeat b 6.

(** A camera handler as its constructor leaves it for [FRAME_BUFFERS = 4]
    and [DMA_BUFFERS = 3]. *)
Definition cam0 : camera_handler_t :=
  {| frame_buffers_ := 4;
     frame_bytes_ := 6;
     requests_ := [ mkRequest 0 (Some 0) RequestPending;
                    mkRequest 1 (Some 1) RequestPending;
                    mkRequest 2 (Some 2) RequestPending ];
     mmap_buffers_ := [ plane x11; plane x22; plane x33 ];
     frame_bytes_buffer_ := repeat x00 24;
     pool_base := 4096;
     next_req_idx_ := 0;
     frame_bytes_offset_ := 0 |}.

Definition cfg : Main.config := Main.mkConfig 30 4 3.

(** The smallest configuration the data model admits, and its camera. *)
Definition cfg_small : Main.config := Main.mkConfig 30 3 2.

Definition cam_small : camera_handler_t :=
  {| frame_buffers_ := 3;
     frame_bytes_ := 6;
     requests_ := [ mkRequest 0 (Some 0) RequestPending;
                    mkRequest 1 (Some 1) RequestPending ];
     mmap_buffers_ := [ plane x11; plane x22 ];
     frame_bytes_buffer_ := repeat x00 18;
     pool_base := 4096;
     next_req_idx_ := 0;
     frame_bytes_offset_ := 0 |}.
Definition env : Main.udp_env := Main.mkUdpEnv 0 5 0.

(** The node waiting for its first datagram. *)
Definition idle : world := Main.startup cfg cam0 env.

(** 10^18 ns since the epoch, little-endian. *)
Definition start_dgram : list byte := [x00; x00; x64; xa7; xb3; xb6; xe0; x0d].
Definition stop_dgram : list byte := [x53; x54; x4f; x50].
Definition hello_dgram : list byte := [x48; x45; x4c; x4c; x4f].
Definition long_dgram : list byte := start_dgram ++ [xff].

(** The node with three frames waiting in the queue. *)
Definition backlog : world :=
  {| running := 1; timestamp := 1000000000033333333; loop_ctl_sem := 3;
     frame_queue := Queue.mkQueue 4 [4096; 4102; 4108];
     cam := Camera.set_offset 3 cam0; udpfd := 5; status := Blocked;
     trace := [] |}.

(** A node with five pool slots and two DMA buffers; the queue that [main]
    creates for it has room for two pointers. *)
Definition cfg_narrow : Main.config := Main.mkConfig 30 5 2.

Definition cam_narrow : camera_handler_t :=
  {| frame_buffers_ := 5;
     frame_bytes_ := 6;
     requests_ := [ mkRequest 0 (Some 0) RequestPending;
                    mkRequest 1 (Some 1) RequestPending ];
     mmap_buffers_ := [ plane x11; plane x22 ];
     frame_bytes_buffer_ := repeat x00 30;
     pool_base := 4096;
     next_req_idx_ := 0;
     frame_bytes_offset_ := 0 |}.

Definition idle_narrow : world := Main.startup cfg_narrow cam_narrow env.

End Sample.

(* ================================================================== *)
(** ** Well-formed states of the node *)

Module Wf.

(** The pointers the completion callback got into the queue, in order. *)
Fixpoint enqueued (tr : list effect) : list Z :=
  match tr with
  | [] => []
  | EnqueueTry p true :: rest => p :: enqueued rest
  | _ :: rest => enqueued rest
  end.

(** Slot [k] of the pool: [frame_bytes_] bytes from offset
    [frame_bytes_ * k]. *)
Definition slot (c : camera_handler_t) (k : Z) : list byte :=
  firstn (Z.to_nat (frame_bytes_ c))
         (skipn (Z.to_nat (frame_bytes_ c * k)) (frame_bytes_buffer_ c)).

(** What the constructor of the camera handler sets up and the two methods
    rely on: a pool of [frame_buffers_] slots at a non-null address, mapped
    buffers of one frame each, cookies that index them, and both cursors
    inside their ranges. *)
Definition layout_ok (c : camera_handler_t) : Prop :=
  0 < frame_buffers_ c /\
  0 <= frame_bytes_ c /\
  0 <= frame_bytes_offset_ c < frame_buffers_ c /\
  0 <= next_req_idx_ c < Z.of_nat (length (requests_ c)) /\
  Camera.valid_cookies c = true /\
  Z.of_nat (length (frame_bytes_buffer_ c)) = frame_bytes_ c * frame_buffers_ c /\
  Forall (fun d => Z.of_nat (length d) = frame_bytes_ c) (mmap_buffers_ c) /\
  0 < pool_base c.

(** Every pointer in the queue has a unit of the semaphore to wake the main
    loop for it, and the queue holds no more than its capacity. *)
Definition pending_ok (w : world) : Prop :=
  Z.of_nat (length (Queue.items (frame_queue w))) <= loop_ctl_sem w /\
  Z.of_nat (length (Queue.items (frame_queue w))) <= Queue.capacity (frame_queue w).

(** [n] calls of [queue_request] in a row, each accepted by the driver. *)
Fixpoint queue_requests (n : nat) (w : world) : world :=
  match n with
  | O => w
  | S n' => queue_requests n' (snd (Camera.queue_request 0 w))
  end.

(** The world in which the callback is when it enters its retry loop: the
    frame is in the pool slot and the cursor has moved on. *)
Definition frame_copied (req : request) (data : list byte) (w : world) : world :=
  let c := cam w in
  let off := frame_bytes_ c * frame_bytes_offset_ c in
  mkWorld (running w) (timestamp w) (loop_ctl_sem w) (frame_queue w)
    (mkCamera (frame_buffers_ c) (frame_bytes_ c) (requests_ c) (mmap_buffers_ c)
       (Camera.memcpy (frame_bytes_buffer_ c) off data (frame_bytes_ c))
       (pool_base c) (next_req_idx_ c)
       ((frame_bytes_offset_ c + 1) mod frame_buffers_ c))
    (udpfd w) (status w)
    (trace w ++ [Log INFO "Request completed"; Memcpy off (cookie req) (frame_bytes_ c)]).

(** A well-formed node with two frames waiting. *)
Definition busy : world :=
  {| running := 1; timestamp := 1000000000033333333; loop_ctl_sem := 2;
     frame_queue := Queue.mkQueue 4 [4096; 4102];
     cam := Camera.set_offset 2 Sample.cam0; udpfd := 5; status := Blocked;
     trace := [EnqueueTry 4096 true; EnqueueTry 4102 true] |}.

End Wf.

(* ================================================================== *)
(** ** What the stream sink did *)

Module Sink.

(** Every [write] in the trace starts where the bytes accepted so far end
    and asks for all that is left of [size]; [acc] is the number of bytes
    accepted before the trace. *)
Fixpoint contiguous (size acc : Z) (tr : list Stream.sock_event) : bool :=
  match tr with
  | [] => true
  | Stream.WriteCall _ off count result _ :: rest =>
      (off =? acc) && (count =? size - acc) && (acc <? size)
      && contiguous size (acc + (if result <? 0 then 0 else result)) rest
  | _ :: rest => contiguous size acc rest
  end.

(** An answer of [write] that makes no progress: nothing accepted, or the
    call interrupted. *)
Definition no_progress (a : Z * Z) : bool :=
  (fst a =? 0) || ((fst a <? 0) && (snd a =? Stream.EINTR)).

End Sink.

(* ================================================================== *)
(** ** camera_handler.cpp: the constructor *)

Module Construct.

(** Arithmetic of [unsigned int]. *)
Definition wrap32 (x : Z) : Z := x mod 2 ^ 32.

(** [libcamera::CameraConfiguration::Status]. *)
Inductive cfg_status := Valid | Adjusted | Invalid.

(** The values the constructor reads with [config.get_int]. *)
Record config_parser := mkConfigParser {
  FRAME_WIDTH : Z;
  FRAME_HEIGHT : Z;
  FRAME_DURATION_MIN : Z;
  FRAME_DURATION_MAX : Z;
  FRAME_BUFFERS : Z;
  DMA_BUFFERS : Z
}.

(** One [libcamera::FrameBuffer] of the allocator, with what the library
    and the kernel answer while the loop handles it: whether
    [createRequest] returns a request, what [addBuffer] returns, the
    lengths of the planes, and the memory [mmap] maps ([None]: MAP_FAILED,
    with the text of [strerror(errno)]). *)
Record frame_buffer := mkFrameBuffer {
  request_made : bool;
  add_buffer_ret : Z;
  planes : list Z;
  mmap_ret : option (nat -> byte);
  mmap_strerror : string
}.

(** What the camera stack and [malloc] answer to the constructor. *)
Record libcamera := mkLibcamera {
  cm_start_ret : Z;
  cameras : nat;                    (* cm_->cameras().size()            *)
  camera_got : bool;                (* cm_->get(...) is not null        *)
  acquire_ret : Z;
  generated : bool;                 (* generateConfiguration not null   *)
  validate_1st : cfg_status;        (* first call of config_->validate  *)
  validate_2nd : cfg_status;        (* second call                      *)
  configure_ret : Z;
  allocate_ret : Z;
  buffers : list frame_buffer;      (* allocator_->buffers(stream_)     *)
  start_ret : Z;
  malloc_ret : Z;                   (* address, 0 for a null pointer    *)
  malloc_junk : nat -> byte         (* what the fresh memory holds      *)
}.

(** What the constructor asks of the camera stack, the kernel and the
    logger. *)
Inductive call :=
| Validate
| Configure (width height buffer_count : Z)
| CreateRequest (cookie : Z)
| AddBuffer (cookie : Z)
| Mmap (length : Z)
| ConnectRequestCompleted
| Start (duration_min duration_max exposure : Z)
| Malloc (size : Z)
| LogError (msg : string).

Inductive result (A : Type) :=
| Done (a : A)
| Thrown (what : string)   (* std::runtime_error(what) leaves the constructor *)
| OutOfRange.              (* planes() indexed past its end                   *)
Arguments Done {A} a.
Arguments Thrown {A} what.
Arguments OutOfRange {A}.

(** Computations that add to the list of calls and may throw. *)
Definition M (A : Type) : Type := list call -> result A * list call.

Definition ret {A} (a : A) : M A := fun tr => (Done a, tr).

Definition bind {A B} (m : M A) (f : A -> M B) : M B :=
  fun tr =>
    match m tr with
    | (Done a, tr1) => f a tr1
    | (Thrown what, tr1) => (Thrown what, tr1)
    | (OutOfRange, tr1) => (OutOfRange, tr1)
    end.

Definition emit (c : call) : M unit := fun tr => (Done tt, tr ++ [c]).

(** [logger.log(ERROR, ..., err); throw std::runtime_error(err);] *)
Definition throw {A} (err : string) : M A :=
  fun tr => (Thrown err, tr ++ [LogError err]).

(** [if (!ok) { log; throw }]. *)
Definition require (ok : bool) (err : string) : M unit :=
  if ok then ret tt else throw err.

Definition out_of_range {A} : M A := fun tr => (OutOfRange, tr).

Notation "x <- m ;; f" := (bind m (fun x => f))
  (at level 61, m at next level, right associativity).
Notation "m ;;; f" := (bind m (fun _ => f))
  (at level 61, right associativity).

Definition err_cm : string := "Failed to start camera manager".
Definition err_none : string := "No cameras available".
Definition err_get : string := "Failed to retrieve camera".
Definition err_acquire : string := "Failed to acquire camera".
Definition err_generate : string := "Failed to generate camera configuration".
Definition err_invalid : string := "Invalid camera configuration, unable to adjust".
Definition err_adjusted : string := "Invalid camera configuration, adjusted".
Definition err_configure : string := "Failed to configure camera".
Definition err_allocate : string := "Failed to allocate buffers".
Definition err_request : string := "Failed to create request".
Definition err_add : string := "Failed to add buffer to request".
Definition err_plane : string := "Plane size does not match expected size".
Definition err_mmap : string := "Failed to mmap plane data: ".
Definition err_start : string := "Failed to start camera".
Definition err_malloc : string := "Failed to allocate frame bytes buffer".

(** [y_plane_bytes], [u_plane_bytes] (which is also [v_plane_bytes]) and
    [frame_bytes_], all computed in [unsigned int]. *)
Definition y_plane_bytes (cfg : config_parser) : Z :=
  wrap32 (wrap32 (FRAME_WIDTH cfg) * wrap32 (FRAME_HEIGHT cfg)).

Definition u_plane_bytes (cfg : config_parser) : Z := y_plane_bytes cfg / 4.

Definition frame_bytes (cfg : config_parser) : Z :=
  wrap32 (y_plane_bytes cfg + u_plane_bytes cfg + u_plane_bytes cfg).

(** Modelled from the spec: the pool is a single allocation of
    [frame_bytes_ * frame_buffers_] bytes.  The members' types are declared
    in camera_handler.h, which is not among the sources at hand; the
    product is taken without overflow. *)
Definition pool_bytes (cfg : config_parser) : Z :=
  frame_bytes cfg * FRAME_BUFFERS cfg.

(** The two calls of [config_->validate()]: the second is made only when
    the first did not answer [Invalid]. *)
Definition validation (d : libcamera) : M unit :=
  emit Validate ;;;
  match validate_1st d with
  | Invalid => throw err_invalid
  | _ =>
      emit Validate ;;;
      match validate_2nd d with
      | Adjusted => throw err_adjusted
      | _ => ret tt
      end
  end.

(** The loop over the allocator's buffers; [req_cookie] counts them. *)
Fixpoint setup_buffers (cfg : config_parser) (bufs : list frame_buffer)
    (req_cookie : Z) (requests : list request) (mmap_buffers : list (list byte))
  : M (list request * list (list byte)) :=
  match bufs with
  | [] => ret (requests, mmap_buffers)
  | b :: rest =>
      emit (CreateRequest req_cookie) ;;;
      require (request_made b) err_request ;;;
      emit (AddBuffer req_cookie) ;;;
      require (negb (add_buffer_ret b <? 0)) err_add ;;;
      let requests' :=
        requests ++ [mkRequest req_cookie (Some req_cookie) RequestPending] in
      match planes b with
      | y_len :: u_len :: v_len :: _ =>
          require (negb (negb (y_len =? y_plane_bytes cfg)
                         || negb (u_len =? u_plane_bytes cfg)
                         || negb (v_len =? u_plane_bytes cfg))) err_plane ;;;
          emit (Mmap (frame_bytes cfg)) ;;;
          match mmap_ret b with
          | None => throw (String.append err_mmap (mmap_strerror b))
          | Some mem =>
              let data := map mem (seq 0 (Z.to_nat (frame_bytes cfg))) in
              setup_buffers cfg rest (req_cookie + 1) requests'
                (mmap_buffers ++ [data])
          end
      | _ => out_of_range
      end
  end.

(** [camera_handler_t::camera_handler_t]. *)
Definition construct (cfg : config_parser) (d : libcamera) : M camera_handler_t :=
  require (negb (cm_start_ret d <? 0)) err_cm ;;;
  require (negb (Nat.eqb (cameras d) 0)) err_none ;;;
  require (camera_got d) err_get ;;;
  require (negb (acquire_ret d <? 0)) err_acquire ;;;
  require (generated d) err_generate ;;;
  validation d ;;;
  emit (Configure (wrap32 (FRAME_WIDTH cfg)) (wrap32 (FRAME_HEIGHT cfg))
                  (DMA_BUFFERS cfg)) ;;;
  require (negb (configure_ret d <? 0)) err_configure ;;;
  require (negb (allocate_ret d <? 0)) err_allocate ;;;
  rm <- setup_buffers cfg (buffers d) 0 [] [] ;;
  emit ConnectRequestCompleted ;;;
  emit (Start (wrap32 (FRAME_DURATION_MIN cfg)) (wrap32 (FRAME_DURATION_MAX cfg))
              (wrap32 (FRAME_DURATION_MIN cfg))) ;;;
  require (negb (start_ret d <? 0)) err_start ;;;
  emit (Malloc (pool_bytes cfg)) ;;;
  require (negb (malloc_ret d =? 0)) err_malloc ;;;
  ret {| frame_buffers_ := FRAME_BUFFERS cfg;
         frame_bytes_ := frame_bytes cfg;
         requests_ := fst rm;
         mmap_buffers_ := snd rm;
         frame_bytes_buffer_ :=
           map (malloc_junk d) (seq 0 (Z.to_nat (pool_bytes cfg)));
         pool_base := malloc_ret d;
         next_req_idx_ := 0;
         frame_bytes_offset_ := 0 |}.

(** Computations that log what they throw: a thrown message is the last
    thing logged. *)
Definition logs_what_it_throws {A} (m : M A) : Prop :=
  forall tr what tr',
    m tr = (Thrown what, tr') -> exists pre, tr' = pre ++ [LogError what].

(** A buffer with which the loop goes through: the request is made, the
    buffer added, the three planes have the expected lengths and the
    mapping succeeds. *)
Definition good_buffer (cfg : config_parser) (b : frame_buffer) : bool :=
  request_made b
  && negb (add_buffer_ret b <? 0)
  && match planes b with
     | y_len :: u_len :: v_len :: _ =>
         (y_len =? y_plane_bytes cfg) && (u_len =? u_plane_bytes cfg)
         && (v_len =? u_plane_bytes cfg)
     | _ => false
     end
  && match mmap_ret b with Some _ => true | None => false end.

(** Answers with which the constructor goes through. *)
Definition all_good (cfg : config_parser) (d : libcamera) : bool :=
  negb (cm_start_ret d <? 0)
  && negb (Nat.eqb (cameras d) 0)
  && camera_got d
  && negb (acquire_ret d <? 0)
  && generated d
  && match validate_1st d with Invalid => false | _ => true end
  && match validate_2nd d with Adjusted => false | _ => true end
  && negb (configure_ret d <? 0)
  && negb (allocate_ret d <? 0)
  && forallb (good_buffer cfg) (buffers d)
  && negb (start_ret d <? 0)
  && negb (malloc_ret d =? 0).

(** The same stack with another answer to the first [validate]. *)
Definition with_validate_1st (s : cfg_status) (d : libcamera) : libcamera :=
  mkLibcamera (cm_start_ret d) (cameras d) (camera_got d) (acquire_ret d)
    (generated d) s (validate_2nd d) (configure_ret d) (allocate_ret d)
    (buffers d) (start_ret d) (malloc_ret d) (malloc_junk d).

(** The requests the loop builds for [n] buffers. *)
Definition fresh_requests (from : Z) (n : nat) : list request :=
  map (fun i => mkRequest (from + Z.of_nat i) (Some (from + Z.of_nat i)) RequestPending)
      (seq 0 n).

(** A 2x2 camera with three DMA buffers, every call answered well. *)
Definition cfg0 : config_parser := mkConfigParser 2 2 16666 33333 4 3.

Definition buffer0 (b : byte) : frame_buffer :=
  mkFrameBuffer true 0 [4; 1; 1] (Some (fun _ => b)) "".

Definition stack0 : libcamera :=
  {| cm_start_ret := 0; cameras := 1; camera_got := true; acquire_ret := 0;
     generated := true; validate_1st := Valid; validate_2nd := Valid;
     configure_ret := 0; allocate_ret := 0;
     buffers := [buffer0 x11; buffer0 x22; buffer0 x33];
     start_ret := 0; malloc_ret := 4096; malloc_junk := fun _ => x00 |}.

End Construct.

(* ================================================================== *)
(** ** toolkit/lens_calibration: main.cpp *)

Module Lens.

Definition EINVAL : Z := 22.

(** The search for the camera named on the command line (lines 60-90).
    [cam_conf] is declared in parse_conf.h, of which only the member [id]
    is read here. *)
Section Selection.

Variable cam_conf : Type.
Variable id : cam_conf -> Z.

(** The [for] loop: the position and the entry at which it breaks. *)
Fixpoint scan (target_cam_id : Z) (i : nat) (cam_confs : list cam_conf)
  : option (nat * cam_conf) :=
  match cam_confs with
  | [] => None
  | c :: rest =>
      if negb (id c =? target_cam_id) then scan target_cam_id (S i) rest
      else Some (i, c)
  end.

(** [argc] and the value [std::stoi(argv[1])] yields; the result is either
    the value [main] returns at once, or the camera table and [cam_count]
    with which it goes on. *)
Definition select (argc : Z) (stoi_argv1 : Z) (cam_confs : list cam_conf)
  : Z + (list cam_conf * Z) :=
  if argc =? 2 then
    match scan stoi_argv1 0 cam_confs with
    | Some (_, c) =>
        inr (match cam_confs with
             | [] => []
             | _ :: rest => c :: rest        (* cam_confs[0] = cam_confs[i] *)
             end, 1)
    | None => inl (- EINVAL)
    end
  else inl (- EINVAL).

End Selection.

(** What the calibration loop does to the queues, the calibrator and the
    log. *)
Inductive action :=
| Dequeue (frameset : option Z)   (* spsc_dequeue(filled_frameset_q)          *)
| Usleep (us : Z)
| Release (frameset : Z)          (* spsc_enqueue(empty_frameset_q, frameset) *)
| TryFrame (frameset : Z)
| LogDebug (msg : string)
| DisplayCorners (frameset : Z)
| Calibrate.

(** One turn of the loop as the environment answers it: what the dequeue
    yields, and for a frameset whether [try_frame] finds the corners in it
    and what [check_status] says after it was used. *)
Inductive turn :=
| Empty
| Frameset (frameset : Z) (found_corners : bool) (status : bool).

Record state := mkState {
  cooldown_counter : Z;
  on_cooldown : bool;
  calibration_complete : bool;
  done : list action
}.

Definition msg_no_corners : string := "Failed to find corners".

(** [uint32_t cooldown = stream_conf.fps / 3;] for a frame rate that is
    not negative. *)
Definition cooldown_of (fps : Z) : Z := Construct.wrap32 (fps / 3).

(** The body of the [while] loop (lines 113-164). *)
Definition body (cooldown : Z) (t : turn) (s : state) : state :=
  match t with
  | Empty =>
      mkState (cooldown_counter s) (on_cooldown s) (calibration_complete s)
              (done s ++ [Dequeue None; Usleep 1000])
  | Frameset f found_corners status =>
      if on_cooldown s then
        let counter := Construct.wrap32 (cooldown_counter s + 1) in
        let tr := done s ++ [Dequeue (Some f); Release f] in
        if counter >=? cooldown
        then mkState 0 false (calibration_complete s) tr
        else mkState counter true (calibration_complete s) tr
      else if negb found_corners then
        mkState (cooldown_counter s) false (calibration_complete s)
                (done s ++ [Dequeue (Some f); TryFrame f; LogDebug msg_no_corners])
      else
        mkState (cooldown_counter s) true status
                (done s ++ [Dequeue (Some f); TryFrame f; DisplayCorners f;
                            Calibrate; Release f])
  end.

(** [while (!calibration_complete) ...] for as many turns as are given. *)
Fixpoint loop (cooldown : Z) (turns : list turn) (s : state) : state :=
  match turns with
  | [] => s
  | t :: rest =>
      if calibration_complete s then s
      else loop cooldown rest (body cooldown t s)
  end.

(** The state in which the loop is entered. *)
Definition init : state := mkState 0 false false [].

Fixpoint fetched (tr : list action) : list Z :=
  match tr with
  | [] => []
  | Dequeue (Some f) :: rest => f :: fetched rest
  | _ :: rest => fetched rest
  end.

Fixpoint released (tr : list action) : list Z :=
  match tr with
  | [] => []
  | Release f :: rest => f :: released rest
  | _ :: rest => released rest
  end.

Fixpoint tried (tr : list action) : list Z :=
  match tr with
  | [] => []
  | TryFrame f :: rest => f :: tried rest
  | _ :: rest => tried rest
  end.

(** Tries that found no corners. *)
Fixpoint misses (tr : list action) : nat :=
  match tr with
  | [] => O
  | LogDebug _ :: rest => S (misses rest)
  | _ :: rest => misses rest
  end.

(** Framesets that arrive one after the other, each with the answers the
    calibrator would give for it. *)
Definition arrivals (fs : list (Z * (bool * bool))) : list turn :=
  map (fun f => Frameset (fst f) (fst (snd f)) (snd (snd f))) fs.

End Lens.

(* ================================================================== *)
(** ** toolkit/stereo_calibration: main.cpp *)

Module Stereo.

Inductive action :=
| Dequeue (frameset : option Z)      (* spsc_dequeue(filled_frameset_q)          *)
| Usleep (us : Z)
| Release (frameset : Z)             (* spsc_enqueue(empty_frameset_q, frameset) *)
| DisplayDequeue (got : bool)        (* spsc_dequeue(&empty_display_consumer_q)  *)
| Show (frameset : Z)                (* spsc_enqueue(&filled_display_producer_q) *)
| TryFrames (frameset : Z).

(** One turn of the loop as the environment answers it: the value of
    [stop_flag] at the loop test, what the dequeue yields, how often the
    display queue is found empty before it yields a buffer ([None]: it
    never does), and what [check_status] says if the frames are tried. *)
Record turn := mkTurn {
  stop_flag : bool;
  filled : option Z;
  display_misses : option nat;
  status : bool
}.

Record state := mkState {
  cooldown : Z;
  cooldown_counter : Z;
  done_calibrating : bool;
  left_loop : bool;          (* the loop test failed                       *)
  hung : bool;               (* inside the inner loop for a display buffer *)
  done : list action
}.

(** [const uint32_t cooldown_limit = stream_conf.fps / 3;] for a frame rate
    that is not negative. *)
Definition cooldown_limit_of (fps : Z) : Z := Construct.wrap32 (fps / 3).

Definition add (acts : list action) (s : state) : state :=
  mkState (cooldown s) (cooldown_counter s) (done_calibrating s) (left_loop s)
          (hung s) (done s ++ acts).

(** The failed attempts of the inner loop, each followed by its sleep. *)
Fixpoint retries (n : nat) : list action :=
  match n with
  | O => []
  | S n' => DisplayDequeue false :: Usleep 100 :: retries n'
  end.

(** One turn of the [while] loop (lines 202-267), the test included. *)
Definition body (cooldown_limit : Z) (t : turn) (s : state) : state :=
  if stop_flag t || done_calibrating s then
    mkState (cooldown s) (cooldown_counter s) (done_calibrating s) true (hung s)
            (done s)
  else
    match filled t with
    | None => add [Dequeue None; Usleep 100] s
    | Some f =>
        let s1 := add [Dequeue (Some f); Release f] s in
        match display_misses t with
        | None =>
            mkState (cooldown s1) (cooldown_counter s1) (done_calibrating s1)
                    false true (done s1)
        | Some n =>
            let s2 := add (retries n ++ [DisplayDequeue true; Show f]) s1 in
            if cooldown s2 >? 0 then
              let counter := Construct.wrap32 (cooldown_counter s2 + 1) in
              if counter >=? cooldown s2
              then mkState 0 counter (done_calibrating s2) false false (done s2)
              else mkState (cooldown s2) counter (done_calibrating s2) false false
                           (done s2)
            else
              mkState cooldown_limit 0 (status t) false false
                      (done s2 ++ [TryFrames f])
        end
    end.

Fixpoint loop (cooldown_limit : Z) (turns : list turn) (s : state) : state :=
  match turns with
  | [] => s
  | t :: rest =>
      if left_loop s || hung s then s
      else loop cooldown_limit rest (body cooldown_limit t s)
  end.

(** The state in which the loop is entered. *)
Definition init : state := mkState 0 0 false false false [].

Fixpoint fetched (tr : list action) : list Z :=
  match tr with
  | [] => []
  | Dequeue (Some f) :: rest => f :: fetched rest
  | _ :: rest => fetched rest
  end.

Fixpoint released (tr : list action) : list Z :=
  match tr with
  | [] => []
  | Release f :: rest => f :: released rest
  | _ :: rest => released rest
  end.

Fixpoint shown (tr : list action) : list Z :=
  match tr with
  | [] => []
  | Show f :: rest => f :: shown rest
  | _ :: rest => shown rest
  end.

Fixpoint tried (tr : list action) : list Z :=
  match tr with
  | [] => []
  | TryFrames f :: rest => f :: tried rest
  | _ :: rest => tried rest
  end.

(** A turn in which a frameset arrives, a display buffer is there after
    [n] misses, nobody asks to stop and the calibration is not done. *)
Definition arrival (fn : Z * nat) : turn :=
  mkTurn false (Some (fst fn)) (Some (snd fn)) false.

(** Every [gap + 1]-th element of a list, the first one taken after [wait]
    elements. *)
Fixpoint spaced {A} (gap wait : nat) (l : list A) : list A :=
  match l with
  | [] => []
  | x :: rest =>
      match wait with
      | O => x :: spaced gap gap rest
      | S w => spaced gap w rest
      end
  end.

(** The cores of a CCD and the framesets of the display ring. *)
Definition CORES_PER_CCD : Z := 8.
Definition DISPLAY_Q_SIZE : Z := 8.

(** [CPU_SET(cam_count % CORES_PER_CCD, &cpuset)]: the [int] is converted
    to [uint32_t] for the remainder. *)
Definition main_core (cam_count : Z) : Z :=
  Construct.wrap32 cam_count mod CORES_PER_CCD.

(** [.core = static_cast<uint32_t>((cam_count - 1) % CORES_PER_CCD)]. *)
Definition display_core (cam_count : Z) : Z :=
  Construct.wrap32 (Construct.wrap32 (cam_count - 1) mod CORES_PER_CCD).

(** [uint32_t offset = i * cam_count;], the place in [display_frames] of
    the [i]-th frameset handed to the display ring. *)
Definition display_offset (cam_count i : Z) : Z :=
  Construct.wrap32 (i * Construct.wrap32 cam_count).

(** [cv::Mat display_frames[DISPLAY_Q_SIZE * cam_count];] *)
Definition display_frames_size (cam_count : Z) : Z :=
  Construct.wrap32 (DISPLAY_Q_SIZE * Construct.wrap32 cam_count).

End Stereo.

(* ================================================================== *)
(** ** The pool and the queue together *)

Module Pool.

(** Address of slot [k] of the pool. *)
Definition slot_ptr (c : camera_handler_t) (k : Z) : Z :=
  pool_base c + frame_bytes_ c * k.

(** The slots the last [n] completions wrote, oldest first: the [n] slots
    that end just before the cursor, going round the pool. *)
Definition window (c : camera_handler_t) (n : nat) : list Z :=
  map (fun i => (frame_bytes_offset_ c - Z.of_nat n + Z.of_nat i)
                  mod frame_buffers_ c)
      (seq 0 n).

(** The queue holds the addresses of the slots written last, oldest
    first. *)
Definition fresh (w : world) : Prop :=
  Queue.items (frame_queue w)
    = map (slot_ptr (cam w)) (window (cam w) (length (Queue.items (frame_queue w)))).

(** A node in which every slot of the pool is waiting in the queue. *)
Definition crowded : world :=
  {| running := 1; timestamp := 1000000000033333333; loop_ctl_sem := 4;
     frame_queue := Queue.mkQueue 8 [4108; 4114; 4096; 4102];
     cam := Camera.set_offset 2 Sample.cam0; udpfd := 5; status := Blocked;
     trace := [] |}.

End Pool.

(* ================================================================== *)
(** ** The node statement by statement *)

(** [Main.step] lets a handler or a completion run from beginning to end
    while the main loop waits in [sem_wait].  Here the main thread, the
    handlers and the completion callback take turns statement by
    statement: a signal is handled wherever the main thread is, also
    between the read and the write of [timestamp] in line 95 of main.cpp,
    and the callback, which runs on the camera's thread, goes on while the
    main thread dequeues and encodes.

    A handler preempts the main loop between two of its statements and is
    one step: of what the callback's thread works on it uses the semaphore
    only, by one [sem_getvalue] or one [sem_post].  The
    operations of the queue and of the semaphore are one step each.  The
    [status] field of the world is not used here; where the main thread is
    is recorded in [main]. *)
Module Fine.

(** Where the main thread is in lines 86-112 of main.cpp. *)
Inductive main_pc :=
| AtWait                      (* in sem_wait, line 102                      *)
| AtDequeue                   (* sem_wait has returned, before line 104      *)
| AtEncode (frame : Z)        (* a frame was dequeued, before line 107       *)
| AtTest                      (* at the loop condition, line 86              *)
| AtRead                      (* line 95, timestamp not yet read             *)
| AtWrite (seen : Z)          (* line 95, timestamp read, not yet written    *)
| AtArm                       (* before arm_timer, line 97                   *)
| MainReturned (code : Z)     (* main has returned                           *)
| MainAborted (what : string).  (* an exception left a handler               *)

(** Where the completion callback is in lines 248-266 of
    camera_handler.cpp. *)
Inductive callback_pc :=
| Idle
| Enqueueing (r : nat) (req : request) (frame_offset : Z)  (* in the do-while *)
| Posting (r : nat) (req : request)                        (* before sem_post *)
| Reusing (r : nat) (req : request)                        (* before reuse    *)
| Faulted.                          (* an index out of range was dereferenced *)

Record state := mkState {
  data : world;
  main : main_pc;
  callback : callback_pc
}.

(** A signal handled where the main thread is, the main thread or the
    callback going on to its next point, or the camera's thread entering
    [request_complete] for the request at position [r], which the driver
    has marked [st].  As in [Main.event], a signal runs the handler that
    is written for it. *)
Inductive event :=
| SignalIo (pending : option (list byte))
| SignalTimer (drv_ret : Z)
| SignalExit (signo : Z)
| MainStep (env : Main.udp_env)
| Completed (r : nat) (st : req_status)
| CallbackStep.

Definition alive (s : state) : bool :=
  match main s with
  | MainReturned _ | MainAborted _ => false
  | _ => true
  end.

Definition aborted (s : state) : bool :=
  match main s with MainAborted _ => true | _ => false end.

(** The main thread up to its next point.  Line 95,
    [if (timestamp) timestamp += frame_duration;], reads [timestamp] at
    [AtRead], for the test and for the sum, and writes it at [AtWrite]. *)
Definition main_step (fd : Z) (env : Main.udp_env) (s : state) : state :=
  let w := data s in
  match main s with
  | AtWait =>
      if 0 <? loop_ctl_sem w
      then mkState (emit SemWait (set_sem (loop_ctl_sem w - 1) w)) AtDequeue
                   (callback s)
      else s
  | AtDequeue =>
      let fq := Queue.dequeue (frame_queue w) in
      mkState (emit (Dequeued (fst fq)) (set_queue (snd fq) w))
              (if fst fq =? 0 then AtTest else AtEncode (fst fq))
              (callback s)
  | AtEncode frame => mkState (emit (EncodeFrame frame) w) AtTest (callback s)
  | AtTest =>
      if running w =? 0 then mkState w (MainReturned 0) (callback s)
      else if udpfd w <? 0 then
        let w1 := emit (BindUdp (Main.bind_ret env)) w in
        if Main.bind_ret env <? 0
        then mkState w1 (MainReturned (Main.bind_ret env)) (callback s)
        else
          let w2 := emit (InitSigio (Main.sigio_ret env))
                         (set_udpfd (Main.bound_fd env) w1) in
          if Main.sigio_ret env <? 0
          then mkState w2 (MainReturned (Main.sigio_ret env)) (callback s)
          else mkState w2 AtRead (callback s)
      else mkState w AtRead (callback s)
  | AtRead => mkState w (AtWrite (timestamp w)) (callback s)
  | AtWrite seen =>
      mkState (if seen =? 0 then w
               else set_timestamp (Int64.wrap64 (seen + fd)) w)
              AtArm (callback s)
  | AtArm => mkState (Main.arm_timer w) AtWait (callback s)
  | MainReturned _ | MainAborted _ => s
  end.

(** The camera's thread enters [request_complete]: up to the [memcpy] and
    the move of the cursor.  The thread runs one callback at a time. *)
Definition completed (r : nat) (st : req_status) (s : state) : state :=
  match callback s with
  | Idle =>
      let w := data s in
      match nth_error (requests_ (cam w)) r with
      | None => mkState w (main s) Faulted
      | Some req0 =>
          let req := mkRequest (cookie req0) (buffer req0) st in
          let wm := set_cam (Camera.set_requests
                               (Camera.update_nth r req (requests_ (cam w)))
                               (cam w)) w in
          match st with
          | RequestCancelled => mkState wm (main s) Idle
          | _ =>
              match nth_error (mmap_buffers_ (cam wm)) (Z.to_nat (cookie req)) with
              | None => mkState wm (main s) Faulted
              | Some frame =>
                  mkState (Wf.frame_copied req frame wm) (main s)
                    (Enqueueing r req
                       (pool_base (cam wm)
                        + frame_bytes_ (cam wm) * frame_bytes_offset_ (cam wm)))
              end
          end
      end
  | _ => s
  end.

(** The callback up to its next point: one attempt to enqueue, the post,
    the reuse. *)
Definition callback_step (s : state) : state :=
  let w := data s in
  match callback s with
  | Enqueueing r req p =>
      let res := Queue.enqueue p (frame_queue w) in
      mkState (emit (EnqueueTry p (fst res)) (set_queue (snd res) w)) (main s)
              (if fst res then Posting r req else Enqueueing r req p)
  | Posting r req => mkState (sem_post w) (main s) (Reusing r req)
  | Reusing r req =>
      let c := Camera.set_requests
                 (Camera.update_nth r (Camera.reuse req) (requests_ (cam w)))
                 (cam w) in
      mkState (emit (Reuse (cookie req)) (set_cam c w)) (main s) Idle
  | Idle | Faulted => s
  end.

(** Nothing happens any more once [main] has returned or the process was
    aborted. *)
Definition step (fd : Z) (s : state) (e : event) : state :=
  if alive s then
    match e with
    | SignalIo pending =>
        mkState (Main.io_signal_handler Main.SIGIO pending (data s))
                (main s) (callback s)
    | SignalTimer drv_ret =>
        match Main.capture_signal_handler Main.SIGUSR1 drv_ret (data s) with
        | (Returned, w') => mkState w' (main s) (callback s)
        | (Threw what, w') => mkState w' (MainAborted what) (callback s)
        end
    | SignalExit signo =>
        mkState (Main.exit_signal_handler signo (data s)) (main s) (callback s)
    | MainStep env => main_step fd env s
    | Completed r st => completed r st s
    | CallbackStep => callback_step s
    end
  else s.

Definition run (fd : Z) (evs : list event) (s : state) : state :=
  fold_left (step fd) evs s.

(** The node with the main loop in [sem_wait] and no callback under way. *)
Definition waiting (w : world) : state := mkState w AtWait Idle.

(** The frame the main thread has taken out and not yet encoded. *)
Definition in_hand (s : state) : list Z :=
  match main s with AtEncode frame => [frame] | _ => [] end.

(** The pointer the callback has copied a frame to and not yet enqueued. *)
Definition in_flight (s : state) : list Z :=
  match callback s with Enqueueing _ _ p => [p] | _ => [] end.

(** By how much the semaphore is behind the queue: one for a main thread
    between [sem_wait] and [dequeue], one for a callback between [enqueue]
    and [sem_post]. *)
Definition behind (s : state) : Z :=
  (match main s with AtDequeue => 1 | _ => 0 end)
  + (match callback s with Posting _ _ => 1 | _ => 0 end).

(** The callback under way is one for a request of the handler, and the
    pointer it is about to enqueue is not null. *)
Definition callback_ok (s : state) : Prop :=
  match callback s with
  | Enqueueing r req p =>
      nth_error (requests_ (cam (data s))) r = Some req /\ p <> 0
  | Posting r req | Reusing r req =>
      nth_error (requests_ (cam (data s))) r = Some req
  | Idle | Faulted => True
  end.

Definition well_formed (s : state) : Prop :=
  Wf.layout_ok (cam (data s)) /\ callback_ok s.

(** The semaphore covers the frames in the queue, up to [behind]. *)
Definition pending_ok (s : state) : Prop :=
  0 <= loop_ctl_sem (data s) /\
  Z.of_nat (length (Queue.items (frame_queue (data s))))
    <= loop_ctl_sem (data s) + behind s /\
  Z.of_nat (length (Queue.items (frame_queue (data s))))
    <= Queue.capacity (frame_queue (data s)).

(** What was enqueued is what was encoded, then the frame in hand, then
    what waits; and no null pointer was enqueued. *)
Definition in_order (s : state) : Prop :=
  Wf.enqueued (trace (data s))
    = Main.encoded (trace (data s)) ++ in_hand s
        ++ Queue.items (frame_queue (data s)) /\
  Forall (fun p => p <> 0) (Wf.enqueued (trace (data s))).

(** The queue, followed by the pointer about to be enqueued, holds the
    addresses of the slots written last, oldest first. *)
Definition fresh (s : state) : Prop :=
  Queue.items (frame_queue (data s)) ++ in_flight s
    = map (Pool.slot_ptr (cam (data s)))
          (Pool.window (cam (data s))
             (length (Queue.items (frame_queue (data s)) ++ in_flight s))).

(** The world of [Main.step] that a state stands for. *)
Definition coarse (s : state) : world :=
  set_status (match main s with
              | MainReturned code => Exited code
              | MainAborted what => Aborted what
              | _ => Blocked
              end) (data s).

(** The steps that make up an event of [Main.step], which is taken while
    the main loop waits: a handler is one step; a completion is the entry
    of the callback and its three statements; a round of the loop is its
    six statements, seven when there is a frame to encode. *)
Definition steps_of (e : Main.event) (w : world) : list event :=
  match e with
  | Main.IoHandler pending => [SignalIo pending]
  | Main.CaptureHandler drv_ret => [SignalTimer drv_ret]
  | Main.ExitHandler signo => [SignalExit signo]
  | Main.RequestCompleted r st _ =>
      [Completed r st; CallbackStep; CallbackStep; CallbackStep]
  | Main.Wake env =>
      if 0 <? loop_ctl_sem w
      then repeat (MainStep env)
                  (if fst (Queue.dequeue (frame_queue w)) =? 0 then 6 else 7)
      else []
  end.

(** A completion that [Main.step] can take as one step: the main loop
    takes nothing out during it, and it comes to its end. *)
Definition atomic (e : Main.event) (w : world) : bool :=
  match e with
  | Main.RequestCompleted r st sched =>
      forallb (Nat.eqb 0) sched
      && match Camera.driver_complete r st sched w with
         | Camera.Completed _ => true
         | _ => false
         end
  | _ => true
  end.

Fixpoint atomic_run (fd : Z) (evs : list Main.event) (w : world) : bool :=
  match evs with
  | [] => true
  | e :: rest =>
      match status w with
      | Blocked => atomic e w && atomic_run fd rest (Main.step fd w e)
      | _ => true
      end
  end.

Fixpoint steps_of_run (fd : Z) (evs : list Main.event) (w : world) : list event :=
  match evs with
  | [] => []
  | e :: rest =>
      match status w with
      | Blocked => steps_of e w ++ steps_of_run fd rest (Main.step fd w e)
      | _ => []
      end
  end.

(** A signal for a datagram of eight bytes or more. *)
Definition is_start (e : event) : bool :=
  match e with
  | SignalIo pending => Main.is_start (Main.IoHandler pending)
  | _ => false
  end.

(** The base timestamp is zero, and so is what the main thread has read of
    it if it is inside line 95. *)
Definition stopped (s : state) : Prop :=
  timestamp (data s) = 0 /\
  match main s with AtWrite seen => seen = 0 | _ => True end.

Definition is_io (e : event) : bool :=
  match e with
  | SignalIo _ => true
  | _ => false
  end.


(** The node of [Sample.idle] on its first round after the start
    datagram, its main thread about to execute line 95. *)
Definition started : state :=
  run 33333333
    [ SignalIo (Some Sample.start_dgram); MainStep Sample.env;
      MainStep Sample.env; MainStep Sample.env ]
    (waiting Sample.idle).

End Fine.

(* ================================================================== *)
(** * Properties *)

(** ** Records and traces *)

Lemma trace_emit (e : effect) (w : world) : trace (emit e w) = trace w ++ [e].
Proof. reflexivity. Qed.

Lemma drv_calls_app (a b : list effect) :
  Camera.drv_calls (a ++ b) = Camera.drv_calls a ++ Camera.drv_calls b.
Proof.
  induction a as [|e a IH]; simpl; [reflexivity|].
  destruct e; simpl; rewrite ?IH; reflexivity.
Qed.

Lemma timer_arms_app (a b : list effect) :
  Main.timer_arms (a ++ b) = Main.timer_arms a ++ Main.timer_arms b.
Proof.
  induction a as [|e a IH]; simpl; [reflexivity|].
  destruct e; simpl; rewrite ?IH; reflexivity.
Qed.

Lemma encoded_app (a b : list effect) :
  Main.encoded (a ++ b) = Main.encoded a ++ Main.encoded b.
Proof.
  induction a as [|e a IH]; simpl; [reflexivity|].
  destruct e; simpl; rewrite ?IH; reflexivity.
Qed.

Lemma posts_app (a b : list effect) :
  Main.posts (a ++ b) = (Main.posts a + Main.posts b)%nat.
Proof.
  induction a as [|e a IH]; simpl; [reflexivity|].
  destruct e; simpl; rewrite ?IH; reflexivity.
Qed.

(** ** The queue *)

Lemma drain_drain (a b : nat) (q : Queue.lock_free_queue_t) :
  Queue.drain b (Queue.drain a q) = Queue.drain (a + b) q.
Proof.
  revert q; induction a as [|a IH]; intro q; simpl; [reflexivity|apply IH].
Qed.

Lemma drain_capacity (n : nat) (q : Queue.lock_free_queue_t) :
  Queue.capacity (Queue.drain n q) = Queue.capacity q.
Proof.
  revert q; induction n as [|n IH]; intro q; simpl; [reflexivity|].
  rewrite IH. unfold Queue.dequeue. destruct (Queue.items q); reflexivity.
Qed.

(** ** The retry loop of the completion callback *)

Lemma enqueue_retry_room (sched : list nat) (p : Z) (w : world) :
  Camera.eventually_room sched (frame_queue w) = true ->
  exists (k n : nat),
    Queue.is_full (Queue.drain n (frame_queue w)) = false /\
    Camera.enqueue_retry sched p w =
      Some (mkWorld (running w) (timestamp w) (loop_ctl_sem w)
              (Queue.mkQueue (Queue.capacity (frame_queue w))
                 (Queue.items (Queue.drain n (frame_queue w)) ++ [p]))
              (cam w) (udpfd w) (status w)
              (trace w ++ repeat (EnqueueTry p false) k ++ [EnqueueTry p true])).
Proof.
  revert w. induction sched as [|d rest IH]; intros w H; simpl in H; [discriminate|].
  simpl. unfold Queue.enqueue.
  destruct (Queue.is_full (Queue.drain d (frame_queue w))) eqn:F.
  - specialize (IH (emit (EnqueueTry p false)
                      (set_queue (Queue.drain d (frame_queue w)) w)) H).
    destruct IH as (k & n & Hn & E). simpl in Hn, E.
    exists (S k), (d + n)%nat. rewrite <- drain_drain. split; [exact Hn|].
    rewrite E. rewrite drain_capacity. simpl. rewrite <- app_assoc. reflexivity.
  - exists O, d. split; [exact F|]. simpl. rewrite drain_capacity. reflexivity.
Qed.

Lemma enqueue_retry_stalled (sched : list nat) (p : Z) (w : world) :
  Camera.eventually_room sched (frame_queue w) = false ->
  Camera.enqueue_retry sched p w = None.
Proof.
  revert w. induction sched as [|d rest IH]; intros w H; simpl in *; [reflexivity|].
  unfold Queue.enqueue.
  destruct (Queue.is_full (Queue.drain d (frame_queue w))) eqn:F; [|discriminate].
  apply IH. exact H.
Qed.

(** ** The completion callback *)

Lemma request_complete_spec (r : nat) (sched : list nat) (w : world)
    (req : request) (data : list byte) :
  nth_error (requests_ (cam w)) r = Some req ->
  req_state req <> RequestCancelled ->
  nth_error (mmap_buffers_ (cam w)) (Z.to_nat (cookie req)) = Some data ->
  Camera.eventually_room sched (frame_queue w) = true ->
  exists k n : nat,
    Queue.is_full (Queue.drain n (frame_queue w)) = false /\
    Camera.request_complete r sched w
      = Camera.Completed (Camera.after_completion r req data k n w).
Proof.
  intros Hr Hs Hd Hroom.
  unfold Camera.request_complete. rewrite Hr.
  change (cam (log INFO "Request completed" w)) with (cam w).
  rewrite Hd. cbv zeta.
  match goal with
  | |- context [Camera.enqueue_retry sched ?p ?w2] =>
      destruct (enqueue_retry_room sched p w2 Hroom) as (k & n & Hn & E)
  end.
  rewrite E.
  exists k, n. split; [exact Hn|].
  destruct (req_state req); [ | | congruence].
  all: apply f_equal; unfold Camera.after_completion; cbn;
    unfold emit, set_cam, sem_post, set_sem, emit, Camera.set_requests,
      Camera.set_offset, Camera.set_pool; cbn;
    repeat (rewrite <- app_assoc; cbn); reflexivity.
Qed.

Lemma nth_error_update_nth {A} (l : list A) (n : nat) (x y : A) :
  nth_error l n = Some y -> nth_error (Camera.update_nth n x l) n = Some x.
Proof.
  revert n; induction l as [|h t IH]; intros [|n] H; simpl in *;
    try discriminate; [reflexivity | apply IH; exact H].
Qed.

Lemma forallb_update_nth {A} (f : A -> bool) (l : list A) (n : nat) (x : A) :
  forallb f l = true -> f x = true -> forallb f (Camera.update_nth n x l) = true.
Proof.
  revert n; induction l as [|h t IH]; intros n Hl Hx; simpl in *; [destruct n; reflexivity|].
  apply andb_true_iff in Hl as [Hh Ht].
  destruct n; simpl; apply andb_true_iff; split; auto.
Qed.

Lemma length_update_nth {A} (l : list A) (n : nat) (x : A) :
  length (Camera.update_nth n x l) = length l.
Proof.
  revert n; induction l as [|h t IH]; intros [|n]; simpl; auto.
Qed.

Lemma drain_items_length (n : nat) (q : Queue.lock_free_queue_t) :
  (length (Queue.items (Queue.drain n q)) <= length (Queue.items q))%nat.
Proof.
  revert q; induction n as [|n IH]; intro q; simpl; [lia|].
  etransitivity; [apply IH|].
  unfold Queue.dequeue. destruct (Queue.items q) eqn:E; simpl; rewrite ?E; simpl; lia.
Qed.

Lemma valid_cookie_lookup (c : camera_handler_t) (r : nat) (req : request) :
  Camera.valid_cookies c = true ->
  nth_error (requests_ c) r = Some req ->
  exists data, nth_error (mmap_buffers_ c) (Z.to_nat (cookie req)) = Some data.
Proof.
  unfold Camera.valid_cookies. intros V H.
  rewrite forallb_forall in V.
  specialize (V req (nth_error_In _ _ H)).
  apply andb_true_iff in V as [V1 V2].
  apply Z.leb_le in V1. apply Z.ltb_lt in V2.
  destruct (nth_error (mmap_buffers_ c) (Z.to_nat (cookie req))) eqn:E; [eauto|].
  apply nth_error_None in E. lia.
Qed.

(** C4: for a completion that is not cancelled, the callback copies
    [frame_bytes_] bytes from the mapped buffer of the request's cookie into
    the pool slot under the cursor, moves the cursor to the next slot modulo
    [frame_buffers_], retries the enqueue of the slot's address until it
    succeeds, posts the semaphore once after that, and finally re-arms the
    request, which keeps its buffer. *)
Theorem request_complete_publishes_frame
    (r : nat) (sched : list nat) (w : world) (req : request) (data : list byte) :
  nth_error (requests_ (cam w)) r = Some req ->
  req_state req <> RequestCancelled ->
  nth_error (mmap_buffers_ (cam w)) (Z.to_nat (cookie req)) = Some data ->
  Camera.eventually_room sched (frame_queue w) = true ->
  let c := cam w in
  let off := frame_bytes_ c * frame_bytes_offset_ c in
  let p := pool_base c + off in
  exists (k n : nat) (w' : world),
    Camera.request_complete r sched w = Camera.Completed w' /\
    frame_bytes_buffer_ (cam w')
      = firstn (Z.to_nat off) (frame_bytes_buffer_ c)
          ++ firstn (Z.to_nat (frame_bytes_ c)) data
          ++ skipn (Z.to_nat (off + frame_bytes_ c)) (frame_bytes_buffer_ c) /\
    frame_bytes_offset_ (cam w')
      = (frame_bytes_offset_ c + 1) mod frame_buffers_ c /\
    Queue.items (frame_queue w')
      = Queue.items (Queue.drain n (frame_queue w)) ++ [p] /\
    trace w'
      = trace w ++ [Log INFO "Request completed"; Memcpy off (cookie req) (frame_bytes_ c)]
                ++ repeat (EnqueueTry p false) k
                ++ [EnqueueTry p true; SemPost; Reuse (cookie req)] /\
    loop_ctl_sem w' = loop_ctl_sem w + 1 /\
    Main.posts (trace w') = S (Main.posts (trace w)) /\
    nth_error (requests_ (cam w')) r
      = Some (mkRequest (cookie req) (buffer req) RequestPending).
Proof.
  intros Hr Hs Hd Hroom c off p.
  destruct (request_complete_spec r sched w req data Hr Hs Hd Hroom)
    as (k & n & _ & E).
  exists k, n, (Camera.after_completion r req data k n w).
  split; [exact E|].
  unfold Camera.after_completion; cbn [cam frame_queue trace loop_ctl_sem
    frame_bytes_buffer_ frame_bytes_offset_ requests_ Queue.items].
  fold c. fold off. fold p.
  repeat split; try reflexivity.
  - rewrite !posts_app. simpl.
    assert (H0 : forall m, Main.posts (repeat (EnqueueTry p false) m) = O)
      by (induction m; simpl; auto).
    rewrite H0. simpl. lia.
  - apply nth_error_update_nth with (y := req). exact Hr.
Qed.

Lemma request_complete_publishes_frame_witness :
  exists w' : world,
    Camera.request_complete 1 [0%nat] Sample.idle = Camera.Completed w' /\
    frame_bytes_buffer_ (cam w') = Sample.plane x22 ++ repeat x00 18 /\
    frame_bytes_offset_ (cam w') = 1 /\
    loop_ctl_sem w' = 1 /\
    Main.posts (trace w') = 1%nat /\
    nth_error (requests_ (cam w')) 1 = Some (mkRequest 1 (Some 1) RequestPending).
Proof.
  destruct (request_complete_publishes_frame 1 [0%nat] Sample.idle
              (mkRequest 1 (Some 1) RequestPending) (Sample.plane x22))
    as (k & n & w' & H1 & H2 & H3 & _ & _ & H6 & H7 & H8);
    try reflexivity; try discriminate.
  exists w'. repeat split; assumption.
Defined.

(** ** Back-pressure in [queue_request] *)

Lemma paused_producer_S (n : nat) (w : world) :
  Camera.paused_producer (S n) w =
    match Camera.queue_request 0 w with
    | (Threw what, w') => Threw what :: Camera.paused_producer n w'
    | (Returned, w') =>
        Returned ::
          match Camera.driver_complete (Z.to_nat (next_req_idx_ (cam w)))
                  RequestComplete [0%nat] w' with
          | Camera.Completed w'' => Camera.paused_producer n w''
          | Camera.NeverReturns w'' => Camera.paused_producer n w''
          | Camera.OutOfBounds => []
          end
    end.
Proof. reflexivity. Qed.

Lemma queue_request_overrun (drv_ret : Z) (w : world) :
  frame_buffers_ (cam w) - 2 < loop_ctl_sem w ->
  Camera.queue_request drv_ret w
    = (Threw Camera.err_overrun, log ERROR Camera.err_overrun w).
Proof.
  intro H. unfold Camera.queue_request.
  destruct (loop_ctl_sem w >? frame_buffers_ (cam w) - 2) eqn:G; [reflexivity|].
  rewrite Z.gtb_ltb in G. apply Z.ltb_ge in G. lia.
Qed.

Lemma queue_request_accepted (drv_ret : Z) (w : world) :
  loop_ctl_sem w <= frame_buffers_ (cam w) - 2 ->
  0 <= drv_ret ->
  Camera.queue_request drv_ret w
    = (Returned,
       mkWorld (running w) (timestamp w) (loop_ctl_sem w) (frame_queue w)
         (Camera.set_next_req_idx
            ((next_req_idx_ (cam w) + 1) mod Z.of_nat (length (requests_ (cam w))))
            (cam w))
         (udpfd w) (status w)
         (trace w ++ [DrvQueueRequest (next_req_idx_ (cam w)) drv_ret])).
Proof.
  intros H D. unfold Camera.queue_request.
  destruct (loop_ctl_sem w >? frame_buffers_ (cam w) - 2) eqn:G.
  - rewrite Z.gtb_ltb in G. apply Z.ltb_lt in G. lia.
  - destruct (drv_ret <? 0) eqn:L; [apply Z.ltb_lt in L; lia|]. reflexivity.
Qed.

Lemma queue_request_refused (drv_ret : Z) (w : world) :
  loop_ctl_sem w <= frame_buffers_ (cam w) - 2 ->
  drv_ret < 0 ->
  Camera.queue_request drv_ret w
    = (Threw Camera.err_queue,
       log ERROR Camera.err_queue
         (emit (DrvQueueRequest (next_req_idx_ (cam w)) drv_ret) w)).
Proof.
  intros H D. unfold Camera.queue_request.
  destruct (loop_ctl_sem w >? frame_buffers_ (cam w) - 2) eqn:G.
  - rewrite Z.gtb_ltb in G. apply Z.ltb_lt in G. lia.
  - destruct (drv_ret <? 0) eqn:L; [reflexivity|apply Z.ltb_ge in L; lia].
Qed.

Lemma paused_producer_fills (k : nat) : forall w : world,
  Camera.valid_cookies (cam w) = true ->
  0 <= next_req_idx_ (cam w) < Z.of_nat (length (requests_ (cam w))) ->
  loop_ctl_sem w + Z.of_nat k = frame_buffers_ (cam w) - 1 ->
  Z.of_nat (length (Queue.items (frame_queue w))) + Z.of_nat k
    <= Queue.capacity (frame_queue w) ->
  Camera.paused_producer (S k) w = repeat Returned k ++ [Threw Camera.err_overrun].
Proof.
  induction k as [|k IH]; intros w V Hi Hs Hc.
  - rewrite paused_producer_S, queue_request_overrun by lia. reflexivity.
  - rewrite paused_producer_S, queue_request_accepted by lia.
    set (r := Z.to_nat (next_req_idx_ (cam w))).
    destruct (nth_error (requests_ (cam w)) r) as [req|] eqn:Hr;
      [|apply nth_error_None in Hr; lia].
    destruct (valid_cookie_lookup _ _ _ V Hr) as (data & Hd).
    unfold Camera.driver_complete.
    cbn [cam requests_ Camera.set_next_req_idx]. rewrite Hr.
    set (marked := mkRequest (cookie req) (buffer req) RequestComplete).
    match goal with
    | |- context [Camera.request_complete r _ ?wm] =>
        destruct (request_complete_spec r [0%nat] wm marked data) as (k' & n' & _ & E)
    end.
    + cbn. apply nth_error_update_nth with (y := req). exact Hr.
    + discriminate.
    + cbn. exact Hd.
    + cbn. unfold Queue.is_full.
      destruct (Queue.capacity (frame_queue w)
                  <=? Z.of_nat (length (Queue.items (frame_queue w)))) eqn:F;
        [apply Z.leb_le in F; lia | reflexivity].
    + rewrite E. simpl repeat. rewrite <- app_comm_cons. f_equal.
      apply IH; unfold Camera.after_completion; cbn.
      * unfold Camera.valid_cookies in *. cbn.
        rewrite forallb_forall in V. pose proof (V req (nth_error_In _ _ Hr)) as Vr.
        apply forallb_update_nth; [apply forallb_update_nth|]; cbn; auto.
        apply forallb_forall. exact V.
      * rewrite !length_update_nth. apply Z.mod_pos_bound. lia.
      * lia.
      * rewrite length_app. cbn [length].
        pose proof (drain_items_length n' (frame_queue w)). lia.
Qed.

(** C3, as the code has it: [queue_request] hands a request to the driver
    exactly when the semaphore reads at most [frame_buffers_ - 2]; on
    overrun it throws, nothing is handed over and [next_req_idx_] keeps its
    value; when it returns, [next_req_idx_] has advanced by one modulo the
    number of requests.  So, against a stalled consumer and starting from
    a semaphore at zero and an empty queue that can take
    [frame_buffers_ - 1] pointers, call number [frame_buffers_ - 1] returns
    and call number [frame_buffers_] throws the overrun error. *)
Theorem queue_request_overrun_gate (drv_ret : Z) (w : world) :
  let N := frame_buffers_ (cam w) in
  let M := Z.of_nat (length (requests_ (cam w))) in
  let res := Camera.queue_request drv_ret w in
  (loop_ctl_sem w <= N - 2 <->
     Camera.drv_calls (trace (snd res))
       = Camera.drv_calls (trace w) ++ [(next_req_idx_ (cam w), drv_ret)]) /\
  (N - 2 < loop_ctl_sem w ->
     fst res = Threw Camera.err_overrun /\
     Camera.drv_calls (trace (snd res)) = Camera.drv_calls (trace w) /\
     next_req_idx_ (cam (snd res)) = next_req_idx_ (cam w)) /\
  (fst res = Returned <-> loop_ctl_sem w <= N - 2 /\ 0 <= drv_ret) /\
  (fst res = Returned ->
     next_req_idx_ (cam (snd res)) = (next_req_idx_ (cam w) + 1) mod M) /\
  (2 <= N ->
   N - 1 <= Queue.capacity (frame_queue w) ->
   loop_ctl_sem w = 0 ->
   Queue.items (frame_queue w) = [] ->
   Camera.valid_cookies (cam w) = true ->
   0 <= next_req_idx_ (cam w) < M ->
   Camera.paused_producer (Z.to_nat N) w
     = repeat Returned (Z.to_nat (N - 1)) ++ [Threw Camera.err_overrun]).
Proof.
  intros N M res.
  assert (Hover : N - 2 < loop_ctl_sem w ->
            res = (Threw Camera.err_overrun, log ERROR Camera.err_overrun w))
    by (intro H; apply queue_request_overrun; exact H).
  assert (Hsub : loop_ctl_sem w <= N - 2 ->
            Camera.drv_calls (trace (snd res))
              = Camera.drv_calls (trace w) ++ [(next_req_idx_ (cam w), drv_ret)]).
  { intro H. subst res. destruct (Z.lt_ge_cases drv_ret 0) as [D|D].
    - rewrite queue_request_refused by assumption. cbn.
      rewrite <- app_assoc, drv_calls_app. reflexivity.
    - rewrite queue_request_accepted by assumption. cbn.
      rewrite drv_calls_app. reflexivity. }
  repeat split.
  - exact Hsub.
  - intro H. destruct (Z.le_gt_cases (loop_ctl_sem w) (N - 2)) as [L|G]; [exact L|].
    rewrite (Hover G) in H. cbn in H. rewrite drv_calls_app in H. cbn in H.
    rewrite app_nil_r in H. apply (f_equal (@length _)) in H.
    rewrite length_app in H. cbn in H. lia.
  - rewrite (Hover H). reflexivity.
  - rewrite (Hover H). cbn. rewrite drv_calls_app. cbn. apply app_nil_r.
  - rewrite (Hover H). reflexivity.
  - destruct (Z.le_gt_cases (loop_ctl_sem w) (N - 2)) as [L|G]; [exact L|].
    rewrite (Hover G) in H. discriminate.
  - destruct (Z.le_gt_cases (loop_ctl_sem w) (N - 2)) as [L|G].
    + destruct (Z.lt_ge_cases drv_ret 0) as [D|D]; [|exact D].
      subst res. rewrite queue_request_refused in H by assumption. discriminate.
    + rewrite (Hover G) in H. discriminate.
  - intros [L D]. subst res. rewrite queue_request_accepted by assumption. reflexivity.
  - intro H. destruct (Z.le_gt_cases (loop_ctl_sem w) (N - 2)) as [L|G].
    + destruct (Z.lt_ge_cases drv_ret 0) as [D|D].
      * subst res. rewrite queue_request_refused in H by assumption. discriminate.
      * subst res. rewrite queue_request_accepted by assumption. reflexivity.
    + rewrite (Hover G) in H. discriminate.
  - intros HN HQ Hsem Hitems V Hidx.
    replace (Z.to_nat N) with (S (Z.to_nat (N - 1))) by lia.
    apply paused_producer_fills; try assumption.
    + fold N. lia.
    + rewrite Hitems. cbn [length]. lia.
Qed.

Lemma queue_request_overrun_gate_witness :
  Camera.paused_producer 4 Sample.idle
    = [Returned; Returned; Returned; Threw Camera.err_overrun]
  /\ fst (Camera.queue_request 0 Sample.idle) = Returned
  /\ next_req_idx_ (cam (snd (Camera.queue_request 0 Sample.idle))) = 1.
Proof.
  destruct (queue_request_overrun_gate 0 Sample.idle)
    as (_ & _ & H3 & H4 & H5).
  assert (R : fst (Camera.queue_request 0 Sample.idle) = Returned)
    by (apply H3; vm_compute; intuition congruence).
  split; [|split].
  - apply H5; try reflexivity; vm_compute; intuition congruence.
  - exact R.
  - apply H4. exact R.
Defined.

(** C3 as stated fails: for five pool slots and two DMA buffers, which the
    data model admits, [main] creates a queue for two pointers.  Against a
    stalled consumer the third completion finds the queue full and stays in
    its retry loop before it posts, the semaphore stays at 2, and the fifth
    call of [queue_request] returns like the four before it. *)
Lemma paused_producer_small_queue_never_overruns :
  Main.config_ok Sample.cfg_narrow /\
  frame_buffers_ (cam Sample.idle_narrow) = 5 /\
  Queue.capacity (frame_queue Sample.idle_narrow) = 2 /\
  Camera.paused_producer 5 Sample.idle_narrow
    = [Returned; Returned; Returned; Returned; Returned] /\
  nth_error (Camera.paused_producer 5 Sample.idle_narrow) 4
    <> Some (Threw Camera.err_overrun).
Proof.
  split; [unfold Main.config_ok; cbn; lia|].
  repeat split; vm_compute; first [reflexivity | discriminate].
Qed.

(** ** The async-I/O handler *)

Lemma byte_val_inj (a b : byte) : Main.byte_val a = Main.byte_val b -> a = b.
Proof.
  unfold Main.byte_val. intro H. apply N2Z.inj in H.
  pose proof (Byte.of_to_N a) as Ha. rewrite H, Byte.of_to_N in Ha. congruence.
Qed.

Lemma strncmp_step (c : byte) (s1 s2 : list byte) (k : byte) (n : nat) :
  Main.byte_val k <> 0 ->
  Main.strncmp (c :: s1) (k :: s2) (S n) = 0 ->
  c = k /\ Main.strncmp s1 s2 n = 0.
Proof.
  intros Hk H. cbn [Main.strncmp hd tl] in H.
  destruct (Main.byte_val c =? Main.byte_val k) eqn:E; cbn [negb] in H.
  - apply Z.eqb_eq in E. split; [apply byte_val_inj; exact E|].
    destruct (Main.byte_val c =? 0) eqn:Z0; [apply Z.eqb_eq in Z0; congruence | exact H].
  - apply Z.eqb_neq in E. lia.
Qed.

Lemma strncmp_stop (d : list byte) :
  length d = 4%nat ->
  Main.strncmp d Main.STOP 4 = 0 ->
  d = Sample.stop_dgram.
Proof.
  destruct d as [|b1 [|b2 [|b3 [|b4 [|b5 d]]]]]; try discriminate. intros _ H.
  unfold Main.STOP in H.
  apply strncmp_step in H; [|discriminate]. destruct H as [-> H].
  apply strncmp_step in H; [|discriminate]. destruct H as [-> H].
  apply strncmp_step in H; [|discriminate]. destruct H as [-> H].
  apply strncmp_step in H; [|discriminate]. destruct H as [-> H].
  reflexivity.
Qed.

Lemma io_handler_stop (w : world) :
  Main.io_signal_handler Main.SIGIO (Some Sample.stop_dgram) w
    = set_timestamp 0 (log INFO Main.msg_stop w).
Proof. reflexivity. Qed.

Lemma io_handler_nothing_pending (w : world) :
  Main.io_signal_handler Main.SIGIO None w = log DEBUG Main.msg_unexpected w.
Proof. reflexivity. Qed.

Lemma recvfrom_length (d : list byte) :
  Main.recvfrom (Some d) 8 = (Z.min (Z.of_nat (length d)) 8, firstn 8 d).
Proof. reflexivity. Qed.

Lemma io_handler_other_size (d : list byte) (w : world) :
  (length d < 8)%nat -> length d <> 4%nat ->
  Main.io_signal_handler Main.SIGIO (Some d) w = log DEBUG Main.msg_unexpected w.
Proof.
  intros H8 H4. unfold Main.io_signal_handler. rewrite recvfrom_length.
  change (negb (Main.SIGIO =? Main.SIGIO)) with false. cbv iota.
  replace (Z.min (Z.of_nat (length d)) 8) with (Z.of_nat (length d)) by lia.
  destruct (Z.of_nat (length d) =? 4) eqn:E4; [apply Z.eqb_eq in E4; lia|].
  destruct (Z.of_nat (length d) =? 8) eqn:E8; [apply Z.eqb_eq in E8; lia|].
  reflexivity.
Qed.

Lemma io_handler_eight (d : list byte) (w : world) :
  (8 <= length d)%nat ->
  Main.io_signal_handler Main.SIGIO (Some d) w
    = sem_post (log INFO Main.msg_timestamp
                  (set_timestamp (Int64.of_le_bytes (firstn 8 d)) w)).
Proof.
  intro H. unfold Main.io_signal_handler. rewrite recvfrom_length.
  change (negb (Main.SIGIO =? Main.SIGIO)) with false. cbv iota.
  replace (Z.min (Z.of_nat (length d)) 8) with 8 by lia.
  reflexivity.
Qed.

Lemma io_handler_four (d : list byte) (w : world) :
  length d = 4%nat -> d <> Sample.stop_dgram ->
  Main.io_signal_handler Main.SIGIO (Some d) w = log DEBUG Main.msg_unexpected w.
Proof.
  intros H4 Hne. unfold Main.io_signal_handler. rewrite recvfrom_length.
  change (negb (Main.SIGIO =? Main.SIGIO)) with false. cbv iota.
  rewrite H4. change (Z.min (Z.of_nat 4) 8) with 4. change (4 =? 4) with true.
  change (4 =? 8) with false. cbn [andb].
  rewrite firstn_all2 by lia.
  destruct (Main.strncmp d Main.STOP 4 =? 0) eqn:E; [|reflexivity].
  apply Z.eqb_eq in E. apply strncmp_stop in E; [contradiction | exact H4].
Qed.

(** C10: a datagram of four bytes that is not ["STOP"] changes nothing: the
    base timestamp and the semaphore keep their values, nothing is posted,
    and the one effect is the debug line about an unexpected message
    size. *)
Theorem io_handler_ignores_four_bytes_not_stop (d : list byte) (w : world) :
  length d = 4%nat ->
  d <> [x53; x54; x4f; x50] ->
  let w' := Main.io_signal_handler Main.SIGIO (Some d) w in
  w' = log DEBUG Main.msg_unexpected w /\
  timestamp w' = timestamp w /\
  loop_ctl_sem w' = loop_ctl_sem w /\
  trace w' = trace w ++ [Log DEBUG "Received unexpected message size"] /\
  Main.posts (trace w') = Main.posts (trace w).
Proof.
  intros H4 Hne w'. subst w'. rewrite (io_handler_four d w H4 Hne).
  cbn. rewrite posts_app. cbn. repeat split; lia.
Qed.

Lemma io_handler_ignores_four_bytes_not_stop_witness :
  timestamp (Main.io_signal_handler Main.SIGIO (Some [x53; x54; x4f; x00]) Sample.backlog)
    = 1000000000033333333
  /\ loop_ctl_sem (Main.io_signal_handler Main.SIGIO (Some [x53; x54; x4f; x00]) Sample.backlog)
    = 3.
Proof.
  destruct (io_handler_ignores_four_bytes_not_stop [x53; x54; x4f; x00] Sample.backlog)
    as (_ & Ht & Hs & _); [reflexivity | discriminate |].
  split; [exact Ht | exact Hs].
Defined.

(** C7 at a datagram of more than eight bytes: [recvfrom] stores its first
    eight bytes and answers 8, so the handler takes them for a base
    timestamp and posts the semaphore. *)
Theorem io_handler_accepts_truncated_datagram (d : list byte) (w : world) :
  (8 < length d)%nat ->
  let w' := Main.io_signal_handler Main.SIGIO (Some d) w in
  timestamp w' = Int64.of_le_bytes (firstn 8 d) /\
  loop_ctl_sem w' = loop_ctl_sem w + 1 /\
  trace w' = trace w ++ [Log INFO "Received timestamp"; SemPost].
Proof.
  intros H w'. subst w'. rewrite io_handler_eight by lia.
  cbn. rewrite <- app_assoc. repeat split.
Qed.

Lemma io_handler_accepts_truncated_datagram_witness :
  length Sample.long_dgram = 9%nat /\
  timestamp Sample.idle = 0 /\
  timestamp (Main.io_signal_handler Main.SIGIO (Some Sample.long_dgram) Sample.idle)
    = 1000000000000000000 /\
  loop_ctl_sem (Main.io_signal_handler Main.SIGIO (Some Sample.long_dgram) Sample.idle)
    = loop_ctl_sem Sample.idle + 1.
Proof.
  destruct (io_handler_accepts_truncated_datagram Sample.long_dgram Sample.idle)
    as (Ht & Hs & _); [cbn; lia|].
  split; [reflexivity|]. split; [reflexivity|].
  split; [rewrite Ht; reflexivity | exact Hs].
Defined.

(** ** Steps that do not touch the timer *)

Lemma rounds_app (a b : list effect) :
  Main.rounds (a ++ b) = (Main.rounds a + Main.rounds b)%nat.
Proof.
  induction a as [|e a IH]; simpl; [reflexivity|].
  destruct e; simpl; rewrite ?IH; reflexivity.
Qed.

Ltac quiet_by_trace :=
  split; [|split]; cbn;
  [ reflexivity
  | first [ reflexivity
          | rewrite <- ?app_assoc, timer_arms_app; cbn; apply app_nil_r ]
  | first [ reflexivity
          | rewrite <- ?app_assoc, rounds_app; cbn; lia ] ].

Ltac still_by_trace :=
  split; cbn;
  [ reflexivity
  | first [ reflexivity
          | rewrite <- ?app_assoc, timer_arms_app; cbn; apply app_nil_r ] ].

Lemma quiet_refl (w : world) : Main.quiet w w.
Proof. split; [|split]; reflexivity. Qed.

Lemma quiet_trans (a b c : world) : Main.quiet a b -> Main.quiet b c -> Main.quiet a c.
Proof. intros (H1 & H2 & H3) (H4 & H5 & H6). split; [|split]; congruence. Qed.

Lemma quiet_still (a b : world) : Main.quiet a b -> Main.still a b.
Proof. intros (H1 & H2 & _). split; assumption. Qed.

Lemma still_refl (w : world) : Main.still w w.
Proof. split; reflexivity. Qed.

Lemma still_trans (a b c : world) : Main.still a b -> Main.still b c -> Main.still a c.
Proof. intros [H1 H2] [H3 H4]. split; congruence. Qed.

Lemma enqueue_retry_quiet (sched : list nat) (p : Z) : forall w w',
  Camera.enqueue_retry sched p w = Some w' -> Main.quiet w w'.
Proof.
  induction sched as [|d rest IH]; intros w w' H; cbn in H; [discriminate|].
  destruct (Queue.enqueue p (Queue.drain d (frame_queue w))) as [ok q'].
  destruct ok.
  - injection H as <-. quiet_by_trace.
  - apply IH in H. refine (quiet_trans _ _ _ _ H). quiet_by_trace.
Qed.

Lemma request_complete_quiet (r : nat) (sched : list nat) (w : world) :
  match Camera.request_complete r sched w with
  | Camera.Completed w' | Camera.NeverReturns w' => Main.quiet w w'
  | Camera.OutOfBounds => True
  end.
Proof.
  unfold Camera.request_complete.
  destruct (nth_error (requests_ (cam w)) r) as [req|]; [|exact I].
  destruct (req_state req); try apply quiet_refl; cbv zeta;
    (destruct (nth_error (mmap_buffers_ (cam (log INFO "Request completed" w)))
                 (Z.to_nat (cookie req))) as [data|]; [|exact I]);
    match goal with
    | |- context [Camera.enqueue_retry sched ?p ?w2] =>
        assert (Q2 : Main.quiet w w2) by quiet_by_trace;
        destruct (Camera.enqueue_retry sched p w2) as [w3|] eqn:E
    end;
    try exact Q2;
    apply enqueue_retry_quiet in E;
    apply (quiet_trans _ _ _ Q2); apply (quiet_trans _ _ _ E);
    quiet_by_trace.
Qed.

Lemma driver_complete_quiet (r : nat) (st : req_status) (sched : list nat) (w : world) :
  match Camera.driver_complete r st sched w with
  | Camera.Completed w' | Camera.NeverReturns w' => Main.quiet w w'
  | Camera.OutOfBounds => True
  end.
Proof.
  unfold Camera.driver_complete.
  destruct (nth_error (requests_ (cam w)) r) as [req|]; [|exact I].
  match goal with
  | |- context [Camera.request_complete r sched ?wm] =>
      pose proof (request_complete_quiet r sched wm) as H;
      destruct (Camera.request_complete r sched wm); try exact I;
      exact H
  end.
Qed.

Lemma queue_request_quiet (drv_ret : Z) (w : world) :
  Main.quiet w (snd (Camera.queue_request drv_ret w)).
Proof.
  unfold Camera.queue_request.
  destruct (loop_ctl_sem w >? frame_buffers_ (cam w) - 2); [quiet_by_trace|].
  destruct (drv_ret <? 0); quiet_by_trace.
Qed.

Lemma capture_handler_quiet (signo drv_ret : Z) (w : world) :
  Main.quiet w (snd (Main.capture_signal_handler signo drv_ret w)).
Proof.
  unfold Main.capture_signal_handler.
  destruct (negb (signo =? Main.SIGUSR1) || (running w =? 0)); [apply quiet_refl|].
  pose proof (queue_request_quiet drv_ret w) as Q.
  destruct (Camera.queue_request drv_ret w) as [[|what] w']; cbn [snd] in *;
    [|exact Q].
  apply (quiet_trans _ _ _ Q). quiet_by_trace.
Qed.

Lemma exit_handler_quiet (signo : Z) (w : world) :
  Main.quiet w (Main.exit_signal_handler signo w).
Proof.
  unfold Main.exit_signal_handler.
  destruct (negb (signo =? Main.SIGINT) && negb (signo =? Main.SIGTERM));
    [apply quiet_refl | quiet_by_trace].
Qed.

Lemma set_status_quiet (s : pstatus) (w : world) : Main.quiet w (set_status s w).
Proof. split; [|split]; reflexivity. Qed.

(** Handlers other than the async-I/O handler, and the completion
    callback, leave timestamp and timer alone and are no round of the
    loop. *)
Lemma step_quiet (fd : Z) (w : world) (e : Main.event) :
  match e with
  | Main.IoHandler _ | Main.Wake _ => False
  | _ => True
  end ->
  Main.quiet w (Main.step fd w e).
Proof.
  intro He. unfold Main.step.
  destruct (status w); try apply quiet_refl.
  destruct e as [p|drv|signo|r st sched|env]; try contradiction.
  - pose proof (capture_handler_quiet Main.SIGUSR1 drv w) as Q.
    destruct (Main.capture_signal_handler Main.SIGUSR1 drv w) as [[|what] w'];
      cbn [snd] in Q; [exact Q|].
    apply (quiet_trans _ _ _ Q). apply set_status_quiet.
  - apply exit_handler_quiet.
  - pose proof (driver_complete_quiet r st sched w) as Q.
    destruct (Camera.driver_complete r st sched w); try exact Q.
    apply set_status_quiet.
Qed.

Lemma arm_timer_stopped (w : world) : timestamp w = 0 -> Main.arm_timer w = w.
Proof. intro T0. unfold Main.arm_timer. rewrite T0. reflexivity. Qed.

(** With a zero base timestamp the loop head arms nothing. *)
Lemma loop_head_stopped (fd : Z) (env : Main.udp_env) (w : world) :
  timestamp w = 0 -> Main.quiet w (Main.loop_head fd env w).
Proof.
  intro T0. unfold Main.loop_head.
  assert (Hgo : forall w1, Main.quiet w w1 ->
    Main.quiet w
      (set_status Blocked
         (Main.arm_timer
            (if timestamp w1 =? 0 then w1
             else set_timestamp (Int64.wrap64 (timestamp w1 + fd)) w1)))).
  { intros w1 Q. assert (T1 : timestamp w1 = 0) by (destruct Q as (Q1 & _); congruence).
    rewrite T1. cbn [Z.eqb]. rewrite arm_timer_stopped by exact T1.
    apply (quiet_trans _ _ _ Q). apply set_status_quiet. }
  destruct (running w =? 0); [apply set_status_quiet|].
  destruct (udpfd w <? 0).
  - destruct (Main.bind_ret env <? 0) eqn:B; [quiet_by_trace|].
    destruct (Main.sigio_ret env <? 0) eqn:S; [quiet_by_trace|].
    apply Hgo. quiet_by_trace.
  - apply Hgo. apply quiet_refl.
Qed.

Lemma loop_resume_unfold (fd : Z) (env : Main.udp_env) (w : world) :
  Main.loop_resume fd env w =
    let w1 := emit SemWait (set_sem (loop_ctl_sem w - 1) w) in
    let fq := Queue.dequeue (frame_queue w1) in
    let w2 := emit (Dequeued (fst fq)) (set_queue (snd fq) w1) in
    let w3 := if fst fq =? 0 then w2 else emit (EncodeFrame (fst fq)) w2 in
    Main.loop_head fd env w3.
Proof.
  unfold Main.loop_resume. cbv zeta.
  destruct (Queue.dequeue _) as [frame q']. reflexivity.
Qed.

(** From [sem_wait] to the loop head: one more round, no timer. *)
Lemma loop_resume_prefix (w : world) :
  let w1 := emit SemWait (set_sem (loop_ctl_sem w - 1) w) in
  let fq := Queue.dequeue (frame_queue w1) in
  let w2 := emit (Dequeued (fst fq)) (set_queue (snd fq) w1) in
  let w3 := if fst fq =? 0 then w2 else emit (EncodeFrame (fst fq)) w2 in
  Main.still w w3 /\
  Main.rounds (trace w3) = S (Main.rounds (trace w)) /\
  running w3 = running w /\ udpfd w3 = udpfd w.
Proof.
  cbv zeta.
  destruct (fst _ =? 0);
    (split; [still_by_trace|]; split; [|split; reflexivity]);
    cbn; rewrite <- ?app_assoc, rounds_app; cbn; lia.
Qed.

Lemma loop_resume_stopped (fd : Z) (env : Main.udp_env) (w : world) :
  timestamp w = 0 -> Main.still w (Main.loop_resume fd env w).
Proof.
  intro T0. rewrite loop_resume_unfold.
  destruct (loop_resume_prefix w) as (Q & _). cbv zeta in *.
  apply (still_trans _ _ _ Q). apply quiet_still. apply loop_head_stopped.
  destruct Q as [Q1 _]. rewrite Q1. exact T0.
Qed.

Lemma io_handler_stopped (p : option (list byte)) (w : world) :
  timestamp w = 0 ->
  Main.is_start (Main.IoHandler p) = false ->
  Main.quiet w (Main.io_signal_handler Main.SIGIO p w).
Proof.
  intros T0 Hs. destruct p as [d|].
  - unfold Main.is_start in Hs. apply Nat.leb_gt in Hs.
    destruct (Nat.eq_dec (length d) 4) as [E4|N4].
    + destruct (list_eq_dec Byte.byte_eq_dec d Sample.stop_dgram) as [->|Hne].
      * rewrite io_handler_stop. split; [|split]; cbn.
        -- symmetry; exact T0.
        -- rewrite timer_arms_app. cbn. apply app_nil_r.
        -- rewrite rounds_app. cbn. lia.
      * rewrite io_handler_four by assumption. quiet_by_trace.
    + rewrite io_handler_other_size by assumption. quiet_by_trace.
  - rewrite io_handler_nothing_pending. quiet_by_trace.
Qed.

Lemma step_stopped (fd : Z) (w : world) (e : Main.event) :
  timestamp w = 0 -> Main.is_start e = false -> Main.still w (Main.step fd w e).
Proof.
  intros T0 Hs.
  destruct e as [p|drv|signo|r st sched|env];
    try (apply quiet_still; apply step_quiet; exact I).
  - unfold Main.step. destruct (status w); try apply still_refl.
    apply quiet_still. apply io_handler_stopped; assumption.
  - unfold Main.step. destruct (status w); try apply still_refl.
    destruct (0 <? loop_ctl_sem w); [|apply still_refl].
    apply loop_resume_stopped. exact T0.
Qed.

Lemma run_stopped (fd : Z) (evs : list Main.event) : forall w : world,
  timestamp w = 0 ->
  forallb (fun e => negb (Main.is_start e)) evs = true ->
  Main.still w (Main.run fd evs w).
Proof.
  induction evs as [|e evs IH]; intros w T0 H; cbn in *; [apply still_refl|].
  apply andb_true_iff in H as [He Hr]. apply negb_true_iff in He.
  pose proof (step_stopped fd w e T0 He) as Q.
  apply (still_trans _ _ _ Q). apply IH; [|exact Hr].
  destruct Q as [Q1 _]. rewrite Q1. exact T0.
Qed.

(** ** Rounds of the main loop *)


Lemma arm_timer_armed (w : world) :
  timestamp w <> 0 ->
  timestamp (Main.arm_timer w) = timestamp w /\
  Main.timer_arms (trace (Main.arm_timer w))
    = Main.timer_arms (trace w) ++ [timestamp w].
Proof.
  intro T. unfold Main.arm_timer.
  destruct (timestamp w =? 0) eqn:E; [apply Z.eqb_eq in E; contradiction|].
  split; [reflexivity|]. cbn. rewrite timer_arms_app. cbn. do 2 f_equal.
  pose proof (Z.quot_rem' (timestamp w) ns_per_s). lia.
Qed.

(** [arm_timer] hands the value over with flags 0, that is, without
    TIMER_ABSTIME. *)
Lemma arm_timer_flags (w : world) :
  timestamp w <> 0 ->
  trace (Main.arm_timer w)
    = trace w ++ [TimerSettime 0 (Z.quot (timestamp w) ns_per_s)
                                 (Z.rem (timestamp w) ns_per_s)].
Proof.
  intro T. unfold Main.arm_timer.
  destruct (timestamp w =? 0) eqn:E; [apply Z.eqb_eq in E; contradiction|].
  reflexivity.
Qed.






(** ** Timer cadence *)

Lemma run_not_blocked (fd : Z) (evs : list Main.event) : forall w : world,
  status w <> Blocked -> Main.run fd evs w = w.
Proof.
  induction evs as [|e evs IH]; intros w H; cbn; [reflexivity|].
  assert (E : Main.step fd w e = w)
    by (unfold Main.step; destruct (status w); congruence).
  rewrite E. apply IH. exact H.
Qed.


Lemma of_le_bytes_firstn (d : list byte) :
  Int64.of_le_bytes (firstn 8 d) = Int64.of_le_bytes d.
Proof. unfold Int64.of_le_bytes. rewrite firstn_firstn. reflexivity. Qed.

(** *** Statement by statement *)

Ltac fields :=
  cbn [Fine.data Fine.main Fine.callback running timestamp loop_ctl_sem
       frame_queue cam udpfd trace emit log set_sem set_queue set_cam
       set_timestamp set_udpfd set_running sem_post Queue.items Queue.capacity
       Wf.frame_copied fst snd length] in *.


Lemma run_cons (fd : Z) (e : Fine.event) (evs : list Fine.event) (s : Fine.state) :
  Fine.run fd (e :: evs) s = Fine.run fd evs (Fine.step fd s e).
Proof. reflexivity. Qed.






(** ** STOP *)

Lemma world_eq (a b : world) :
  running a = running b -> timestamp a = timestamp b ->
  loop_ctl_sem a = loop_ctl_sem b -> frame_queue a = frame_queue b ->
  cam a = cam b -> udpfd a = udpfd b -> status a = status b ->
  trace a = trace b -> a = b.
Proof. destruct a, b; cbn; intros; subst; reflexivity. Qed.

Lemma loop_head_idle (fd : Z) (env : Main.udp_env) (w : world) :
  running w <> 0 -> 0 <= udpfd w -> timestamp w = 0 ->
  Main.loop_head fd env w = set_status Blocked w.
Proof.
  intros Hr Hu T0. unfold Main.loop_head.
  destruct (running w =? 0) eqn:R; [apply Z.eqb_eq in R; contradiction|].
  destruct (udpfd w <? 0) eqn:U; [apply Z.ltb_lt in U; lia|].
  rewrite T0. cbn [Z.eqb]. rewrite arm_timer_stopped by exact T0. reflexivity.
Qed.

Lemma loop_resume_frame (fd : Z) (env : Main.udp_env) (w : world) (p : Z) (ps : list Z) :
  Queue.items (frame_queue w) = p :: ps ->
  p <> 0 -> running w <> 0 -> 0 <= udpfd w -> timestamp w = 0 ->
  Main.loop_resume fd env w
    = mkWorld (running w) (timestamp w) (loop_ctl_sem w - 1)
        (Queue.mkQueue (Queue.capacity (frame_queue w)) ps)
        (cam w) (udpfd w) Blocked
        (trace w ++ [SemWait; Dequeued p; EncodeFrame p]).
Proof.
  intros Hq Hp Hr Hu T0. rewrite loop_resume_unfold. cbv zeta.
  change (frame_queue (emit SemWait (set_sem (loop_ctl_sem w - 1) w)))
    with (frame_queue w).
  unfold Queue.dequeue. rewrite Hq. cbn [fst snd].
  destruct (p =? 0) eqn:P; [apply Z.eqb_eq in P; contradiction|].
  rewrite loop_head_idle by assumption.
  apply world_eq; cbn; try reflexivity.
  rewrite <- !app_assoc. reflexivity.
Qed.

Lemma backlog_drains (fd : Z) (envs : list Main.udp_env) : forall w : world,
  status w = Blocked -> running w <> 0 -> 0 <= udpfd w -> timestamp w = 0 ->
  Forall (fun p => p <> 0) (Queue.items (frame_queue w)) ->
  length envs = length (Queue.items (frame_queue w)) ->
  Z.of_nat (length (Queue.items (frame_queue w))) <= loop_ctl_sem w ->
  let w' := Main.run fd (map Main.Wake envs) w in
  Main.encoded (trace w')
    = Main.encoded (trace w) ++ Queue.items (frame_queue w) /\
  Queue.items (frame_queue w') = [] /\
  Main.timer_arms (trace w') = Main.timer_arms (trace w).
Proof.
  induction envs as [|env envs IH]; intros w St Hr Hu T0 Hnz Hlen Hsem w'; subst w'.
  - destruct (Queue.items (frame_queue w)) eqn:Hq; [|discriminate].
    cbn. rewrite app_nil_r. auto.
  - destruct (Queue.items (frame_queue w)) as [|p ps] eqn:Hq; [discriminate|].
    inversion Hnz as [|? ? Hp Hps]; subst.
    cbn [map Main.run fold_left].
    fold (Main.run fd (map Main.Wake envs) (Main.step fd w (Main.Wake env))).
    assert (E : Main.step fd w (Main.Wake env) = Main.loop_resume fd env w).
    { unfold Main.step. rewrite St.
      destruct (0 <? loop_ctl_sem w) eqn:S; [reflexivity|].
      apply Z.ltb_ge in S. cbn [length] in Hsem. lia. }
    rewrite E, (loop_resume_frame fd env w p ps Hq Hp Hr Hu T0).
    match goal with
    | |- context [Main.run fd _ ?w1] =>
        destruct (IH w1) as (H1 & H2 & H3); cbn; try assumption; try reflexivity
    end.
    + cbn [length] in Hlen. lia.
    + cbn [length] in Hsem. lia.
    + cbv zeta in H1. cbn in H1, H2, H3.
      split; [|split].
      * rewrite H1, encoded_app. cbn. rewrite <- app_assoc. reflexivity.
      * exact H2.
      * rewrite H3, timer_arms_app. cbn. apply app_nil_r.
Qed.

(** STOP while the main loop waits in [sem_wait]: the four bytes ["STOP"]
    reset the base timestamp to zero without a post of the semaphore;
    [arm_timer] does nothing while the timestamp is zero, so no run of
    [Main.step], in which every handler and completion finds the main loop
    waiting, arms the timer again unless it contains a datagram that
    [recvfrom] reports as eight bytes; and the frames that are in the queue
    are still handed to the encoder, in order, by as many rounds of the
    main loop.  What a STOP does that arrives while the main thread is
    inside line 95 is stated with [Fine.step] further down. *)
Theorem stop_halts_arming (w : world) :
  let w1 := Main.io_signal_handler Main.SIGIO (Some [x53; x54; x4f; x50]) w in
  (timestamp w1 = 0 /\
   loop_ctl_sem w1 = loop_ctl_sem w /\
   Main.posts (trace w1) = Main.posts (trace w) /\
   trace w1 = trace w ++ [Log INFO "Received STOP signal, shutting down..."]) /\
  (forall w0 : world, timestamp w0 = 0 -> Main.arm_timer w0 = w0) /\
  (forall (fd : Z) (evs : list Main.event),
     forallb (fun e => negb (Main.is_start e)) evs = true ->
     timestamp (Main.run fd evs w1) = 0 /\
     Main.timer_arms (trace (Main.run fd evs w1)) = Main.timer_arms (trace w)) /\
  (forall (fd : Z) (envs : list Main.udp_env),
     status w = Blocked -> running w <> 0 -> 0 <= udpfd w ->
     Forall (fun p => p <> 0) (Queue.items (frame_queue w)) ->
     length envs = length (Queue.items (frame_queue w)) ->
     Z.of_nat (length (Queue.items (frame_queue w))) <= loop_ctl_sem w ->
     let w2 := Main.run fd (map Main.Wake envs) w1 in
     Main.encoded (trace w2) = Main.encoded (trace w) ++ Queue.items (frame_queue w) /\
     Queue.items (frame_queue w2) = [] /\
     Main.timer_arms (trace w2) = Main.timer_arms (trace w)).
Proof.
  intro w1. subst w1. change [x53; x54; x4f; x50] with Sample.stop_dgram.
  rewrite io_handler_stop.
  assert (A0 : Main.timer_arms (trace (set_timestamp 0 (log INFO Main.msg_stop w)))
               = Main.timer_arms (trace w))
    by (cbn; rewrite timer_arms_app; cbn; apply app_nil_r).
  split; [|split; [|split]].
  - cbn. rewrite posts_app. cbn. repeat split. lia.
  - exact arm_timer_stopped.
  - intros fd evs H.
    destruct (run_stopped fd evs (set_timestamp 0 (log INFO Main.msg_stop w))
                eq_refl H) as [Q1 Q2].
    split; [rewrite Q1; reflexivity | rewrite Q2; exact A0].
  - intros fd envs St Hr Hu Hnz Hlen Hsem w2. subst w2.
    destruct (backlog_drains fd envs (set_timestamp 0 (log INFO Main.msg_stop w)))
      as (H1 & H2 & H3); try assumption; try reflexivity.
    cbv zeta in H1. cbn [trace frame_queue set_timestamp log emit] in H1, H3.
    cbn [set_timestamp log emit frame_queue].
    split; [|split].
    + rewrite H1, encoded_app. cbn. rewrite app_nil_r. reflexivity.
    + exact H2.
    + rewrite H3. rewrite timer_arms_app. cbn. apply app_nil_r.
Qed.

Lemma stop_halts_arming_witness :
  let w1 := Main.io_signal_handler Main.SIGIO (Some [x53; x54; x4f; x50]) Sample.backlog in
  let w2 := Main.run 33333333 (map Main.Wake [Sample.env; Sample.env; Sample.env]) w1 in
  timestamp Sample.backlog = 1000000000033333333 /\
  timestamp w1 = 0 /\
  Main.encoded (trace w2) = [4096; 4102; 4108] /\
  Main.timer_arms (trace w2) = [] /\
  Main.arm_timer w1 = w1.
Proof.
  cbv zeta.
  destruct (stop_halts_arming Sample.backlog) as ((H1 & _) & H2 & _ & H4).
  destruct (H4 33333333 [Sample.env; Sample.env; Sample.env])
    as (E1 & _ & E3); try (vm_compute; first [reflexivity | congruence]).
  - repeat constructor; discriminate.
  - split; [reflexivity|]. split; [exact H1|]. split; [exact E1|].
    split; [exact E3|]. apply H2. exact H1.
Defined.

(** ** The capture handler *)

(** C9 as stated fails: with the semaphore at [frame_buffers_ - 1] the
    overrun error thrown by [queue_request] leaves the capture handler. *)
Lemma capture_handler_overrun_propagates :
  running Sample.backlog = 1 /\
  Main.capture_signal_handler Main.SIGUSR1 0 Sample.backlog
    = (Threw "Buffer is not ready for requeuing",
       log ERROR "Buffer is not ready for requeuing" Sample.backlog) /\
  fst (Main.capture_signal_handler Main.SIGUSR1 0 Sample.backlog) <> Returned.
Proof.
  split; [reflexivity|]. split; [vm_compute; reflexivity|].
  vm_compute. discriminate.
Qed.

(** C9, as the code has it: with [running] clear the capture handler
    returns without calling [queue_request]; otherwise it calls it, and
    when [queue_request] throws, the error has been logged by
    [queue_request] and the exception leaves the handler, which logs its
    own line only when the call returned. *)
Theorem capture_handler_outcome (drv_ret : Z) (w : world) :
  (running w = 0 ->
     Main.capture_signal_handler Main.SIGUSR1 drv_ret w = (Returned, w)) /\
  (running w <> 0 ->
     Main.capture_signal_handler Main.SIGUSR1 drv_ret w =
       match Camera.queue_request drv_ret w with
       | (Returned, w') => (Returned, log INFO Main.msg_queued w')
       | (Threw what, w') => (Threw what, w')
       end) /\
  (forall what w',
     Camera.queue_request drv_ret w = (Threw what, w') ->
     exists tr, trace w' = tr ++ [Log ERROR what]).
Proof.
  split; [|split].
  - intro R. unfold Main.capture_signal_handler. rewrite R. reflexivity.
  - intro R. unfold Main.capture_signal_handler.
    destruct (running w =? 0) eqn:E; [apply Z.eqb_eq in E; contradiction|].
    cbn [negb orb Z.eqb Main.SIGUSR1 Pos.eqb].
    destruct (Camera.queue_request drv_ret w) as [[|what] w']; reflexivity.
  - intros what w'. unfold Camera.queue_request.
    destruct (loop_ctl_sem w >? frame_buffers_ (cam w) - 2).
    + intro H. injection H as <- <-. exists (trace w). reflexivity.
    + destruct (drv_ret <? 0); [|discriminate].
      intro H. injection H as <- <-.
      exists (trace w ++ [DrvQueueRequest (next_req_idx_ (cam w)) drv_ret]).
      reflexivity.
Qed.

Lemma capture_handler_outcome_witness :
  Main.capture_signal_handler Main.SIGUSR1 0 (set_running 0 Sample.backlog)
    = (Returned, set_running 0 Sample.backlog) /\
  Main.capture_signal_handler Main.SIGUSR1 0 Sample.backlog
    = (Threw Camera.err_overrun, log ERROR Camera.err_overrun Sample.backlog) /\
  fst (Main.capture_signal_handler Main.SIGUSR1 0 Sample.idle) = Returned.
Proof.
  destruct (capture_handler_outcome 0 (set_running 0 Sample.backlog)) as (H1 & _).
  destruct (capture_handler_outcome 0 Sample.backlog) as (_ & H2 & _).
  destruct (capture_handler_outcome 0 Sample.idle) as (_ & H3 & _).
  split; [apply H1; reflexivity|]. split.
  - rewrite H2 by (vm_compute; discriminate). vm_compute. reflexivity.
  - rewrite H3 by (vm_compute; discriminate). vm_compute. reflexivity.
Defined.

(** ** Signal set-up *)

(** C2 on the code: with all four [sigaction] calls succeeding, the capture
    handler is installed for SIGUSR1, but the structure installed for SIGIO
    carries [exit_signal_handler], and SIGINT and SIGTERM receive the
    structure that was never written.  A SIGIO then runs the termination
    handler, which returns at once because the signal is neither SIGINT nor
    SIGTERM, so the datagram is not read; and when the unwritten structure
    holds no handler of the program, a SIGINT runs none, so [running] is not
    cleared and the semaphore is not posted.  The async-I/O handler is in
    no structure that the function wrote. *)
Theorem init_signals_installs_exit_handler_for_sigio (junk : Main.sigaction_t) :
  let flags := Z.lor Main.SA_SIGINFO Main.SA_RESTART in
  let res := Main.init_signals junk (0, 0, 0, 0) in
  fst res = 0 /\
  Main.disposition (snd res) Main.SIGUSR1
    = Some (Main.mkSigaction (Main.Fn Main.capture_h) flags []) /\
  Main.disposition (snd res) Main.SIGIO
    = Some (Main.mkSigaction (Main.Fn Main.exit_h) flags []) /\
  Main.disposition (snd res) Main.SIGINT = Some junk /\
  Main.disposition (snd res) Main.SIGTERM = Some junk /\
  (forall signo a,
     Main.disposition (snd res) signo = Some a ->
     Main.sa_sigaction a = Main.Fn Main.io_h -> a = junk) /\
  (forall pending drv_ret w,
     Main.deliver (snd res) Main.SIGIO pending drv_ret w = Some (Returned, w)) /\
  (forall addr pending drv_ret w,
     Main.sa_sigaction junk = Main.Wild addr ->
     Main.deliver (snd res) Main.SIGINT pending drv_ret w = None /\
     Main.deliver (snd res) Main.SIGTERM pending drv_ret w = None).
Proof.
  cbv zeta. do 5 (split; [reflexivity|]). split; [|split].
  - intros signo a. cbn -[Z.eqb Main.SIGTERM Main.SIGINT Main.SIGIO Main.SIGUSR1].
    destruct (Main.SIGTERM =? signo); [intros H1 H2; congruence|].
    destruct (Main.SIGINT =? signo); [intros H1 H2; congruence|].
    destruct (Main.SIGIO =? signo);
      [intros H1 H2; inversion H1; subst; discriminate|].
    destruct (Main.SIGUSR1 =? signo);
      [intros H1 H2; inversion H1; subst; discriminate|].
    discriminate.
  - reflexivity.
  - intros addr pending drv_ret w H. unfold Main.deliver. cbn. rewrite H.
    split; reflexivity.
Qed.

(** ** Size of the frame queue *)

Lemma pow2_ceil_from_pow2 (fuel : nat) : forall c n : Z,
  Queue.is_pow2 c -> Queue.is_pow2 (Queue.pow2_ceil_from fuel c n).
Proof.
  induction fuel as [|fuel IH]; intros c n Hc; cbn; [exact Hc|].
  destruct (n <=? c); [exact Hc|].
  apply IH. destruct Hc as [k ->]. exists (S k).
  rewrite Nat2Z.inj_succ, Z.pow_succ_r by lia. reflexivity.
Qed.

Lemma pow2_ceil_from_ge (fuel : nat) : forall c n : Z,
  0 < c -> n <= c * 2 ^ Z.of_nat fuel -> n <= Queue.pow2_ceil_from fuel c n.
Proof.
  induction fuel as [|fuel IH]; intros c n Hc Hn; cbn [Queue.pow2_ceil_from].
  - cbn in Hn. lia.
  - destruct (n <=? c) eqn:E; [apply Z.leb_le in E; exact E|].
    apply IH; [lia|].
    rewrite Nat2Z.inj_succ, Z.pow_succ_r in Hn by lia. lia.
Qed.

Lemma pow2_ceil_spec (n : Z) :
  Queue.is_pow2 (Queue.pow2_ceil n) /\ n <= Queue.pow2_ceil n.
Proof.
  unfold Queue.pow2_ceil. split.
  - apply pow2_ceil_from_pow2. exists O. reflexivity.
  - apply pow2_ceil_from_ge; [lia|].
    destruct (Z.le_gt_cases n 0) as [L|G].
    + pose proof (Z.pow_pos_nonneg 2 (Z.of_nat (Z.to_nat n))). lia.
    + rewrite Z2Nat.id by lia.
      pose proof (Z.pow_gt_lin_r 2 n). lia.
Qed.

Lemma arm_timer_frame_queue (w : world) :
  frame_queue (Main.arm_timer w) = frame_queue w.
Proof. unfold Main.arm_timer. destruct (timestamp w =? 0); reflexivity. Qed.

Lemma loop_head_frame_queue (fd : Z) (env : Main.udp_env) (w : world) :
  frame_queue (Main.loop_head fd env w) = frame_queue w.
Proof.
  unfold Main.loop_head.
  assert (Hgo : forall w1,
    frame_queue
      (set_status Blocked
         (Main.arm_timer
            (if timestamp w1 =? 0 then w1
             else set_timestamp (Int64.wrap64 (timestamp w1 + fd)) w1)))
      = frame_queue w1).
  { intro w1. cbn [frame_queue set_status]. rewrite arm_timer_frame_queue.
    destruct (timestamp w1 =? 0); reflexivity. }
  destruct (running w =? 0); [reflexivity|].
  destruct (udpfd w <? 0).
  - destruct (Main.bind_ret env <? 0); [reflexivity|].
    destruct (Main.sigio_ret env <? 0); [reflexivity|].
    rewrite Hgo. reflexivity.
  - apply Hgo.
Qed.

(** Whatever the constructor of the queue makes of the number it is given,
    the number is [dma_buffers]: some admissible configuration has more
    frame buffers than the queue has slots. *)
Lemma queue_size_ignores_frame_buffers (ctor : Z -> Z) :
  exists cfg : Main.config,
    Main.config_ok cfg /\ ctor (Main.dma_buffers cfg) < Main.frame_buffers cfg.
Proof.
  exists (Main.mkConfig 30 (Z.max 3 (ctor 2 + 1)) 2).
  unfold Main.config_ok. cbn. lia.
Qed.

(** C6 as stated fails: for [FRAME_BUFFERS = 3] and [DMA_BUFFERS = 2] the
    queue [main] creates has capacity 2, less than the number of frame
    buffers. *)
Lemma queue_capacity_below_frame_buffers :
  Main.config_ok Sample.cfg_small /\
  Queue.capacity (frame_queue (Main.startup Sample.cfg_small Sample.cam_small Sample.env)) = 2 /\
  ~ (Main.frame_buffers Sample.cfg_small
       <= Queue.capacity
            (frame_queue (Main.startup Sample.cfg_small Sample.cam_small Sample.env))).
Proof.
  split; [unfold Main.config_ok; cbn; lia|].
  split; [vm_compute; reflexivity|].
  vm_compute. intro H. apply H. reflexivity.
Qed.

(** C6, as the code has it: the queue that [main] creates is sized from
    [dma_buffers]; its capacity is a power of two and at least
    [dma_buffers]. *)
Theorem queue_capacity_covers_dma_buffers
    (cfg : Main.config) (c : camera_handler_t) (env : Main.udp_env) :
  let Q := Queue.capacity (frame_queue (Main.startup cfg c env)) in
  Q = Main.queue_capacity cfg /\
  Queue.is_pow2 Q /\
  Main.dma_buffers cfg <= Q.
Proof.
  cbv zeta. unfold Main.startup. rewrite loop_head_frame_queue.
  cbn [frame_queue]. split; [reflexivity|].
  apply pow2_ceil_spec.
Qed.

(** ** The stream sink *)


Lemma written_app (a b : list Stream.sock_event) :
  Stream.written (a ++ b) = Stream.written a + Stream.written b.
Proof.
  induction a as [|e a IH]; cbn; [reflexivity|].
  destruct e; rewrite IH; lia.
Qed.


(** One turn of the loop on a connected socket. *)
Lemma stream_loop_connected (result errno : Z) (ws conns : Stream.answers)
    (tcpfd total size : Z) (tr : list Stream.sock_event) :
  0 <= tcpfd -> total < size ->
  Stream.stream_loop ((result, errno) :: ws) conns tcpfd total size tr =
    let tr2 := tr ++ [Stream.WriteCall tcpfd total (size - total) result errno] in
    if result <? 0 then
      if errno =? Stream.EINTR
      then Stream.stream_loop ws conns tcpfd total size tr2
      else Some (-1, tcpfd, tr2 ++ [Stream.SinkLog ERROR Stream.msg_error])
    else Stream.stream_loop ws conns tcpfd (total + result) size tr2.
Proof.
  intros Hfd Hlt. cbn [Stream.stream_loop].
  destruct (total <? size) eqn:L; [|apply Z.ltb_ge in L; lia].
  destruct (tcpfd <? 0) eqn:F; [apply Z.ltb_lt in F; lia|].
  reflexivity.
Qed.


Ltac invert_some :=
  repeat match goal with
         | H : Some _ = Some _ |- _ => injection H; clear H; intros; subst
         | H : (_, _) = (_, _) |- _ => injection H; clear H; intros; subst
         end.







(* ================================================================== *)
(** * Further properties of the node *)

(** ** What a completion can do *)

Lemma enqueued_app (a b : list effect) :
  Wf.enqueued (a ++ b) = Wf.enqueued a ++ Wf.enqueued b.
Proof.
  induction a as [|e a IH]; simpl; [reflexivity|].
  destruct e as [| | | | |p ok| | | | | |]; simpl; rewrite ?IH; try reflexivity.
  destruct ok; simpl; rewrite ?IH; reflexivity.
Qed.

Lemma enqueued_repeat_failed (p : Z) (k : nat) :
  Wf.enqueued (repeat (EnqueueTry p false) k) = [].
Proof. induction k; simpl; auto. Qed.

Lemma encoded_repeat_failed (p : Z) (k : nat) :
  Main.encoded (repeat (EnqueueTry p false) k) = [].
Proof. induction k; simpl; auto. Qed.

(** The three ways in which the callback can end, with the world each
    leaves. *)
Lemma request_complete_cases (r : nat) (sched : list nat) (w : world) :
  match Camera.request_complete r sched w with
  | Camera.Completed w' =>
      (w' = w /\ exists req, nth_error (requests_ (cam w)) r = Some req
                             /\ req_state req = RequestCancelled)
      \/ (exists req data k n,
            nth_error (requests_ (cam w)) r = Some req /\
            req_state req <> RequestCancelled /\
            nth_error (mmap_buffers_ (cam w)) (Z.to_nat (cookie req)) = Some data /\
            Camera.eventually_room sched (frame_queue w) = true /\
            Queue.is_full (Queue.drain n (frame_queue w)) = false /\
            w' = Camera.after_completion r req data k n w)
  | Camera.NeverReturns w' =>
      exists req data,
        nth_error (requests_ (cam w)) r = Some req /\
        req_state req <> RequestCancelled /\
        nth_error (mmap_buffers_ (cam w)) (Z.to_nat (cookie req)) = Some data /\
        Camera.eventually_room sched (frame_queue w) = false /\
        w' = Wf.frame_copied req data w
  | Camera.OutOfBounds =>
      nth_error (requests_ (cam w)) r = None
      \/ exists req, nth_error (requests_ (cam w)) r = Some req /\
                     nth_error (mmap_buffers_ (cam w)) (Z.to_nat (cookie req)) = None
  end.
Proof.
  destruct (nth_error (requests_ (cam w)) r) as [req|] eqn:Hr.
  2: { unfold Camera.request_complete. rewrite Hr. left. reflexivity. }
  destruct (req_state req) eqn:Hs.
  3: { unfold Camera.request_complete. rewrite Hr, Hs. left. split; eauto. }
  all: assert (Hnc : req_state req <> RequestCancelled) by (rewrite Hs; discriminate).
  all: destruct (nth_error (mmap_buffers_ (cam w)) (Z.to_nat (cookie req)))
         as [data|] eqn:Hd.
  all: try (unfold Camera.request_complete; rewrite Hr, Hs;
            change (cam (log INFO "Request completed" w)) with (cam w);
            rewrite Hd; right; eauto; fail).
  all: destruct (Camera.eventually_room sched (frame_queue w)) eqn:Hroom.
  all: try (destruct (request_complete_spec r sched w req data Hr Hnc Hd Hroom)
              as (k & n & Hn & E);
            rewrite E; right; exists req, data, k, n;
            repeat (split; [first [assumption | reflexivity]|]); reflexivity).
  all: unfold Camera.request_complete; rewrite Hr, Hs;
       change (cam (log INFO "Request completed" w)) with (cam w);
       rewrite Hd; cbv zeta;
       rewrite enqueue_retry_stalled by exact Hroom;
       exists req, data; repeat (split; [first [assumption | reflexivity]|]);
       apply world_eq; cbn; try reflexivity;
       rewrite <- app_assoc; reflexivity.
Qed.

(** Without dequeues in between, the retry loop succeeds at its first
    attempt or never. *)
Lemma eventually_room_undisturbed (sched : list nat) (q : Queue.lock_free_queue_t) :
  forallb (Nat.eqb 0) sched = true ->
  Camera.eventually_room sched q = negb (Queue.is_full q) && negb (Nat.eqb (length sched) 0).
Proof.
  induction sched as [|d rest IH]; intro H.
  - cbn. rewrite andb_false_r. reflexivity.
  - cbn [forallb] in H. apply andb_true_iff in H as [Hd Hr].
    destruct d; [|discriminate Hd].
    cbn [Camera.eventually_room Queue.drain length Nat.eqb negb].
    destruct (Queue.is_full q) eqn:F; [|reflexivity].
    rewrite (IH Hr). reflexivity.
Qed.

Lemma enqueue_retry_undisturbed (sched : list nat) (p : Z) (w w' : world) :
  forallb (Nat.eqb 0) sched = true ->
  Camera.enqueue_retry sched p w = Some w' ->
  Queue.items (frame_queue w') = Queue.items (frame_queue w) ++ [p] /\
  Wf.enqueued (trace w') = Wf.enqueued (trace w) ++ [p] /\
  Main.encoded (trace w') = Main.encoded (trace w).
Proof.
  intros Hz H. destruct sched as [|d rest]; [discriminate H|].
  cbn [forallb] in Hz. apply andb_true_iff in Hz as [Hd Hr].
  destruct d; [|discriminate Hd].
  cbn [Camera.enqueue_retry Queue.drain] in H. unfold Queue.enqueue in H.
  destruct (Queue.is_full (frame_queue w)) eqn:F.
  - rewrite enqueue_retry_stalled in H; [discriminate|].
    cbn [frame_queue emit set_queue].
    rewrite eventually_room_undisturbed by exact Hr. rewrite F. reflexivity.
  - injection H as <-. cbn. rewrite enqueued_app, encoded_app. cbn.
    rewrite app_nil_r. auto.
Qed.

Lemma request_complete_undisturbed (r : nat) (sched : list nat) (w : world)
    (req : request) (data : list byte) :
  nth_error (requests_ (cam w)) r = Some req ->
  req_state req <> RequestCancelled ->
  nth_error (mmap_buffers_ (cam w)) (Z.to_nat (cookie req)) = Some data ->
  forallb (Nat.eqb 0) sched = true ->
  Camera.eventually_room sched (frame_queue w) = true ->
  Camera.request_complete r sched w
    = Camera.Completed (Camera.after_completion r req data 0 0 w).
Proof.
  intros Hr Hs Hd Hz Hroom.
  rewrite eventually_room_undisturbed in Hroom by exact Hz.
  apply andb_true_iff in Hroom as [F Hne]. apply negb_true_iff in F.
  destruct sched as [|d rest]; [discriminate Hne|].
  cbn [forallb] in Hz. apply andb_true_iff in Hz as [Hd0 _].
  destruct d; [|discriminate Hd0].
  unfold Camera.request_complete. rewrite Hr.
  change (cam (log INFO "Request completed" w)) with (cam w).
  rewrite Hd. cbv zeta.
  cbn [Camera.enqueue_retry Queue.drain]. unfold Queue.enqueue.
  cbn [frame_queue emit set_cam log]. rewrite F.
  destruct (req_state req); [ | | congruence].
  all: apply f_equal; apply world_eq; cbn; try reflexivity;
    repeat (rewrite <- app_assoc; cbn); reflexivity.
Qed.

(** ** Layout of the camera handler *)

Lemma memcpy_length (pool data : list byte) (off len : Z) :
  0 <= off -> 0 <= len ->
  off + len <= Z.of_nat (length pool) ->
  len <= Z.of_nat (length data) ->
  length (Camera.memcpy pool off data len) = length pool.
Proof.
  intros Ho Hl Hp Hd. unfold Camera.memcpy.
  rewrite !length_app, !length_firstn, length_skipn. lia.
Qed.

Lemma valid_cookie_data (c : camera_handler_t) (req : request)
    (data : list byte) :
  Wf.layout_ok c ->
  nth_error (mmap_buffers_ c) (Z.to_nat (cookie req)) = Some data ->
  Z.of_nat (length data) = frame_bytes_ c.
Proof.
  intros (_ & _ & _ & _ & _ & _ & Hm & _) Hd.
  rewrite Forall_forall in Hm. apply Hm. eapply nth_error_In. exact Hd.
Qed.

(** The camera handler after a frame was copied, with requests [reqs'] in
    place of the old ones. *)
Lemma layout_after_copy (c : camera_handler_t) (reqs' : list request) (data : list byte) :
  Wf.layout_ok c ->
  length reqs' = length (requests_ c) ->
  forallb (fun r => (0 <=? cookie r)
                    && (cookie r <? Z.of_nat (length (mmap_buffers_ c)))) reqs' = true ->
  Z.of_nat (length data) = frame_bytes_ c ->
  Wf.layout_ok
    (mkCamera (frame_buffers_ c) (frame_bytes_ c) reqs' (mmap_buffers_ c)
       (Camera.memcpy (frame_bytes_buffer_ c)
          (frame_bytes_ c * frame_bytes_offset_ c) data (frame_bytes_ c))
       (pool_base c) (next_req_idx_ c)
       ((frame_bytes_offset_ c + 1) mod frame_buffers_ c)).
Proof.
  intros (HN & Hfb & Hcur & Hidx & Hv & Hpool & Hm & Hb) Hlen Hck Hdata.
  unfold Wf.layout_ok. cbn.
  split; [exact HN|]. split; [exact Hfb|].
  split; [apply Z.mod_pos_bound; exact HN|].
  split; [rewrite Hlen; exact Hidx|].
  split; [exact Hck|].
  split; [|split; assumption].
  rewrite memcpy_length; nia.
Qed.

Lemma layout_update_requests (c : camera_handler_t) (r : nat) (req req' : request) :
  Wf.layout_ok c ->
  nth_error (requests_ c) r = Some req ->
  cookie req' = cookie req ->
  Wf.layout_ok (Camera.set_requests (Camera.update_nth r req' (requests_ c)) c).
Proof.
  intros (HN & Hfb & Hcur & Hidx & Hv & Hpool & Hm & Hb) Hr Hc.
  unfold Wf.layout_ok. cbn. rewrite length_update_nth.
  repeat (split; [assumption|]). split; [|split; [|split]]; try assumption.
  unfold Camera.valid_cookies in *. cbn.
  apply forallb_update_nth; [exact Hv|].
  rewrite forallb_forall in Hv. rewrite Hc.
  apply (Hv req). eapply nth_error_In. exact Hr.
Qed.

Lemma cookies_after_reuse (c : camera_handler_t) (r : nat) (req : request) :
  Camera.valid_cookies c = true ->
  nth_error (requests_ c) r = Some req ->
  forallb (fun x => (0 <=? cookie x)
                    && (cookie x <? Z.of_nat (length (mmap_buffers_ c))))
          (Camera.update_nth r (Camera.reuse req) (requests_ c)) = true.
Proof.
  intros Hv Hr. unfold Camera.valid_cookies in Hv.
  apply forallb_update_nth; [exact Hv|].
  rewrite forallb_forall in Hv. apply (Hv req). eapply nth_error_In. exact Hr.
Qed.

Lemma layout_after_completion (r : nat) (req : request) (data : list byte)
    (k n : nat) (w : world) :
  Wf.layout_ok (cam w) ->
  nth_error (requests_ (cam w)) r = Some req ->
  nth_error (mmap_buffers_ (cam w)) (Z.to_nat (cookie req)) = Some data ->
  Wf.layout_ok (cam (Camera.after_completion r req data k n w)).
Proof.
  intros L Hr Hd. unfold Camera.after_completion. cbn [cam].
  apply layout_after_copy; [exact L | apply length_update_nth | |].
  - apply cookies_after_reuse; [apply L | exact Hr].
  - eapply valid_cookie_data; eauto.
Qed.

Lemma layout_frame_copied (req : request) (data : list byte) (w : world) :
  Wf.layout_ok (cam w) ->
  nth_error (mmap_buffers_ (cam w)) (Z.to_nat (cookie req)) = Some data ->
  Wf.layout_ok (cam (Wf.frame_copied req data w)).
Proof.
  intros L Hd. unfold Wf.frame_copied. cbn [cam].
  apply layout_after_copy; [exact L | reflexivity | apply L |].
  eapply valid_cookie_data; eauto.
Qed.

(** ** What each step leaves alone *)

Lemma io_handler_cases (p : option (list byte)) (w : world) :
  Main.io_signal_handler Main.SIGIO p w = set_timestamp 0 (log INFO Main.msg_stop w)
  \/ (exists T, Main.io_signal_handler Main.SIGIO p w
                = sem_post (log INFO Main.msg_timestamp (set_timestamp T w)))
  \/ Main.io_signal_handler Main.SIGIO p w = log DEBUG Main.msg_unexpected w.
Proof.
  destruct p as [d|]; [|right; right; apply io_handler_nothing_pending].
  destruct (le_lt_dec 8 (length d)) as [L|L].
  - right; left. eexists. apply io_handler_eight. exact L.
  - destruct (Nat.eq_dec (length d) 4) as [E4|N4].
    + destruct (list_eq_dec Byte.byte_eq_dec d Sample.stop_dgram) as [->|Hne].
      * left. apply io_handler_stop.
      * right; right. apply io_handler_four; assumption.
    + right; right. apply io_handler_other_size; assumption.
Qed.

Lemma io_handler_fields (p : option (list byte)) (w : world) :
  let w' := Main.io_signal_handler Main.SIGIO p w in
  frame_queue w' = frame_queue w /\ cam w' = cam w /\
  running w' = running w /\ status w' = status w /\
  (loop_ctl_sem w' = loop_ctl_sem w \/ loop_ctl_sem w' = loop_ctl_sem w + 1) /\
  Wf.enqueued (trace w') = Wf.enqueued (trace w) /\
  Main.encoded (trace w') = Main.encoded (trace w) /\
  Main.timer_arms (trace w') = Main.timer_arms (trace w).
Proof.
  cbv zeta. destruct (io_handler_cases p w) as [E|[[T E]|E]]; rewrite E; cbn;
    rewrite <- ?app_assoc, ?enqueued_app, ?encoded_app, ?timer_arms_app; cbn;
    rewrite ?app_nil_r; repeat split; auto.
Qed.

Lemma capture_step_fields (fd drv : Z) (w : world) :
  let w' := Main.step fd w (Main.CaptureHandler drv) in
  frame_queue w' = frame_queue w /\
  running w' = running w /\
  loop_ctl_sem w' = loop_ctl_sem w /\
  Wf.enqueued (trace w') = Wf.enqueued (trace w) /\
  Main.encoded (trace w') = Main.encoded (trace w) /\
  Main.timer_arms (trace w') = Main.timer_arms (trace w) /\
  (cam w' = cam w
   \/ cam w' = Camera.set_next_req_idx
                 ((next_req_idx_ (cam w) + 1) mod Z.of_nat (length (requests_ (cam w))))
                 (cam w)).
Proof.
  cbv zeta. unfold Main.step.
  destruct (status w); try (repeat split; auto; fail).
  unfold Main.capture_signal_handler.
  destruct (negb (Main.SIGUSR1 =? Main.SIGUSR1) || (running w =? 0));
    [repeat split; auto|].
  destruct (Z.le_gt_cases (loop_ctl_sem w) (frame_buffers_ (cam w) - 2)) as [L|G].
  - destruct (Z.lt_ge_cases drv 0) as [D|D].
    + rewrite queue_request_refused by assumption. cbn.
      rewrite <- ?app_assoc, ?enqueued_app, ?encoded_app, ?timer_arms_app; cbn;
        rewrite ?app_nil_r; repeat split; auto.
    + rewrite queue_request_accepted by assumption. cbn.
      rewrite <- ?app_assoc, ?enqueued_app, ?encoded_app, ?timer_arms_app; cbn;
        rewrite ?app_nil_r; repeat split; auto.
  - rewrite queue_request_overrun by lia. cbn.
    rewrite <- ?app_assoc, ?enqueued_app, ?encoded_app, ?timer_arms_app; cbn;
      rewrite ?app_nil_r; repeat split; auto.
Qed.

Lemma exit_handler_fields (signo : Z) (w : world) :
  let w' := Main.exit_signal_handler signo w in
  frame_queue w' = frame_queue w /\ cam w' = cam w /\ status w' = status w /\
  (running w' = running w \/ running w' = 0) /\
  (loop_ctl_sem w' = loop_ctl_sem w \/ loop_ctl_sem w' = loop_ctl_sem w + 1) /\
  Wf.enqueued (trace w') = Wf.enqueued (trace w) /\
  Main.encoded (trace w') = Main.encoded (trace w) /\
  Main.timer_arms (trace w') = Main.timer_arms (trace w).
Proof.
  cbv zeta. unfold Main.exit_signal_handler.
  destruct (negb (signo =? Main.SIGINT) && negb (signo =? Main.SIGTERM)); cbn;
    rewrite ?enqueued_app, ?encoded_app, ?timer_arms_app; cbn;
    rewrite ?app_nil_r; repeat split; auto.
Qed.

Lemma loop_head_fields (fd : Z) (env : Main.udp_env) (w : world) :
  let w' := Main.loop_head fd env w in
  frame_queue w' = frame_queue w /\ cam w' = cam w /\
  running w' = running w /\ loop_ctl_sem w' = loop_ctl_sem w /\
  Wf.enqueued (trace w') = Wf.enqueued (trace w) /\
  Main.encoded (trace w') = Main.encoded (trace w).
Proof.
  cbv zeta. unfold Main.loop_head.
  assert (Harm : forall w1,
    frame_queue (Main.arm_timer w1) = frame_queue w1 /\
    cam (Main.arm_timer w1) = cam w1 /\
    running (Main.arm_timer w1) = running w1 /\
    loop_ctl_sem (Main.arm_timer w1) = loop_ctl_sem w1 /\
    Wf.enqueued (trace (Main.arm_timer w1)) = Wf.enqueued (trace w1) /\
    Main.encoded (trace (Main.arm_timer w1)) = Main.encoded (trace w1)).
  { intro w1. unfold Main.arm_timer. destruct (timestamp w1 =? 0); cbn;
      rewrite ?enqueued_app, ?encoded_app; cbn; rewrite ?app_nil_r; repeat split; auto. }
  assert (Hgo : forall w1,
    let w' := set_status Blocked
         (Main.arm_timer
            (if timestamp w1 =? 0 then w1
             else set_timestamp (Int64.wrap64 (timestamp w1 + fd)) w1)) in
    frame_queue w' = frame_queue w1 /\ cam w' = cam w1 /\
    running w' = running w1 /\ loop_ctl_sem w' = loop_ctl_sem w1 /\
    Wf.enqueued (trace w') = Wf.enqueued (trace w1) /\
    Main.encoded (trace w') = Main.encoded (trace w1)).
  { intros w1 w'. subst w'. cbn [frame_queue cam running loop_ctl_sem trace set_status].
    match goal with
    | |- context [Main.arm_timer ?x] => destruct (Harm x) as (A1 & A2 & A3 & A4 & A5 & A6)
    end.
    rewrite A1, A2, A3, A4, A5, A6.
    destruct (timestamp w1 =? 0); repeat split; reflexivity. }
  destruct (running w =? 0); [repeat split; reflexivity|].
  destruct (udpfd w <? 0).
  - destruct (Main.bind_ret env <? 0);
      [cbn; rewrite ?enqueued_app, ?encoded_app; cbn; rewrite ?app_nil_r;
       repeat split; reflexivity|].
    destruct (Main.sigio_ret env <? 0);
      [cbn; rewrite <- ?app_assoc, ?enqueued_app, ?encoded_app; cbn;
       rewrite ?app_nil_r; repeat split; reflexivity|].
    match goal with
    | |- context [Main.arm_timer (if timestamp ?x =? 0 then _ else _)] =>
        destruct (Hgo x) as (A1 & A2 & A3 & A4 & A5 & A6)
    end.
    cbv zeta in *. rewrite A1, A2, A3, A4, A5, A6. cbn.
    rewrite <- ?app_assoc, ?enqueued_app, ?encoded_app; cbn; rewrite ?app_nil_r.
    repeat split; reflexivity.
  - apply Hgo.
Qed.

(** A round of the main loop, from the return of [sem_wait] on. *)
Lemma loop_resume_fields (fd : Z) (env : Main.udp_env) (w : world) :
  let w' := Main.loop_resume fd env w in
  cam w' = cam w /\ running w' = running w /\
  loop_ctl_sem w' = loop_ctl_sem w - 1 /\
  Queue.capacity (frame_queue w') = Queue.capacity (frame_queue w) /\
  Wf.enqueued (trace w') = Wf.enqueued (trace w) /\
  match Queue.items (frame_queue w) with
  | [] => Queue.items (frame_queue w') = [] /\
          Main.encoded (trace w') = Main.encoded (trace w)
  | p :: ps => Queue.items (frame_queue w') = ps /\
               Main.encoded (trace w')
                 = Main.encoded (trace w) ++ (if p =? 0 then [] else [p])
  end.
Proof.
  cbv zeta. rewrite loop_resume_unfold. cbv zeta.
  match goal with
  | |- context [Main.loop_head fd env ?w3] =>
      destruct (loop_head_fields fd env w3) as (A1 & A2 & A3 & A4 & A5 & A6)
  end.
  cbv zeta in *. rewrite A1, A2, A3, A4, A5, A6. clear A1 A2 A3 A4 A5 A6.
  change (frame_queue (emit SemWait (set_sem (loop_ctl_sem w - 1) w)))
    with (frame_queue w).
  unfold Queue.dequeue.
  destruct (Queue.items (frame_queue w)) as [|p ps] eqn:Hq; cbn [fst snd].
  - cbn. rewrite Hq.
    rewrite <- ?app_assoc, ?enqueued_app, ?encoded_app; cbn; rewrite ?app_nil_r.
    repeat split; reflexivity.
  - destruct (p =? 0); cbn;
      rewrite <- ?app_assoc, ?enqueued_app, ?encoded_app; cbn; rewrite ?app_nil_r;
      repeat split; reflexivity.
Qed.

(** A completion step either leaves queue, semaphore and the record of
    frames alone, or adds one pointer to the queue and one unit to the
    semaphore. *)
Lemma completion_step_cases (fd : Z) (r : nat) (st : req_status) (sched : list nat)
    (w : world) :
  let w' := Main.step fd w (Main.RequestCompleted r st sched) in
  (Wf.layout_ok (cam w) -> Wf.layout_ok (cam w')) /\
  running w' = running w /\
  Main.encoded (trace w') = Main.encoded (trace w) /\
  Main.timer_arms (trace w') = Main.timer_arms (trace w) /\
  ((frame_queue w' = frame_queue w /\ loop_ctl_sem w' = loop_ctl_sem w /\
    Wf.enqueued (trace w') = Wf.enqueued (trace w))
   \/ (exists n : nat,
         let p := pool_base (cam w) + frame_bytes_ (cam w) * frame_bytes_offset_ (cam w) in
         Queue.is_full (Queue.drain n (frame_queue w)) = false /\
         frame_queue w'
           = Queue.mkQueue (Queue.capacity (frame_queue w))
               (Queue.items (Queue.drain n (frame_queue w)) ++ [p]) /\
         loop_ctl_sem w' = loop_ctl_sem w + 1 /\
         Wf.enqueued (trace w') = Wf.enqueued (trace w) ++ [p] /\
         (forallb (Nat.eqb 0) sched = true ->
          Queue.items (Queue.drain n (frame_queue w)) = Queue.items (frame_queue w)))).
Proof.
  cbv zeta.
  pose proof (step_quiet fd w (Main.RequestCompleted r st sched) I) as (_ & Harms & _).
  split; [|split; [|split; [|split; [exact Harms|]]]]; clear Harms;
    unfold Main.step; destruct (status w) eqn:St; auto;
    unfold Camera.driver_complete;
    destruct (nth_error (requests_ (cam w)) r) as [req|] eqn:Hr; auto;
    set (marked := mkRequest (cookie req) (buffer req) st);
    set (wm := set_cam (Camera.set_requests
                          (Camera.update_nth r marked (requests_ (cam w))) (cam w)) w);
    pose proof (request_complete_cases r sched wm) as C;
    destruct (Camera.request_complete r sched wm) as [w'|w'|] eqn:E; auto.
  - (* layout, completed *)
    intro L.
    assert (Lm : Wf.layout_ok (cam wm))
      by (apply (layout_update_requests _ r req marked L Hr); reflexivity).
    destruct C as [[-> _]|(rq & data & k & n & Hq & _ & Hd & _ & _ & ->)];
      [exact Lm|].
    apply layout_after_completion; assumption.
  - (* layout, spinning *)
    intro L.
    assert (Lm : Wf.layout_ok (cam wm))
      by (apply (layout_update_requests _ r req marked L Hr); reflexivity).
    destruct C as (rq & data & _ & _ & Hd & _ & ->).
    cbn [cam set_status]. apply layout_frame_copied; assumption.
  - destruct C as [[-> _]|(rq & data & k & n & _ & _ & _ & _ & _ & ->)]; reflexivity.
  - destruct C as (rq & data & _ & _ & _ & _ & ->). reflexivity.
  - destruct C as [[-> _]|(rq & data & k & n & _ & _ & _ & _ & _ & ->)]; [reflexivity|].
    cbn. rewrite <- ?app_assoc, ?encoded_app. cbn.
    rewrite ?encoded_app, ?encoded_repeat_failed. cbn. rewrite ?app_nil_r. reflexivity.
  - destruct C as (rq & data & _ & _ & _ & _ & ->).
    cbn. rewrite encoded_app. cbn. apply app_nil_r.
  - destruct C as [[-> _]|(rq & data & k & n & Hq & Hnc & Hd & Hroom & Hn & ->)];
      [left; repeat split; reflexivity|].
    right. exists n. cbv zeta. split; [exact Hn|]. split; [reflexivity|].
    split; [reflexivity|]. split.
    + cbn. rewrite <- ?app_assoc, ?enqueued_app. cbn.
      rewrite ?enqueued_app, ?enqueued_repeat_failed. cbn. reflexivity.
    + intro Hz.
      pose proof (request_complete_undisturbed r sched wm rq data Hq Hnc Hd Hz Hroom) as U.
      rewrite U in E. injection E as E.
      apply app_inv_tail in E. symmetry. exact E.
  - destruct C as (rq & data & _ & _ & _ & _ & ->).
    left. cbn. rewrite enqueued_app. cbn. rewrite app_nil_r. repeat split; reflexivity.
Qed.

(** ** Invariants of a run *)

Lemma step_layout (fd : Z) (w : world) (e : Main.event) :
  Wf.layout_ok (cam w) -> Wf.layout_ok (cam (Main.step fd w e)).
Proof.
  intro L. destruct e as [p|drv|signo|r st sched|env].
  - unfold Main.step. destruct (status w); try exact L.
    destruct (io_handler_fields p w) as (_ & -> & _). exact L.
  - destruct (capture_step_fields fd drv w) as (_ & _ & _ & _ & _ & _ & [->| ->]);
      [exact L|].
    destruct L as (HN & Hfb & Hcur & Hidx & Hv & Hpool & Hm & Hb).
    unfold Wf.layout_ok. cbn. repeat (split; [assumption|]).
    split; [apply Z.mod_pos_bound; lia|]. repeat split; assumption.
  - unfold Main.step. destruct (status w); try exact L.
    destruct (exit_handler_fields signo w) as (_ & -> & _). exact L.
  - apply completion_step_cases. exact L.
  - unfold Main.step. destruct (status w); try exact L.
    destruct (0 <? loop_ctl_sem w); [|exact L].
    destruct (loop_resume_fields fd env w) as (-> & _). exact L.
Qed.

(** X1: a camera handler that is laid out as its constructor leaves it
    stays so through every run of the node: both cursors stay in range,
    the pool keeps its size and the cookies keep indexing mapped buffers;
    so a completion for one of its requests never indexes out of range. *)
Theorem layout_kept_by_every_run (fd : Z) (evs : list Main.event) (w : world) :
  Wf.layout_ok (cam w) ->
  Wf.layout_ok (cam (Main.run fd evs w)) /\
  (forall r st sched,
     (r < length (requests_ (cam (Main.run fd evs w))))%nat ->
     Camera.driver_complete r st sched (Main.run fd evs w) <> Camera.OutOfBounds).
Proof.
  intro L.
  assert (L' : Wf.layout_ok (cam (Main.run fd evs w))).
  { revert w L. induction evs as [|e evs IH]; intros w L; cbn; [exact L|].
    apply IH. apply step_layout. exact L. }
  split; [exact L'|]. intros r st sched Hr.
  set (w1 := Main.run fd evs w) in *.
  unfold Camera.driver_complete.
  destruct (nth_error (requests_ (cam w1)) r) as [req|] eqn:E;
    [|apply nth_error_None in E; lia].
  set (marked := mkRequest (cookie req) (buffer req) st).
  match goal with
  | |- Camera.request_complete r sched ?wm <> _ =>
      pose proof (request_complete_cases r sched wm) as C;
      assert (Lm : Wf.layout_ok (cam wm))
        by (apply (layout_update_requests _ r req marked L' E); reflexivity);
      destruct (Camera.request_complete r sched wm); try discriminate
  end.
  exfalso. destruct C as [C|(rq & Hq & Hd)].
  - cbn in C. rewrite (nth_error_update_nth _ _ marked req E) in C. discriminate.
  - destruct Lm as (_ & _ & _ & _ & Hv & _).
    destruct (valid_cookie_lookup _ _ _ Hv Hq) as (data & Hd').
    congruence.
Qed.

Lemma layout_kept_by_every_run_witness :
  Wf.layout_ok (cam (Main.run 33333333
                       [ Main.CaptureHandler 0;
                         Main.RequestCompleted 0 RequestComplete [0%nat];
                         Main.Wake Sample.env ] Wf.busy)).
Proof.
  apply layout_kept_by_every_run.
  unfold Wf.layout_ok. cbn.
  repeat split; try lia; try reflexivity.
  repeat constructor.
Defined.

(** ** Termination *)






(** ** A full queue *)

(** X5: when the queue is full and the main loop takes nothing out, the
    completion callback never leaves its retry loop, however long it
    tries: the semaphore is not posted and the request is not re-armed,
    while the frame has already been copied and the pool cursor has
    moved on. *)
Theorem full_queue_stalls_completion
    (r : nat) (tries : nat) (w : world) (req : request) (data : list byte) :
  nth_error (requests_ (cam w)) r = Some req ->
  req_state req <> RequestCancelled ->
  nth_error (mmap_buffers_ (cam w)) (Z.to_nat (cookie req)) = Some data ->
  Queue.is_full (frame_queue w) = true ->
  exists w',
    Camera.request_complete r (repeat 0%nat tries) w = Camera.NeverReturns w' /\
    loop_ctl_sem w' = loop_ctl_sem w /\
    Main.posts (trace w') = Main.posts (trace w) /\
    requests_ (cam w') = requests_ (cam w) /\
    frame_queue w' = frame_queue w /\
    frame_bytes_offset_ (cam w')
      = (frame_bytes_offset_ (cam w) + 1) mod frame_buffers_ (cam w) /\
    frame_bytes_buffer_ (cam w')
      = Camera.memcpy (frame_bytes_buffer_ (cam w))
          (frame_bytes_ (cam w) * frame_bytes_offset_ (cam w)) data (frame_bytes_ (cam w)).
Proof.
  intros Hr Hs Hd Hfull.
  assert (Hz : forallb (Nat.eqb 0) (repeat 0%nat tries) = true)
    by (induction tries; cbn; auto).
  assert (Hroom : Camera.eventually_room (repeat 0%nat tries) (frame_queue w) = false)
    by (rewrite eventually_room_undisturbed by exact Hz; rewrite Hfull; reflexivity).
  pose proof (request_complete_cases r (repeat 0%nat tries) w) as C.
  destruct (Camera.request_complete r (repeat 0%nat tries) w) as [w'|w'|].
  - exfalso. destruct C as [(_ & rq & Hq & Hc)|(rq & d & k & n & _ & _ & _ & Hroom' & _)];
      congruence.
  - destruct C as (rq & d & Hq & _ & Hd' & _ & ->).
    assert (rq = req) by congruence. subst rq.
    assert (d = data) by congruence. subst d.
    exists (Wf.frame_copied req data w). split; [reflexivity|].
    cbn. rewrite posts_app. cbn. repeat split; auto.
  - exfalso. destruct C as [C|(rq & Hq & Hd')]; congruence.
Qed.

Lemma full_queue_stalls_completion_witness :
  exists w',
    Camera.request_complete 0 (repeat 0%nat 1000)
      (set_queue (Queue.mkQueue 2 [4096; 4102]) Wf.busy) = Camera.NeverReturns w' /\
    loop_ctl_sem w' = 2.
Proof.
  pose proof (full_queue_stalls_completion 0 1000
                (set_queue (Queue.mkQueue 2 [4096; 4102]) Wf.busy)
                (mkRequest 0 (Some 0) RequestPending) (Sample.plane x11)) as H.
  assert (H1 : nth_error
                 (requests_ (cam (set_queue (Queue.mkQueue 2 [4096; 4102]) Wf.busy))) 0
               = Some (mkRequest 0 (Some 0) RequestPending))
    by (vm_compute; reflexivity).
  assert (H2 : req_state (mkRequest 0 (Some 0) RequestPending) <> RequestCancelled)
    by discriminate.
  assert (H3 : nth_error
                 (mmap_buffers_ (cam (set_queue (Queue.mkQueue 2 [4096; 4102]) Wf.busy)))
                 (Z.to_nat (cookie (mkRequest 0 (Some 0) RequestPending)))
               = Some (Sample.plane x11))
    by (vm_compute; reflexivity).
  assert (H4 : Queue.is_full
                 (frame_queue (set_queue (Queue.mkQueue 2 [4096; 4102]) Wf.busy)) = true)
    by (vm_compute; reflexivity).
  destruct (H H1 H2 H3 H4) as (w' & Ha & Hb & _).
  exists w'. split; [exact Ha | exact Hb].
Defined.

(** ** Slots of the pool *)

Lemma splice_self (pool data : list byte) (off : nat) :
  (off + length data <= length pool)%nat ->
  firstn (length data)
    (skipn off (firstn off pool ++ data ++ skipn (off + length data) pool)) = data.
Proof.
  intro H. rewrite skipn_app, length_firstn.
  replace (Nat.min off (length pool)) with off by lia.
  rewrite Nat.sub_diag. cbn [skipn].
  rewrite skipn_all2 by (rewrite length_firstn; lia). cbn [app].
  rewrite firstn_app, Nat.sub_diag, firstn_all. cbn [firstn]. apply app_nil_r.
Qed.

Lemma splice_below (pool rest : list byte) (off n len : nat) :
  (n + len <= off)%nat -> (off <= length pool)%nat ->
  firstn len (skipn n (firstn off pool ++ rest)) = firstn len (skipn n pool).
Proof.
  intros H1 H2. rewrite skipn_app, length_firstn.
  replace (Nat.min off (length pool)) with off by lia.
  replace (n - off)%nat with 0%nat by lia. cbn [skipn].
  rewrite firstn_app, length_skipn, length_firstn.
  replace (len - (Nat.min off (length pool) - n))%nat with 0%nat by lia.
  cbn [firstn]. rewrite app_nil_r.
  rewrite skipn_firstn_comm, firstn_firstn.
  replace (Nat.min len (off - n)) with len by lia. reflexivity.
Qed.

Lemma splice_above (pool data : list byte) (off n : nat) :
  (off + length data <= n)%nat -> (off + length data <= length pool)%nat ->
  skipn n (firstn off pool ++ data ++ skipn (off + length data) pool) = skipn n pool.
Proof.
  intros H1 H2. rewrite !skipn_app, length_firstn.
  replace (Nat.min off (length pool)) with off by lia.
  rewrite (skipn_all2 (firstn off pool)) by (rewrite length_firstn; lia).
  rewrite (skipn_all2 data) by lia. cbn [app].
  rewrite skipn_skipn. f_equal. lia.
Qed.

(** What [memcpy] of one frame at the cursor does to the slots. *)
Lemma memcpy_slots (c : camera_handler_t) (data : list byte) :
  Wf.layout_ok c ->
  Z.of_nat (length data) = frame_bytes_ c ->
  let pool' := Camera.memcpy (frame_bytes_buffer_ c)
                 (frame_bytes_ c * frame_bytes_offset_ c) data (frame_bytes_ c) in
  firstn (Z.to_nat (frame_bytes_ c))
    (skipn (Z.to_nat (frame_bytes_ c * frame_bytes_offset_ c)) pool') = data /\
  forall k, 0 <= k < frame_buffers_ c -> k <> frame_bytes_offset_ c ->
    firstn (Z.to_nat (frame_bytes_ c)) (skipn (Z.to_nat (frame_bytes_ c * k)) pool')
      = firstn (Z.to_nat (frame_bytes_ c))
          (skipn (Z.to_nat (frame_bytes_ c * k)) (frame_bytes_buffer_ c)).
Proof.
  intros (HN & Hfb & Hoff & _ & _ & Hpool & _ & _) Hd. cbv zeta.
  set (fb := frame_bytes_ c) in *. set (cur := frame_bytes_offset_ c) in *.
  set (N := frame_buffers_ c) in *. set (pool := frame_bytes_buffer_ c) in *.
  assert (P0 : 0 <= fb * cur) by nia.
  assert (P1 : fb * cur + fb <= fb * N) by nia.
  assert (Elen : Z.to_nat fb = length data) by lia.
  assert (E1 : Z.to_nat (fb * cur + fb) = (Z.to_nat (fb * cur) + length data)%nat) by lia.
  assert (Hfit : (Z.to_nat (fb * cur) + length data <= length pool)%nat) by lia.
  unfold Camera.memcpy. rewrite E1, Elen, firstn_all. split.
  - apply splice_self. exact Hfit.
  - intros k Hk Hne.
    assert (Q0 : 0 <= fb * k) by nia.
    destruct (Z_lt_le_dec k cur) as [L|L].
    + assert (Q1 : fb * k + fb <= fb * cur) by nia.
      apply splice_below; lia.
    + assert (Q1 : fb * cur + fb <= fb * k) by nia.
      rewrite splice_above by lia. reflexivity.
Qed.

(** X6: a completion that is not cancelled copies the frame into the pool
    slot at the cursor and into no other: afterwards that slot holds the
    mapped buffer's bytes, every other slot holds what it held, and the
    pool has kept its size. *)
Theorem completion_writes_one_slot
    (r : nat) (sched : list nat) (w w' : world) (req : request) (data : list byte) :
  Wf.layout_ok (cam w) ->
  nth_error (requests_ (cam w)) r = Some req ->
  req_state req <> RequestCancelled ->
  nth_error (mmap_buffers_ (cam w)) (Z.to_nat (cookie req)) = Some data ->
  Camera.request_complete r sched w = Camera.Completed w' \/
  Camera.request_complete r sched w = Camera.NeverReturns w' ->
  Wf.slot (cam w') (frame_bytes_offset_ (cam w)) = data /\
  (forall k, 0 <= k < frame_buffers_ (cam w) -> k <> frame_bytes_offset_ (cam w) ->
     Wf.slot (cam w') k = Wf.slot (cam w) k) /\
  length (frame_bytes_buffer_ (cam w')) = length (frame_bytes_buffer_ (cam w)).
Proof.
  intros Hl Hr Hs Hd Hrun.
  pose proof (valid_cookie_data _ _ _ Hl Hd) as Hlen.
  assert (Hpool : frame_bytes_ (cam w') = frame_bytes_ (cam w) /\
                  frame_bytes_buffer_ (cam w')
                  = Camera.memcpy (frame_bytes_buffer_ (cam w))
                      (frame_bytes_ (cam w) * frame_bytes_offset_ (cam w)) data
                      (frame_bytes_ (cam w))).
  { pose proof (request_complete_cases r sched w) as C.
    destruct Hrun as [E|E]; rewrite E in C.
    - destruct C as [(_ & rq & Hq & Hc)|(rq & d & k & n & Hq & _ & Hd' & _ & _ & ->)].
      + congruence.
      + assert (rq = req) by congruence. subst rq.
        assert (d = data) by congruence. subst d. split; reflexivity.
    - destruct C as (rq & d & Hq & _ & Hd' & _ & ->).
      assert (rq = req) by congruence. subst rq.
      assert (d = data) by congruence. subst d. split; reflexivity. }
  destruct Hpool as [Hfb Hp].
  destruct (memcpy_slots (cam w) data Hl Hlen) as [S1 S2]. cbv zeta in S1, S2.
  unfold Wf.slot. rewrite Hfb, Hp. split; [exact S1|]. split; [exact S2|].
  destruct Hl as (HN & Hf & Hoff & _ & _ & Hsz & _ & _).
  apply memcpy_length; nia.
Qed.

Lemma completion_writes_one_slot_witness :
  Wf.slot (cam (Camera.after_completion 0 (mkRequest 0 (Some 0) RequestPending)
                  (Sample.plane x11) 0 0 Wf.busy)) 2 = Sample.plane x11.
Proof.
  assert (L : Wf.layout_ok (cam Wf.busy)).
  { unfold Wf.layout_ok. cbn. repeat split; try lia; try reflexivity.
    repeat constructor. }
  destruct (completion_writes_one_slot 0 [0%nat] Wf.busy
              (Camera.after_completion 0 (mkRequest 0 (Some 0) RequestPending)
                 (Sample.plane x11) 0 0 Wf.busy)
              (mkRequest 0 (Some 0) RequestPending) (Sample.plane x11) L)
    as (H & _).
  - vm_compute; reflexivity.
  - discriminate.
  - vm_compute; reflexivity.
  - left. vm_compute; reflexivity.
  - exact H.
Defined.

(** ** Requests in turn *)

Lemma queue_requests_spec (n : nat) :
  forall w : world,
  loop_ctl_sem w <= frame_buffers_ (cam w) - 2 ->
  0 <= next_req_idx_ (cam w) < Z.of_nat (length (requests_ (cam w))) ->
  let M := Z.of_nat (length (requests_ (cam w))) in
  Camera.drv_calls (trace (Wf.queue_requests n w))
    = Camera.drv_calls (trace w)
        ++ map (fun i => ((next_req_idx_ (cam w) + Z.of_nat i) mod M, 0)) (seq 0 n) /\
  next_req_idx_ (cam (Wf.queue_requests n w))
    = (next_req_idx_ (cam w) + Z.of_nat n) mod M /\
  loop_ctl_sem (Wf.queue_requests n w) = loop_ctl_sem w /\
  frame_queue (Wf.queue_requests n w) = frame_queue w.
Proof.
  induction n as [|n IH]; intros w Hsem Hidx; cbv zeta.
  - cbn. rewrite app_nil_r, Z.add_0_r, Z.mod_small by lia. auto.
  - cbn [Wf.queue_requests].
    rewrite queue_request_accepted by (assumption || lia). cbn [snd].
    match goal with |- context [Wf.queue_requests n ?w1] => set (w1' := w1) end.
    assert (Hm : length (requests_ (cam w1')) = length (requests_ (cam w)))
      by reflexivity.
    assert (Hi : next_req_idx_ (cam w1')
                 = (next_req_idx_ (cam w) + 1) mod Z.of_nat (length (requests_ (cam w))))
      by reflexivity.
    destruct (IH w1') as (A & B & C & D).
    { exact Hsem. }
    { rewrite Hm, Hi. apply Z.mod_pos_bound. lia. }
    cbv zeta in A, B. rewrite A, B, C, D, Hm, Hi. clear A B C D.
    split; [|split; [|split; reflexivity]].
    + change (trace w1') with (trace w ++ [DrvQueueRequest (next_req_idx_ (cam w)) 0]).
      rewrite drv_calls_app. cbn [Camera.drv_calls]. rewrite <- app_assoc. f_equal.
      cbn [app seq map]. change (Z.of_nat 0) with 0.
      rewrite Z.add_0_r, (Z.mod_small (next_req_idx_ (cam w))) by lia. f_equal.
      rewrite <- seq_shift, map_map. apply map_ext. intro i.
      rewrite Z.add_mod_idemp_l by lia. do 2 f_equal. lia.
    + rewrite Z.add_mod_idemp_l by lia. f_equal. lia.
Qed.

(** X7: [queue_request] hands the requests to the driver in turn: [n]
    calls in a row that pass the gate queue the requests
    [i, i+1, ..., i+n-1] modulo their number [M], and leave the index at
    [(i + n) mod M]; after [M] calls the index is back where it was.  The
    calls themselves leave the semaphore alone, so none of them is refused
    as long as no completion posts in between. *)
Theorem queue_requests_round_robin (n : nat) (w : world) :
  loop_ctl_sem w <= frame_buffers_ (cam w) - 2 ->
  0 <= next_req_idx_ (cam w) < Z.of_nat (length (requests_ (cam w))) ->
  let M := Z.of_nat (length (requests_ (cam w))) in
  Camera.drv_calls (trace (Wf.queue_requests n w))
    = Camera.drv_calls (trace w)
        ++ map (fun i => ((next_req_idx_ (cam w) + Z.of_nat i) mod M, 0)) (seq 0 n) /\
  next_req_idx_ (cam (Wf.queue_requests n w))
    = (next_req_idx_ (cam w) + Z.of_nat n) mod M /\
  (n = length (requests_ (cam w)) ->
   next_req_idx_ (cam (Wf.queue_requests n w)) = next_req_idx_ (cam w)).
Proof.
  intros Hsem Hidx M.
  destruct (queue_requests_spec n w Hsem Hidx) as (A & B & _). cbv zeta in A, B.
  split; [exact A|]. split; [exact B|].
  intros ->. rewrite B. fold M.
  rewrite <- (Z.mul_1_l M) at 1. rewrite Z.mod_add by lia. apply Z.mod_small. exact Hidx.
Qed.

Lemma queue_requests_round_robin_witness :
  Camera.drv_calls (trace (Wf.queue_requests 5 Wf.busy))
    = [(0, 0); (1, 0); (2, 0); (0, 0); (1, 0)].
Proof.
  destruct (queue_requests_round_robin 5 Wf.busy) as (H & _);
    [cbn; lia | cbn; lia |].
  rewrite H. vm_compute. reflexivity.
Defined.

(** ** The value handed to the timer *)

(** X8: for a non-zero timestamp [arm_timer] makes one call of
    [timer_settime] whose seconds and nanoseconds add up to the timestamp;
    the nanoseconds are a valid [tv_nsec] (between 0 and 999999999) when the
    timestamp is positive, while a negative timestamp (a start datagram
    with the top bit set) is split by the truncating division into parts
    that are not positive, one of them negative. *)
Theorem arm_timer_timespec (w : world) :
  timestamp w <> 0 ->
  exists sec nsec,
    trace (Main.arm_timer w) = trace w ++ [TimerSettime 0 sec nsec] /\
    sec * ns_per_s + nsec = timestamp w /\
    (0 < timestamp w -> 0 <= sec /\ 0 <= nsec < ns_per_s) /\
    (timestamp w < 0 ->
     sec <= 0 /\ - ns_per_s < nsec <= 0 /\ (sec < 0 \/ nsec < 0)).
Proof.
  intro T. unfold Main.arm_timer.
  destruct (timestamp w =? 0) eqn:E; [apply Z.eqb_eq in E; contradiction|].
  exists (Z.quot (timestamp w) ns_per_s), (Z.rem (timestamp w) ns_per_s).
  assert (Hns : 0 < ns_per_s) by reflexivity.
  pose proof (Z.quot_rem' (timestamp w) ns_per_s) as QR.
  split; [reflexivity|]. split; [lia|]. split.
  - intro P. split.
    + apply Z.quot_pos; lia.
    + apply Z.rem_bound_pos; lia.
  - intro Ng.
    assert (R : - ns_per_s < Z.rem (timestamp w) ns_per_s <= 0).
    { rewrite <- (Z.opp_involutive (timestamp w)), Z.rem_opp_l by lia.
      pose proof (Z.rem_bound_pos (- timestamp w) ns_per_s). lia. }
    assert (Q : Z.quot (timestamp w) ns_per_s <= 0).
    { rewrite <- (Z.opp_involutive (timestamp w)), Z.quot_opp_l by lia.
      pose proof (Z.quot_pos (- timestamp w) ns_per_s). lia. }
    split; [exact Q|]. split; [exact R|]. nia.
Qed.

Lemma arm_timer_timespec_witness :
  exists sec nsec,
    trace (Main.arm_timer Wf.busy) = trace Wf.busy ++ [TimerSettime 0 sec nsec] /\
    sec * ns_per_s + nsec = 1000000000033333333.
Proof.
  destruct (arm_timer_timespec Wf.busy) as (sec & nsec & H1 & H2 & _);
    [discriminate|].
  exists sec, nsec. split; [exact H1 | exact H2].
Defined.

(** ** More on the stream sink *)

Lemma contiguous_app (size : Z) (a b : list Stream.sock_event) :
  forall acc,
  Sink.contiguous size acc (a ++ b)
    = Sink.contiguous size acc a && Sink.contiguous size (acc + Stream.written a) b.
Proof.
  induction a as [|e a IH]; intro acc.
  - cbn. rewrite Z.add_0_r. reflexivity.
  - destruct e as [ret fd|fd off count result errno|lvl msg];
      cbn [app Sink.contiguous Stream.written]; rewrite IH; try reflexivity.
    rewrite Z.add_assoc, !andb_assoc. reflexivity.
Qed.

(** How the loop of [stream_pkt] can end, [total] being the bytes accepted
    in the trace so far. *)
Lemma stream_loop_outcome (ws : Stream.answers) :
  forall (conns : Stream.answers) (tcpfd total size : Z)
         (tr : list Stream.sock_event) (r fd : Z) (tr' : list Stream.sock_event),
  Stream.written tr = total ->
  Sink.contiguous size 0 tr = true ->
  Stream.stream_loop ws conns tcpfd total size tr = Some (r, fd, tr') ->
  Sink.contiguous size 0 tr' = true /\
  ((r = 0 /\ size <= Stream.written tr' /\
    exists pre, tr' = pre ++ [Stream.SinkLog INFO Stream.msg_done]) \/
   (r = -1 /\ Stream.written tr' < size /\
    exists pre wfd off count result errno,
      tr' = pre ++ [Stream.WriteCall wfd off count result errno;
                    Stream.SinkLog ERROR Stream.msg_error] /\
      result < 0 /\ errno <> Stream.EINTR) \/
   (r < 0 /\ Stream.written tr' < size /\
    exists pre cfd, tr' = pre ++ [Stream.ConnTcp r cfd])).
Proof.
  assert (Hdone : forall size total tr,
    Stream.written tr = total -> Sink.contiguous size 0 tr = true ->
    (total <? size) = false ->
    Sink.contiguous size 0 (tr ++ [Stream.SinkLog INFO Stream.msg_done]) = true /\
    size <= Stream.written (tr ++ [Stream.SinkLog INFO Stream.msg_done])).
  { intros size total tr Hw Hc L. apply Z.ltb_ge in L.
    rewrite contiguous_app, Hc, written_app. cbn. split; [reflexivity | lia]. }
  assert (Hconn : forall size total tr ret cfd,
    Stream.written tr = total -> Sink.contiguous size 0 tr = true ->
    Stream.written (tr ++ [Stream.ConnTcp ret cfd]) = total /\
    Sink.contiguous size 0 (tr ++ [Stream.ConnTcp ret cfd]) = true).
  { intros size total tr ret cfd Hw Hc.
    rewrite contiguous_app, Hc, written_app. cbn. split; [lia | reflexivity]. }
  assert (Hwrite : forall size total tr wfd result errno,
    Stream.written tr = total -> Sink.contiguous size 0 tr = true ->
    (total <? size) = true ->
    let tr2 := tr ++ [Stream.WriteCall wfd total (size - total) result errno] in
    Stream.written tr2 = total + (if result <? 0 then 0 else result) /\
    Sink.contiguous size 0 tr2 = true).
  { intros size total tr wfd result errno Hw Hc L. cbv zeta.
    rewrite contiguous_app, Hc, written_app, Hw. cbn.
    rewrite L, !Z.eqb_refl. split; [lia | reflexivity]. }
  induction ws as [|[result errno] ws IH];
    intros conns tcpfd total size tr r fd tr' Hw Hc H;
    cbn [Stream.stream_loop] in H;
    destruct (total <? size) eqn:L.
  - (* no answer of [write] left *)
    destruct (tcpfd <? 0).
    + destruct conns as [|[ret cfd] conns']; [discriminate|].
      destruct (ret <? 0) eqn:R; [|discriminate]. invert_some.
      destruct (Hconn size _ tr r fd eq_refl Hc) as [W C].
      split; [exact C|]. right; right. apply Z.ltb_lt in R, L.
      split; [exact R|]. split; [lia|]. eauto.
    + cbn [Z.ltb Z.compare] in H. discriminate.
  - invert_some. destruct (Hdone size _ tr eq_refl Hc L) as [C W].
    split; [exact C|]. left. split; [reflexivity|]. split; [exact W|]. eauto.
  - assert (Hgo : forall conns' cfd tr1,
        Stream.written tr1 = total -> Sink.contiguous size 0 tr1 = true ->
        (let tr2 := tr1 ++ [Stream.WriteCall cfd total (size - total) result errno] in
         if result <? 0
         then if errno =? Stream.EINTR
              then Stream.stream_loop ws conns' cfd total size tr2
              else Some (-1, cfd, tr2 ++ [Stream.SinkLog ERROR Stream.msg_error])
         else Stream.stream_loop ws conns' cfd (total + result) size tr2)
          = Some (r, fd, tr') ->
        Sink.contiguous size 0 tr' = true /\
        ((r = 0 /\ size <= Stream.written tr' /\
          exists pre, tr' = pre ++ [Stream.SinkLog INFO Stream.msg_done]) \/
         (r = -1 /\ Stream.written tr' < size /\
          exists pre wfd off count result errno,
            tr' = pre ++ [Stream.WriteCall wfd off count result errno;
                          Stream.SinkLog ERROR Stream.msg_error] /\
            result < 0 /\ errno <> Stream.EINTR) \/
         (r < 0 /\ Stream.written tr' < size /\
          exists pre cfd, tr' = pre ++ [Stream.ConnTcp r cfd]))).
    { intros conns' cfd tr1 Hw1 Hc1 Hrun. cbv zeta in Hrun.
      destruct (Hwrite size total tr1 cfd result errno Hw1 Hc1 L) as [W2 C2].
      cbv zeta in W2, C2.
      destruct (result <? 0) eqn:Rneg; [destruct (errno =? Stream.EINTR) eqn:Ei|].
      - apply IH in Hrun; [exact Hrun | lia | exact C2].
      - invert_some. split.
        + rewrite contiguous_app, C2. reflexivity.
        + right; left. split; [reflexivity|]. split.
          * rewrite written_app, W2. cbn. apply Z.ltb_lt in L. lia.
          * do 6 eexists. rewrite <- app_assoc. split; [reflexivity|].
            apply Z.ltb_lt in Rneg. apply Z.eqb_neq in Ei. auto.
      - apply IH in Hrun; [exact Hrun | exact W2 | exact C2]. }
    destruct (tcpfd <? 0).
    + destruct conns as [|[ret cfd] conns']; [discriminate|].
      destruct (Hconn size _ tr ret cfd Hw Hc) as [W C].
      destruct (ret <? 0) eqn:R.
      * invert_some. split; [exact C|]. right; right.
        apply Z.ltb_lt in R, L. split; [exact R|]. split; [lia|]. eauto.
      * apply (Hgo conns' cfd _ W C H).
    + cbn [Z.ltb Z.compare] in H. apply (Hgo conns tcpfd tr Hw Hc H).
  - invert_some. destruct (Hdone size _ tr eq_refl Hc L) as [C W].
    split; [exact C|]. left. split; [reflexivity|]. split; [exact W|]. eauto.
Qed.

(** X9: [stream_pkt] sends the frame without gaps and without repeats:
    each [write] it makes starts at the number of bytes the socket has
    accepted so far and asks for everything that is left, and it makes no
    [write] once [size] bytes have been accepted. *)
Theorem stream_pkt_offsets_contiguous
    (writes conns : Stream.answers) (tcpfd size r fd : Z)
    (tr : list Stream.sock_event) :
  Stream.stream_pkt writes conns tcpfd size = Some (r, fd, tr) ->
  Sink.contiguous size 0 tr = true.
Proof.
  intro H. unfold Stream.stream_pkt in H.
  apply stream_loop_outcome in H; [apply H | reflexivity | reflexivity].
Qed.

Lemma stream_pkt_offsets_contiguous_witness :
  Sink.contiguous 7 0
    [ Stream.ConnTcp 0 7;
      Stream.WriteCall 7 0 7 (-1) Stream.EINTR;
      Stream.WriteCall 7 0 7 3 0;
      Stream.WriteCall 7 3 4 (-1) 32;
      Stream.SinkLog ERROR Stream.msg_error ] = true.
Proof.
  apply (stream_pkt_offsets_contiguous
           [(-1, Stream.EINTR); (3, 0); (-1, 32); (4, 0)] [(0, 7)] (-1) 7 (-1) 7).
  reflexivity.
Defined.

(** X10: the three ways in which [stream_pkt] returns.  It answers 0 after
    logging the transmission, and then at least [size] bytes were accepted;
    it answers -1 right after a [write] that failed with an error other
    than EINTR, which it logs; or it answers the negative value of a failed
    [conn_tcp], which it does not log.  In both failures fewer than [size]
    bytes were accepted, and what was accepted before stays sent. *)
Theorem stream_pkt_return_value
    (writes conns : Stream.answers) (tcpfd size r fd : Z)
    (tr : list Stream.sock_event) :
  Stream.stream_pkt writes conns tcpfd size = Some (r, fd, tr) ->
  (r = 0 /\ size <= Stream.written tr /\
   exists pre, tr = pre ++ [Stream.SinkLog INFO Stream.msg_done]) \/
  (r = -1 /\ Stream.written tr < size /\
   exists pre wfd off count result errno,
     tr = pre ++ [Stream.WriteCall wfd off count result errno;
                  Stream.SinkLog ERROR Stream.msg_error] /\
     result < 0 /\ errno <> Stream.EINTR) \/
  (r < 0 /\ Stream.written tr < size /\
   exists pre cfd, tr = pre ++ [Stream.ConnTcp r cfd]).
Proof.
  intro H. unfold Stream.stream_pkt in H.
  apply stream_loop_outcome in H; [apply H | reflexivity | reflexivity].
Qed.

Lemma stream_pkt_return_value_witness :
  Stream.written
    [ Stream.ConnTcp 0 7;
      Stream.WriteCall 7 0 7 3 0;
      Stream.WriteCall 7 3 4 (-1) 32;
      Stream.SinkLog ERROR Stream.msg_error ] < 7.
Proof.
  destruct (stream_pkt_return_value [(3, 0); (-1, 32); (4, 0)] [(0, 7)] (-1) 7 (-1) 7
              [ Stream.ConnTcp 0 7;
                Stream.WriteCall 7 0 7 3 0;
                Stream.WriteCall 7 3 4 (-1) 32;
                Stream.SinkLog ERROR Stream.msg_error ] eq_refl)
    as [(E & _)|[(_ & H & _)|(_ & H & _)]]; [discriminate E | exact H | exact H].
Defined.

(** X11: the loop of [stream_pkt] has no bound on its retries: as long as
    every [write] on the connected socket accepts nothing or is
    interrupted, the call does not return, however many such answers
    there are. *)
Theorem stream_pkt_retries_without_bound
    (writes conns : Stream.answers) (tcpfd size : Z) :
  0 <= tcpfd -> 0 < size ->
  forallb Sink.no_progress writes = true ->
  Stream.stream_pkt writes conns tcpfd size = None.
Proof.
  intros Hfd Hsize. unfold Stream.stream_pkt.
  generalize (@nil Stream.sock_event) as tr.
  induction writes as [|[result errno] ws IH]; intros tr Hall.
  - cbn [Stream.stream_loop].
    destruct (0 <? size) eqn:L; [|apply Z.ltb_ge in L; lia].
    destruct (tcpfd <? 0) eqn:F; [apply Z.ltb_lt in F; lia|]. reflexivity.
  - cbn [forallb] in Hall. apply andb_true_iff in Hall. destruct Hall as [Hn Hall].
    rewrite stream_loop_connected by assumption. cbv zeta.
    unfold Sink.no_progress in Hn. cbn [fst snd] in Hn.
    apply orb_true_iff in Hn. destruct Hn as [Hz|Hi].
    + apply Z.eqb_eq in Hz. subst result. cbn [Z.ltb Z.compare].
      rewrite Z.add_0_r. apply IH. exact Hall.
    + apply andb_true_iff in Hi. destruct Hi as [Hneg Hei].
      rewrite Hneg, Hei. apply IH. exact Hall.
Qed.

Lemma stream_pkt_retries_without_bound_witness :
  Stream.stream_pkt (repeat (0, 0) 50 ++ repeat (-1, Stream.EINTR) 50) [] 7 1400 = None.
Proof.
  apply stream_pkt_retries_without_bound; [lia | lia | vm_compute; reflexivity].
Defined.

(** ** The start datagram *)

Lemma le_unsigned_bound (bs : list byte) :
  0 <= Int64.le_unsigned bs < 256 ^ Z.of_nat (length bs).
Proof.
  induction bs as [|b bs IH]; cbn [Int64.le_unsigned length]; [cbn; lia|].
  rewrite Nat2Z.inj_succ, Z.pow_succ_r by lia.
  pose proof (Byte.to_N_bounded b) as Hb.
  assert (0 <= Z.of_N (Byte.to_N b) <= 255) by lia. lia.
Qed.

Lemma le_unsigned_inj (a : list byte) :
  forall b, length a = length b ->
  Int64.le_unsigned a = Int64.le_unsigned b -> a = b.
Proof.
  induction a as [|x a IH]; intros [|y b] Hlen H; try discriminate; [reflexivity|].
  cbn [Int64.le_unsigned] in H. injection Hlen as Hlen.
  pose proof (Byte.to_N_bounded x) as Hx. pose proof (Byte.to_N_bounded y) as Hy.
  assert (Hxy : Z.of_N (Byte.to_N x) = Z.of_N (Byte.to_N y)
                /\ Int64.le_unsigned a = Int64.le_unsigned b) by lia.
  destruct Hxy as [Hb Hr]. f_equal.
  - apply byte_val_inj. exact Hb.
  - apply IH; assumption.
Qed.

Lemma wrap64_unsigned (x : Z) :
  0 <= x < Int64.modulus ->
  Int64.wrap64 x = if x <? Int64.half_modulus then x else x - Int64.modulus.
Proof.
  unfold Int64.wrap64, Int64.half_modulus, Int64.modulus. intro H.
  destruct (x <? 2 ^ 63) eqn:L.
  - apply Z.ltb_lt in L. rewrite Z.mod_small by lia. lia.
  - apply Z.ltb_ge in L.
    replace (x + 2 ^ 63) with (x - 2 ^ 63 + 1 * 2 ^ 64) by lia.
    rewrite Z.mod_add by lia. rewrite Z.mod_small by lia. lia.
Qed.

Lemma wrap64_range (x : Z) : Int64.in_range (Int64.wrap64 x).
Proof.
  unfold Int64.in_range, Int64.wrap64, Int64.min_signed, Int64.max_signed,
    Int64.half_modulus, Int64.modulus.
  pose proof (Z.mod_pos_bound (x + 2 ^ 63) (2 ^ 64)). lia.
Qed.

(** X12: the timestamp that [io_signal_handler] stores for a datagram of
    eight bytes is a value of an [int64_t], and it determines the datagram:
    two start datagrams that leave the same timestamp are the same eight
    bytes. *)
Theorem start_datagram_decoding (d1 d2 : list byte) (w : world) :
  length d1 = 8%nat -> length d2 = 8%nat ->
  Int64.in_range (timestamp (Main.io_signal_handler Main.SIGIO (Some d1) w)) /\
  (timestamp (Main.io_signal_handler Main.SIGIO (Some d1) w)
     = timestamp (Main.io_signal_handler Main.SIGIO (Some d2) w) ->
   d1 = d2).
Proof.
  intros H1 H2.
  assert (Hts : forall d, length d = 8%nat ->
            timestamp (Main.io_signal_handler Main.SIGIO (Some d) w)
            = Int64.wrap64 (Int64.le_unsigned d)).
  { intros d Hd. rewrite io_handler_eight by lia.
    change (timestamp _) with (Int64.of_le_bytes (firstn 8 d)).
    rewrite of_le_bytes_firstn. unfold Int64.of_le_bytes.
    rewrite firstn_all2 by lia. reflexivity. }
  rewrite !Hts by assumption. clear Hts.
  split; [apply wrap64_range|].
  pose proof (le_unsigned_bound d1) as B1. pose proof (le_unsigned_bound d2) as B2.
  rewrite H1 in B1. rewrite H2 in B2.
  change (256 ^ Z.of_nat 8) with Int64.modulus in B1, B2.
  rewrite !wrap64_unsigned by assumption.
  intro E. apply le_unsigned_inj; [congruence|].
  unfold Int64.modulus, Int64.half_modulus in *.
  destruct (Z.ltb_spec (Int64.le_unsigned d1) (2 ^ 63));
    destruct (Z.ltb_spec (Int64.le_unsigned d2) (2 ^ 63));
    change (2 ^ 64) with 18446744073709551616 in *;
    change (2 ^ 63) with 9223372036854775808 in *; lia.
Qed.

Lemma start_datagram_decoding_witness :
  Int64.in_range
    (timestamp (Main.io_signal_handler Main.SIGIO (Some Sample.start_dgram) Wf.busy)).
Proof.
  apply (start_datagram_decoding Sample.start_dgram Sample.start_dgram Wf.busy);
    reflexivity.
Defined.



(** ** The constructor of the camera handler *)

Lemma bind_done {A B} (m : Construct.M A) (f : A -> Construct.M B)
    (tr : list Construct.call) (b : B) (tr' : list Construct.call) :
  Construct.bind m f tr = (Construct.Done b, tr') ->
  exists a tr1, m tr = (Construct.Done a, tr1) /\ f a tr1 = (Construct.Done b, tr').
Proof.
  unfold Construct.bind. destruct (m tr) as [[a|what|] tr1]; intro H;
    try discriminate. eauto.
Qed.

Lemma require_done (ok : bool) (err : string) (tr : list Construct.call)
    (u : unit) (tr' : list Construct.call) :
  Construct.require ok err tr = (Construct.Done u, tr') -> ok = true /\ tr' = tr.
Proof.
  unfold Construct.require, Construct.ret, Construct.throw.
  destruct ok; intro H; [|discriminate]. injection H as _ <-. auto.
Qed.

Lemma emit_done (c : Construct.call) (tr : list Construct.call)
    (u : unit) (tr' : list Construct.call) :
  Construct.emit c tr = (Construct.Done u, tr') -> tr' = tr ++ [c].
Proof. unfold Construct.emit. intro H. injection H as _ <-. reflexivity. Qed.

Ltac invert_done :=
  repeat match goal with
         | H : Construct.bind _ _ _ = (Construct.Done _, _) |- _ =>
             apply bind_done in H; destruct H as (? & ? & ? & H)
         | H : Construct.require _ _ _ = (Construct.Done _, _) |- _ =>
             apply require_done in H; destruct H as [? ?]
         | H : Construct.emit _ _ = (Construct.Done _, _) |- _ =>
             apply emit_done in H
         end.

Lemma wrap32_range (x : Z) : 0 <= Construct.wrap32 x < 2 ^ 32.
Proof. unfold Construct.wrap32. apply Z.mod_pos_bound. reflexivity. Qed.

Lemma frame_bytes_nonneg (cfg : Construct.config_parser) :
  0 <= Construct.frame_bytes cfg.
Proof. apply wrap32_range. Qed.

Lemma fresh_requests_S (from : Z) (n : nat) :
  Construct.fresh_requests from (S n)
    = mkRequest from (Some from) RequestPending
        :: Construct.fresh_requests (from + 1) n.
Proof.
  unfold Construct.fresh_requests. cbn [seq map]. change (Z.of_nat 0) with 0.
  rewrite Z.add_0_r. f_equal. rewrite <- seq_shift, map_map. apply map_ext.
  intro i. rewrite Nat2Z.inj_succ. f_equal; [|f_equal]; lia.
Qed.

(** What the loop over the buffers has built when it ends normally. *)
Lemma setup_buffers_done (cfg : Construct.config_parser)
    (bufs : list Construct.frame_buffer) :
  forall (k : Z) (reqs : list request) (maps : list (list byte))
         (tr : list Construct.call)
         (reqs' : list request) (maps' : list (list byte)) (tr' : list Construct.call),
  Construct.setup_buffers cfg bufs k reqs maps tr = (Construct.Done (reqs', maps'), tr') ->
  reqs' = reqs ++ Construct.fresh_requests k (length bufs) /\
  (exists datas,
     maps' = maps ++ datas /\ length datas = length bufs /\
     Forall (fun d => Z.of_nat (length d) = Construct.frame_bytes cfg) datas) /\
  Forall (fun b => exists rest,
            Construct.planes b
              = Construct.y_plane_bytes cfg :: Construct.u_plane_bytes cfg
                  :: Construct.u_plane_bytes cfg :: rest) bufs.
Proof.
  induction bufs as [|b rest IH]; intros k reqs maps tr reqs' maps' tr' H;
    cbn [Construct.setup_buffers] in H.
  - unfold Construct.ret in H. injection H as <- <- <-.
    unfold Construct.fresh_requests. cbn. rewrite app_nil_r.
    split; [reflexivity|]. split; [|constructor].
    exists []. rewrite app_nil_r. auto.
  - invert_done.
    destruct (Construct.planes b) as [|yl [|ul [|vl more]]] eqn:P; try discriminate H.
    invert_done.
    destruct (Construct.mmap_ret b) as [mem|]; [|discriminate H].
    apply IH in H. destruct H as (Hr & (datas & Hm & Hl & Hf) & Hp).
    split; [|split].
    + cbn [length]. rewrite Hr, <- app_assoc, fresh_requests_S. reflexivity.
    + exists (map mem (seq 0 (Z.to_nat (Construct.frame_bytes cfg))) :: datas).
      split; [rewrite Hm, <- app_assoc; reflexivity|].
      split; [cbn [length]; congruence|].
      constructor; [|exact Hf].
      rewrite length_map, length_seq. pose proof (frame_bytes_nonneg cfg). lia.
    + constructor; [|exact Hp].
      match goal with
      | E : negb _ = true |- _ =>
          apply negb_true_iff in E; apply orb_false_iff in E; destruct E as [E Ev];
          apply orb_false_iff in E; destruct E as [Ey Eu];
          apply negb_false_iff in Ey, Eu, Ev; apply Z.eqb_eq in Ey, Eu, Ev
      end.
      subst yl ul vl. eauto.
Qed.

(** The handler of a constructor that returns. *)
Lemma construct_done (cfg : Construct.config_parser) (d : Construct.libcamera)
    (tr : list Construct.call) (c : camera_handler_t) (tr' : list Construct.call) :
  Construct.construct cfg d tr = (Construct.Done c, tr') ->
  exists datas,
    c = {| frame_buffers_ := Construct.FRAME_BUFFERS cfg;
           frame_bytes_ := Construct.frame_bytes cfg;
           requests_ := Construct.fresh_requests 0 (length (Construct.buffers d));
           mmap_buffers_ := datas;
           frame_bytes_buffer_ :=
             map (Construct.malloc_junk d)
                 (seq 0 (Z.to_nat (Construct.pool_bytes cfg)));
           pool_base := Construct.malloc_ret d;
           next_req_idx_ := 0;
           frame_bytes_offset_ := 0 |} /\
    length datas = length (Construct.buffers d) /\
    Forall (fun m => Z.of_nat (length m) = Construct.frame_bytes cfg) datas /\
    Forall (fun b => exists rest,
              Construct.planes b
                = Construct.y_plane_bytes cfg :: Construct.u_plane_bytes cfg
                    :: Construct.u_plane_bytes cfg :: rest) (Construct.buffers d) /\
    Construct.malloc_ret d <> 0.
Proof.
  intro H. unfold Construct.construct in H. invert_done.
  match goal with
  | S : Construct.setup_buffers _ _ _ _ _ _ = (Construct.Done ?rm, _) |- _ =>
      destruct rm as [reqs maps]; apply setup_buffers_done in S;
      destruct S as (Hr & (datas & Hm & Hl & Hf) & Hp)
  end.
  unfold Construct.ret in H. injection H as <- _. cbn [fst snd app] in *.
  subst reqs maps. exists datas.
  split; [reflexivity|]. split; [exact Hl|]. split; [exact Hf|]. split; [exact Hp|].
  match goal with
  | E : negb (Construct.malloc_ret d =? 0) = true |- _ =>
      apply negb_true_iff in E; apply Z.eqb_neq in E; exact E
  end.
Qed.

Lemma fresh_requests_length (from : Z) (n : nat) :
  length (Construct.fresh_requests from n) = n.
Proof. unfold Construct.fresh_requests. rewrite length_map, length_seq. reflexivity. Qed.

(** X14: a camera handler whose constructor returns has the layout its
    methods rely on, provided FRAME_BUFFERS is positive and the allocator
    handed out at least one buffer (neither is checked by the
    constructor): one request per buffer, with the cookies 0, 1, 2, ... in
    order, each indexing its mapped buffer of [frame_bytes_] bytes; a pool
    of [frame_bytes_ * frame_buffers_] bytes at a non-null address; both
    cursors at 0. *)
Theorem construct_establishes_layout
    (cfg : Construct.config_parser) (d : Construct.libcamera)
    (tr : list Construct.call) (c : camera_handler_t) (tr' : list Construct.call) :
  Construct.construct cfg d tr = (Construct.Done c, tr') ->
  0 < Construct.FRAME_BUFFERS cfg ->
  Construct.buffers d <> [] ->
  0 <= Construct.malloc_ret d ->
  Wf.layout_ok c /\
  requests_ c = Construct.fresh_requests 0 (length (Construct.buffers d)) /\
  length (mmap_buffers_ c) = length (Construct.buffers d) /\
  next_req_idx_ c = 0 /\ frame_bytes_offset_ c = 0.
Proof.
  intros H HN Hb Ha.
  destruct (construct_done _ _ _ _ _ H) as (datas & -> & Hl & Hf & _ & Hm).
  cbn [requests_ mmap_buffers_ next_req_idx_ frame_bytes_offset_].
  split; [|auto].
  pose proof (frame_bytes_nonneg cfg) as Hfb.
  unfold Wf.layout_ok.
  cbn [frame_buffers_ frame_bytes_ requests_ mmap_buffers_ frame_bytes_buffer_
       pool_base next_req_idx_ frame_bytes_offset_].
  split; [exact HN|]. split; [exact Hfb|]. split; [lia|]. split.
  { rewrite fresh_requests_length. destruct (Construct.buffers d); [congruence|].
    cbn [length]. lia. }
  split.
  { unfold Camera.valid_cookies. cbn [requests_ mmap_buffers_].
    apply forallb_forall. intros r Hin. unfold Construct.fresh_requests in Hin.
    apply in_map_iff in Hin. destruct Hin as (i & <- & Hi). apply in_seq in Hi.
    cbn [cookie]. rewrite Hl. apply andb_true_iff. split.
    - apply Z.leb_le. lia.
    - apply Z.ltb_lt. lia. }
  split.
  { rewrite length_map, length_seq. unfold Construct.pool_bytes. nia. }
  split; [exact Hf | lia].
Qed.

Lemma construct_establishes_layout_witness : Wf.layout_ok Sample.cam0.
Proof.
  apply (construct_establishes_layout Construct.cfg0 Construct.stack0 []
           Sample.cam0
           (snd (Construct.construct Construct.cfg0 Construct.stack0 []))).
  - vm_compute. reflexivity.
  - reflexivity.
  - discriminate.
  - vm_compute. discriminate.
Defined.

Lemma logs_ret {A} (a : A) : Construct.logs_what_it_throws (Construct.ret a).
Proof. intros tr what tr' H. discriminate H. Qed.

Lemma logs_emit (c : Construct.call) : Construct.logs_what_it_throws (Construct.emit c).
Proof. intros tr what tr' H. discriminate H. Qed.

Lemma logs_throw {A} (err : string) : Construct.logs_what_it_throws (@Construct.throw A err).
Proof.
  intros tr what tr' H. unfold Construct.throw in H. injection H as <- <-. eauto.
Qed.

Lemma logs_require (ok : bool) (err : string) :
  Construct.logs_what_it_throws (Construct.require ok err).
Proof. destruct ok; [apply logs_ret | apply logs_throw]. Qed.

Lemma logs_out_of_range {A} : Construct.logs_what_it_throws (@Construct.out_of_range A).
Proof. intros tr what tr' H. discriminate H. Qed.

Lemma logs_bind {A B} (m : Construct.M A) (f : A -> Construct.M B) :
  Construct.logs_what_it_throws m -> (forall a, Construct.logs_what_it_throws (f a)) ->
  Construct.logs_what_it_throws (Construct.bind m f).
Proof.
  intros Hm Hf tr what tr' H. unfold Construct.bind in H.
  destruct (m tr) as [[a|w1|] tr1] eqn:E.
  - apply (Hf a _ _ _ H).
  - injection H as <- <-. apply (Hm _ _ _ E).
  - discriminate H.
Qed.

Ltac logs :=
  repeat first
    [ apply logs_bind; [|intro]
    | apply logs_require | apply logs_emit | apply logs_ret
    | apply logs_throw | apply logs_out_of_range ].

Lemma logs_validation (d : Construct.libcamera) :
  Construct.logs_what_it_throws (Construct.validation d).
Proof.
  unfold Construct.validation.
  destruct (Construct.validate_1st d); destruct (Construct.validate_2nd d); logs.
Qed.

Lemma logs_setup_buffers (cfg : Construct.config_parser)
    (bufs : list Construct.frame_buffer) :
  forall k reqs maps,
  Construct.logs_what_it_throws (Construct.setup_buffers cfg bufs k reqs maps).
Proof.
  induction bufs as [|b rest IH]; intros k reqs maps; cbn [Construct.setup_buffers].
  - logs.
  - logs. destruct (Construct.planes b) as [|yl [|ul [|vl more]]]; logs.
    destruct (Construct.mmap_ret b); [apply IH | logs].
Qed.

(** X15: whenever the constructor throws, the last thing it did was to
    log, at level ERROR, the very message it throws. *)
Theorem construct_logs_what_it_throws
    (cfg : Construct.config_parser) (d : Construct.libcamera)
    (tr : list Construct.call) (what : string) (tr' : list Construct.call) :
  Construct.construct cfg d tr = (Construct.Thrown what, tr') ->
  exists pre, tr' = pre ++ [Construct.LogError what].
Proof.
  revert tr what tr'. change (Construct.logs_what_it_throws (Construct.construct cfg d)).
  unfold Construct.construct.
  repeat first
    [ apply logs_validation | apply logs_setup_buffers
    | apply logs_bind; [|intro]
    | apply logs_require | apply logs_emit | apply logs_ret ].
Qed.

Lemma construct_logs_what_it_throws_witness :
  exists pre,
    snd (Construct.construct Construct.cfg0
           (Construct.with_validate_1st Construct.Invalid Construct.stack0) [])
      = pre ++ [Construct.LogError Construct.err_invalid].
Proof.
  apply (construct_logs_what_it_throws Construct.cfg0
           (Construct.with_validate_1st Construct.Invalid Construct.stack0) []).
  vm_compute. reflexivity.
Defined.

Lemma validation_done (d : Construct.libcamera) (tr : list Construct.call)
    (u : unit) (tr' : list Construct.call) :
  Construct.validation d tr = (Construct.Done u, tr') ->
  Construct.validate_1st d <> Construct.Invalid /\
  Construct.validate_2nd d <> Construct.Adjusted.
Proof.
  unfold Construct.validation.
  destruct (Construct.validate_1st d); destruct (Construct.validate_2nd d);
    intro H; try discriminate H; split; discriminate.
Qed.

Lemma validation_goes (d : Construct.libcamera) (tr : list Construct.call) :
  Construct.validate_1st d <> Construct.Invalid ->
  Construct.validate_2nd d <> Construct.Adjusted ->
  Construct.validation d tr
    = (Construct.Done tt, tr ++ [Construct.Validate; Construct.Validate]).
Proof.
  unfold Construct.validation, Construct.bind, Construct.emit, Construct.ret.
  destruct (Construct.validate_1st d); destruct (Construct.validate_2nd d);
    intros H1 H2; try congruence; rewrite <- app_assoc; reflexivity.
Qed.

Lemma setup_buffers_good (cfg : Construct.config_parser)
    (bufs : list Construct.frame_buffer) :
  forall k reqs maps tr,
  (exists rm tr', Construct.setup_buffers cfg bufs k reqs maps tr
                  = (Construct.Done rm, tr'))
  <-> forallb (Construct.good_buffer cfg) bufs = true.
Proof.
  induction bufs as [|b rest IH]; intros k reqs maps tr;
    cbn [Construct.setup_buffers forallb].
  - split; [reflexivity|]. intros _. unfold Construct.ret. eauto.
  - unfold Construct.good_buffer at 1.
    unfold Construct.bind, Construct.emit, Construct.require, Construct.ret,
      Construct.throw, Construct.out_of_range.
    destruct (Construct.request_made b); cbn [andb negb];
      [|split; [intros (rm & tr' & H); discriminate H | discriminate]].
    destruct (Construct.add_buffer_ret b <? 0); cbn [andb negb];
      [split; [intros (rm & tr' & H); discriminate H | discriminate]|].
    destruct (Construct.planes b) as [|yl [|ul [|vl more]]];
      try (split; [intros (rm & tr' & H); discriminate H | discriminate]).
    destruct (yl =? Construct.y_plane_bytes cfg); cbn [andb negb orb];
      [|split; [intros (rm & tr' & H); discriminate H | discriminate]].
    destruct (ul =? Construct.u_plane_bytes cfg); cbn [andb negb orb];
      [|split; [intros (rm & tr' & H); discriminate H | discriminate]].
    destruct (vl =? Construct.u_plane_bytes cfg); cbn [andb negb orb];
      [|split; [intros (rm & tr' & H); discriminate H | discriminate]].
    destruct (Construct.mmap_ret b) as [mem|]; cbn [andb];
      [|split; [intros (rm & tr' & H); discriminate H | discriminate]].
    apply IH.
Qed.

(** X16: the constructor returns a handler exactly when every call it
    makes is answered well: the camera manager starts, there is a camera
    and it is retrieved and acquired, a configuration is generated, the
    first [validate] does not answer Invalid and the second does not
    answer Adjusted, configuring and allocating succeed, every buffer gets
    its request, is added, has planes of [w*h], [w*h/4] and [w*h/4] bytes
    and is mapped, the camera starts and [malloc] does not return null.
    Nothing else is checked: not FRAME_BUFFERS, not the number of buffers,
    and not an Adjusted answer of the first [validate] nor an Invalid
    answer of the second. *)
Theorem construct_returns_iff_all_good
    (cfg : Construct.config_parser) (d : Construct.libcamera)
    (tr : list Construct.call) :
  (exists c tr', Construct.construct cfg d tr = (Construct.Done c, tr'))
  <-> Construct.all_good cfg d = true.
Proof.
  split.
  - intros (c & tr' & H). unfold Construct.construct in H. invert_done.
    match goal with
    | V : Construct.validation _ _ = _ |- _ =>
        apply validation_done in V; destruct V as [V1 V2]
    end.
    match goal with
    | S : Construct.setup_buffers _ _ _ _ _ _ = _ |- _ =>
        assert (Hb : forallb (Construct.good_buffer cfg) (Construct.buffers d) = true)
          by (eapply setup_buffers_good; eauto)
    end.
    unfold Construct.all_good.
    destruct (Construct.validate_1st d); try congruence;
      destruct (Construct.validate_2nd d); try congruence;
      repeat (apply andb_true_iff; split); assumption || reflexivity.
  - intro G. unfold Construct.all_good in G.
    repeat match goal with
           | H : _ && _ = true |- _ => apply andb_true_iff in H; destruct H
           end.
    assert (V1 : Construct.validate_1st d <> Construct.Invalid)
      by (destruct (Construct.validate_1st d); congruence).
    assert (V2 : Construct.validate_2nd d <> Construct.Adjusted)
      by (destruct (Construct.validate_2nd d); congruence).
    unfold Construct.construct.
    repeat match goal with
           | H : ?b = true |- context [Construct.require ?b _] => rewrite H
           end.
    unfold Construct.bind at 1 2 3 4 5. cbn [Construct.require Construct.ret].
    unfold Construct.bind at 1. rewrite validation_goes by assumption.
    unfold Construct.bind at 1. cbn [Construct.emit].
    unfold Construct.bind at 1 2. cbn [Construct.require Construct.ret].
    unfold Construct.bind at 1.
    match goal with
    | Hb : forallb _ _ = true |- context [Construct.setup_buffers cfg ?bs ?k ?r ?m ?t] =>
        destruct (proj2 (setup_buffers_good cfg bs k r m t) Hb) as (rm & tr1 & ->)
    end.
    unfold Construct.bind, Construct.emit, Construct.require, Construct.ret.
    eauto.
Qed.

Lemma construct_returns_iff_all_good_witness :
  exists c tr',
    Construct.construct Construct.cfg0
      (Construct.with_validate_1st Construct.Adjusted Construct.stack0) []
      = (Construct.Done c, tr').
Proof.
  apply construct_returns_iff_all_good. vm_compute. reflexivity.
Defined.

(** X17: the first of the two calls of [validate] is compared with Invalid
    only, so that an Adjusted answer of it changes nothing: the constructor
    does the same calls, returns the same handler or throws the same
    message as when the first call had answered Valid. *)
Theorem first_validate_adjusted_goes_unnoticed
    (cfg : Construct.config_parser) (d : Construct.libcamera)
    (tr : list Construct.call) :
  Construct.validate_1st d = Construct.Adjusted ->
  Construct.construct cfg d tr
    = Construct.construct cfg (Construct.with_validate_1st Construct.Valid d) tr.
Proof.
  intro H. unfold Construct.construct, Construct.validation.
  cbn [Construct.with_validate_1st Construct.cm_start_ret Construct.cameras
       Construct.camera_got Construct.acquire_ret Construct.generated
       Construct.validate_1st Construct.validate_2nd Construct.configure_ret
       Construct.allocate_ret Construct.buffers Construct.start_ret
       Construct.malloc_ret Construct.malloc_junk].
  rewrite H. reflexivity.
Qed.

Lemma first_validate_adjusted_goes_unnoticed_witness :
  fst (Construct.construct Construct.cfg0
         (Construct.with_validate_1st Construct.Adjusted Construct.stack0) [])
    = Construct.Done Sample.cam0.
Proof.
  rewrite (first_validate_adjusted_goes_unnoticed Construct.cfg0
             (Construct.with_validate_1st Construct.Adjusted Construct.stack0) [])
    by reflexivity.
  vm_compute. reflexivity.
Defined.

(** X18: the sizes the constructor works with.  For a width and a height
    that are not negative and whose frame fits an [unsigned int]
    (3*w*h < 2^33), a constructor that returns has set [frame_bytes_] to
    [w*h + 2*(w*h/4)], which is [w*h*3/2] when 4 divides [w*h] and less
    otherwise; every buffer has planes of [w*h], [w*h/4] and [w*h/4]
    bytes, and every mapping is [frame_bytes_] long. *)
Theorem construct_frame_sizes
    (cfg : Construct.config_parser) (d : Construct.libcamera)
    (tr : list Construct.call) (c : camera_handler_t) (tr' : list Construct.call) :
  let wh := Construct.FRAME_WIDTH cfg * Construct.FRAME_HEIGHT cfg in
  Construct.construct cfg d tr = (Construct.Done c, tr') ->
  0 <= Construct.FRAME_WIDTH cfg -> 0 <= Construct.FRAME_HEIGHT cfg ->
  Construct.FRAME_WIDTH cfg < 2 ^ 32 -> Construct.FRAME_HEIGHT cfg < 2 ^ 32 ->
  3 * wh < 2 ^ 33 ->
  frame_bytes_ c = wh + 2 * (wh / 4) /\
  (wh mod 4 = 0 -> 2 * frame_bytes_ c = 3 * wh) /\
  (wh mod 4 <> 0 -> 2 * frame_bytes_ c < 3 * wh) /\
  Forall (fun b => exists rest, Construct.planes b = wh :: wh / 4 :: wh / 4 :: rest)
         (Construct.buffers d) /\
  Forall (fun m => Z.of_nat (length m) = frame_bytes_ c) (mmap_buffers_ c).
Proof.
  intros wh H Hw Hh Hw32 Hh32 Hfit.
  destruct (construct_done _ _ _ _ _ H) as (datas & -> & _ & Hf & Hp & _).
  cbn [frame_bytes_ mmap_buffers_].
  assert (Hwh : 0 <= wh) by (subst wh; nia).
  change (2 ^ 33) with 8589934592 in Hfit. 
  assert (Ey : Construct.y_plane_bytes cfg = wh).
  { unfold Construct.y_plane_bytes, Construct.wrap32.
    change (2 ^ 32) with 4294967296 in *.
    rewrite (Z.mod_small (Construct.FRAME_WIDTH cfg)) by lia.
    rewrite (Z.mod_small (Construct.FRAME_HEIGHT cfg)) by lia.
    apply Z.mod_small. subst wh. lia. }
  assert (Eu : Construct.u_plane_bytes cfg = wh / 4)
    by (unfold Construct.u_plane_bytes; rewrite Ey; reflexivity).
  pose proof (Z.div_mod wh 4 ltac:(lia)) as DM.
  pose proof (Z.mod_pos_bound wh 4 ltac:(lia)) as MB.
  assert (Ef : Construct.frame_bytes cfg = wh + 2 * (wh / 4)).
  { unfold Construct.frame_bytes, Construct.wrap32. rewrite Ey, Eu.
    change (2 ^ 32) with 4294967296. rewrite Z.mod_small by lia. lia. }
  rewrite Ef in *. rewrite Ey, Eu in Hp.
  split; [reflexivity|]. split; [lia|]. split; [lia|]. split; assumption.
Qed.

Lemma construct_frame_sizes_witness :
  frame_bytes_ Sample.cam0 = 2 * 2 + 2 * (2 * 2 / 4).
Proof.
  apply (construct_frame_sizes Construct.cfg0 Construct.stack0 [] Sample.cam0
           (snd (Construct.construct Construct.cfg0 Construct.stack0 [])));
    try (vm_compute; first [reflexivity | discriminate]).
Defined.

(** ** The calibration tools *)

Lemma scan_spec (cam_conf : Type) (id : cam_conf -> Z) (target : Z)
    (confs : list cam_conf) :
  forall i,
  match Lens.scan cam_conf id target i confs with
  | Some (j, c) =>
      exists pre post,
        confs = pre ++ c :: post /\ id c = target /\
        Forall (fun x => id x <> target) pre /\ j = (i + length pre)%nat
  | None => Forall (fun x => id x <> target) confs
  end.
Proof.
  induction confs as [|c rest IH]; intro i; cbn [Lens.scan]; [constructor|].
  destruct (id c =? target) eqn:E; cbn [negb].
  - apply Z.eqb_eq in E. exists [], rest. cbn. repeat split; auto; lia.
  - apply Z.eqb_neq in E. specialize (IH (S i)).
    destruct (Lens.scan cam_conf id target (S i) rest) as [[j c']|].
    + destruct IH as (pre & post & -> & Hid & Hpre & ->).
      exists (c :: pre), post. cbn [app length]. repeat split; auto; lia.
    + constructor; assumption.
Qed.

(** X19: the lens tool goes on with exactly one camera, and that is the
    first entry of the configuration whose id is the one given on the
    command line: it is copied over the first entry and [cam_count] is set
    to 1, the other entries staying as they are.  It returns -EINVAL when
    the argument count is not 2 and when no entry has the id. *)
Theorem lens_select_first_match (cam_conf : Type) (id : cam_conf -> Z)
    (argc target : Z) (confs : list cam_conf) :
  match Lens.select cam_conf id argc target confs with
  | inr (confs', cam_count) =>
      argc = 2 /\ cam_count = 1 /\
      exists pre c post,
        confs = pre ++ c :: post /\ id c = target /\
        Forall (fun x => id x <> target) pre /\
        hd_error confs' = Some c /\ tl confs' = tl confs /\
        length confs' = length confs
  | inl code =>
      code = - Lens.EINVAL /\
      (argc = 2 -> Forall (fun x => id x <> target) confs)
  end.
Proof.
  unfold Lens.select. destruct (argc =? 2) eqn:A.
  - apply Z.eqb_eq in A. pose proof (scan_spec cam_conf id target confs 0) as S.
    destruct (Lens.scan cam_conf id target 0 confs) as [[j c]|].
    + destruct S as (pre & post & E & Hid & Hpre & _).
      split; [exact A|]. split; [reflexivity|]. exists pre, c, post.
      split; [exact E|]. split; [exact Hid|]. split; [exact Hpre|].
      destruct confs as [|c0 rest]; [destruct pre; discriminate E|].
      cbn. auto.
    + auto.
  - apply Z.eqb_neq in A. split; [reflexivity|]. intro; contradiction.
Qed.

Lemma lens_fetched_app (a b : list Lens.action) :
  Lens.fetched (a ++ b) = Lens.fetched a ++ Lens.fetched b.
Proof.
  induction a as [|x a IH]; cbn; [reflexivity|].
  destruct x as [[f|]| | | | | |]; cbn; rewrite IH; reflexivity.
Qed.

Lemma lens_released_app (a b : list Lens.action) :
  Lens.released (a ++ b) = Lens.released a ++ Lens.released b.
Proof.
  induction a as [|x a IH]; cbn; [reflexivity|].
  destruct x; cbn; rewrite IH; reflexivity.
Qed.

Lemma lens_tried_app (a b : list Lens.action) :
  Lens.tried (a ++ b) = Lens.tried a ++ Lens.tried b.
Proof.
  induction a as [|x a IH]; cbn; [reflexivity|].
  destruct x; cbn; rewrite IH; reflexivity.
Qed.

Lemma lens_misses_app (a b : list Lens.action) :
  Lens.misses (a ++ b) = (Lens.misses a + Lens.misses b)%nat.
Proof.
  induction a as [|x a IH]; cbn; [reflexivity|].
  destruct x; cbn; rewrite IH; reflexivity.
Qed.

Lemma lens_body_accounting (cooldown : Z) (t : Lens.turn) (s : Lens.state) :
  length (Lens.fetched (Lens.done s))
    = (length (Lens.released (Lens.done s)) + Lens.misses (Lens.done s))%nat ->
  length (Lens.fetched (Lens.done (Lens.body cooldown t s)))
    = (length (Lens.released (Lens.done (Lens.body cooldown t s)))
       + Lens.misses (Lens.done (Lens.body cooldown t s)))%nat.
Proof.
  intro H. unfold Lens.body.
  destruct t as [|f found st]; [|destruct (Lens.on_cooldown s);
    [destruct (_ >=? _)|destruct found]];
    cbn [Lens.done negb];
    rewrite lens_fetched_app, lens_released_app, lens_misses_app, !length_app;
    cbn; lia.
Qed.

(** X20: in the lens tool a frameset in which no corners are found is not
    handed back: at any point of the loop the framesets taken from the
    filled queue are as many as those put on the empty queue plus the
    tries that found no corners, and every try either missed or was
    handed back. *)
Theorem lens_missed_framesets_are_not_released
    (cooldown : Z) (turns : list Lens.turn) :
  let tr := Lens.done (Lens.loop cooldown turns Lens.init) in
  length (Lens.fetched tr) = (length (Lens.released tr) + Lens.misses tr)%nat /\
  (Lens.misses tr <= length (Lens.tried tr))%nat.
Proof.
  cbv zeta.
  assert (G : forall s,
    length (Lens.fetched (Lens.done s))
      = (length (Lens.released (Lens.done s)) + Lens.misses (Lens.done s))%nat /\
    (Lens.misses (Lens.done s) <= length (Lens.tried (Lens.done s)))%nat ->
    length (Lens.fetched (Lens.done (Lens.loop cooldown turns s)))
      = (length (Lens.released (Lens.done (Lens.loop cooldown turns s)))
         + Lens.misses (Lens.done (Lens.loop cooldown turns s)))%nat /\
    (Lens.misses (Lens.done (Lens.loop cooldown turns s))
       <= length (Lens.tried (Lens.done (Lens.loop cooldown turns s))))%nat).
  { induction turns as [|t rest IH]; intros s H; cbn [Lens.loop]; [exact H|].
    destruct (Lens.calibration_complete s); [exact H|].
    apply IH. split; [apply lens_body_accounting; apply H|].
    destruct H as [_ H]. unfold Lens.body.
    destruct t as [|f found st]; [|destruct (Lens.on_cooldown s);
      [destruct (_ >=? _)|destruct found]];
      cbn [Lens.done negb];
      rewrite lens_tried_app, lens_misses_app, !length_app; cbn; lia. }
  apply G. cbn. lia.
Qed.

Lemma lens_cooldown_run (cooldown : Z) (fs : list (Z * (bool * bool))) :
  0 <= cooldown < 2 ^ 32 ->
  forall s,
  Lens.on_cooldown s = true -> Lens.calibration_complete s = false ->
  0 <= Lens.cooldown_counter s < Z.max 1 cooldown ->
  Lens.cooldown_counter s + Z.of_nat (length fs) <= Z.max 1 cooldown ->
  let s' := Lens.loop cooldown (Lens.arrivals fs) s in
  Lens.tried (Lens.done s') = Lens.tried (Lens.done s) /\
  Lens.released (Lens.done s') = Lens.released (Lens.done s) ++ map fst fs /\
  Lens.on_cooldown s'
    = (Lens.cooldown_counter s + Z.of_nat (length fs) <? Z.max 1 cooldown) /\
  Lens.calibration_complete s' = false.
Proof.
  intro Hc. change (2 ^ 32) with 4294967296 in Hc.
  induction fs as [|f rest IH]; intros s Hon Hnc Hcnt Hlen; cbv zeta.
  - cbn. rewrite app_nil_r, Hon, Z.add_0_r.
    destruct (Z.ltb_spec (Lens.cooldown_counter s) (Z.max 1 cooldown)); [auto | lia].
  - cbn [Lens.arrivals map Lens.loop]. rewrite Hnc. fold (Lens.arrivals rest).
    cbn [length] in Hlen. rewrite Nat2Z.inj_succ in Hlen.
    assert (W : Construct.wrap32 (Lens.cooldown_counter s + 1)
                = Lens.cooldown_counter s + 1).
    { unfold Construct.wrap32. change (2 ^ 32) with 4294967296.
      apply Z.mod_small. lia. }
    assert (B : Lens.body cooldown
                  (Lens.Frameset (fst f) (fst (snd f)) (snd (snd f))) s
                = if Lens.cooldown_counter s + 1 >=? cooldown
                  then Lens.mkState 0 false false
                         (Lens.done s ++ [Lens.Dequeue (Some (fst f));
                                          Lens.Release (fst f)])
                  else Lens.mkState (Lens.cooldown_counter s + 1) true false
                         (Lens.done s ++ [Lens.Dequeue (Some (fst f));
                                          Lens.Release (fst f)])).
    { unfold Lens.body. rewrite Hon, W, Hnc. reflexivity. }
    rewrite B. clear B.
    destruct (Z.geb_spec (Lens.cooldown_counter s + 1) cooldown) as [G|G].
    + assert (rest = []) by (destruct rest; [reflexivity | cbn [length] in Hlen; lia]).
      subst rest. cbn [Lens.arrivals map Lens.loop Lens.done Lens.on_cooldown
                       Lens.calibration_complete length].
      rewrite lens_tried_app, lens_released_app. cbn. rewrite app_nil_r.
      split; [reflexivity|]. split; [reflexivity|]. split; [|reflexivity].
      symmetry. apply Z.ltb_ge. lia.
    + match goal with |- context [Lens.loop cooldown _ ?s1] => set (s1' := s1) end.
      specialize (IH s1').
      destruct IH as (A & B & C & D); try reflexivity.
      * subst s1'. cbn. lia.
      * subst s1'. cbn. lia.
      * cbv zeta in A, B, C, D. rewrite A, B, C, D. subst s1'.
        cbn [Lens.done Lens.cooldown_counter length map].
        rewrite lens_tried_app, lens_released_app. cbn.
        rewrite app_nil_r, <- app_assoc. cbn.
        split; [reflexivity|]. split; [reflexivity|]. split; [|reflexivity].
        f_equal. lia.
Qed.

(** X21: after a frameset in which the corners were found, the lens tool
    hands back the following framesets without looking at them, and it
    does so for exactly max(1, cooldown) of them: fewer leave it on
    cooldown, and with that many the cooldown is over, so that the next
    frameset is tried.  (With [cooldown = fps / 3 = 0] one frameset is
    still skipped.) *)
Theorem lens_cooldown_skips (cooldown : Z) (fs : list (Z * (bool * bool)))
    (s : Lens.state) :
  0 <= cooldown < 2 ^ 32 ->
  Lens.on_cooldown s = true -> Lens.cooldown_counter s = 0 ->
  Lens.calibration_complete s = false ->
  Z.of_nat (length fs) <= Z.max 1 cooldown ->
  let s' := Lens.loop cooldown (Lens.arrivals fs) s in
  Lens.tried (Lens.done s') = Lens.tried (Lens.done s) /\
  Lens.released (Lens.done s') = Lens.released (Lens.done s) ++ map fst fs /\
  Lens.on_cooldown s' = (Z.of_nat (length fs) <? Z.max 1 cooldown).
Proof.
  intros Hc Hon H0 Hnc Hlen.
  destruct (lens_cooldown_run cooldown fs Hc s Hon Hnc) as (A & B & C & _);
    [lia | lia |].
  cbv zeta in *. rewrite H0 in C. cbn [Z.add] in C. auto.
Qed.

Lemma lens_cooldown_skips_witness :
  Lens.on_cooldown
    (Lens.loop 0 (Lens.arrivals [(7, (true, true))]) (Lens.mkState 0 true false []))
    = false.
Proof.
  assert (Hc : 0 <= 0 < 2 ^ 32) by (cbn; lia).
  assert (Hl : Z.of_nat (length [(7, (true, true))]) <= Z.max 1 0) by (cbn; lia).
  destruct (lens_cooldown_skips 0 [(7, (true, true))] (Lens.mkState 0 true false [])
              Hc eq_refl eq_refl eq_refl Hl) as (_ & _ & H).
  exact H.
Defined.

Lemma stereo_fetched_app (a b : list Stereo.action) :
  Stereo.fetched (a ++ b) = Stereo.fetched a ++ Stereo.fetched b.
Proof.
  induction a as [|x a IH]; cbn; [reflexivity|].
  destruct x as [[f|]| | | | |]; cbn; rewrite IH; reflexivity.
Qed.

Lemma stereo_released_app (a b : list Stereo.action) :
  Stereo.released (a ++ b) = Stereo.released a ++ Stereo.released b.
Proof.
  induction a as [|x a IH]; cbn; [reflexivity|].
  destruct x; cbn; rewrite IH; reflexivity.
Qed.

Lemma stereo_shown_app (a b : list Stereo.action) :
  Stereo.shown (a ++ b) = Stereo.shown a ++ Stereo.shown b.
Proof.
  induction a as [|x a IH]; cbn; [reflexivity|].
  destruct x; cbn; rewrite IH; reflexivity.
Qed.

Lemma stereo_tried_app (a b : list Stereo.action) :
  Stereo.tried (a ++ b) = Stereo.tried a ++ Stereo.tried b.
Proof.
  induction a as [|x a IH]; cbn; [reflexivity|].
  destruct x; cbn; rewrite IH; reflexivity.
Qed.

Lemma stereo_retries_silent (n : nat) :
  Stereo.fetched (Stereo.retries n) = [] /\ Stereo.released (Stereo.retries n) = [] /\
  Stereo.shown (Stereo.retries n) = [] /\ Stereo.tried (Stereo.retries n) = [].
Proof. induction n; cbn; auto. Qed.

(** The lists of a state after a turn of the loop. *)
Lemma stereo_body_lists (limit : Z) (t : Stereo.turn) (s : Stereo.state) :
  let s' := Stereo.body limit t s in
  (Stereo.stop_flag t || Stereo.done_calibrating s = true -> 
   Stereo.done s' = Stereo.done s /\ Stereo.hung s' = Stereo.hung s) /\
  (Stereo.stop_flag t || Stereo.done_calibrating s = false ->
   match Stereo.filled t with
   | None =>
       Stereo.fetched (Stereo.done s') = Stereo.fetched (Stereo.done s) /\
       Stereo.released (Stereo.done s') = Stereo.released (Stereo.done s) /\
       Stereo.shown (Stereo.done s') = Stereo.shown (Stereo.done s) /\
       Stereo.hung s' = Stereo.hung s
   | Some f =>
       Stereo.fetched (Stereo.done s') = Stereo.fetched (Stereo.done s) ++ [f] /\
       Stereo.released (Stereo.done s') = Stereo.released (Stereo.done s) ++ [f] /\
       match Stereo.display_misses t with
       | None => Stereo.shown (Stereo.done s') = Stereo.shown (Stereo.done s) /\
                 Stereo.hung s' = true
       | Some _ => Stereo.shown (Stereo.done s') = Stereo.shown (Stereo.done s) ++ [f] /\
                   Stereo.hung s' = false
       end
   end).
Proof.
  cbv zeta. unfold Stereo.body.
  destruct (Stereo.stop_flag t || Stereo.done_calibrating s);
    (split; intro H; try discriminate H); clear H; [cbn; auto|].
  destruct (Stereo.filled t) as [f|].
  - destruct (Stereo.display_misses t) as [n|].
    + destruct (stereo_retries_silent n) as (R1 & R2 & R3 & _).
      destruct (_ >? 0); [destruct (_ >=? _)|];
        cbn [Stereo.done Stereo.add Stereo.hung];
        rewrite ?stereo_fetched_app, ?stereo_released_app, ?stereo_shown_app,
          ?R1, ?R2, ?R3; cbn; rewrite ?app_nil_r; auto.
    + cbn [Stereo.done Stereo.add Stereo.hung].
      rewrite ?stereo_fetched_app, ?stereo_released_app, ?stereo_shown_app.
      cbn. rewrite ?app_nil_r. auto.
  - cbn [Stereo.done Stereo.add Stereo.hung].
    rewrite ?stereo_fetched_app, ?stereo_released_app, ?stereo_shown_app.
    cbn. rewrite ?app_nil_r. auto.
Qed.

(** X22: the stereo tool hands every frameset it takes from the filled
    queue back to the empty queue, in the order in which it took them, and
    passes each of them on to the display, also during a cooldown; only
    when the display queue never yields a buffer does the loop stay in its
    inner loop, with the last frameset handed back but not shown. *)
Theorem stereo_releases_and_shows_every_frameset
    (limit : Z) (turns : list Stereo.turn) :
  let s := Stereo.loop limit turns Stereo.init in
  Stereo.released (Stereo.done s) = Stereo.fetched (Stereo.done s) /\
  (Stereo.hung s = false -> Stereo.shown (Stereo.done s) = Stereo.fetched (Stereo.done s)) /\
  (Stereo.hung s = true ->
   exists f, Stereo.fetched (Stereo.done s) = Stereo.shown (Stereo.done s) ++ [f]).
Proof.
  cbv zeta.
  assert (G : forall s,
    (Stereo.released (Stereo.done s) = Stereo.fetched (Stereo.done s) /\
     (Stereo.hung s = false ->
      Stereo.shown (Stereo.done s) = Stereo.fetched (Stereo.done s)) /\
     (Stereo.hung s = true ->
      exists f, Stereo.fetched (Stereo.done s) = Stereo.shown (Stereo.done s) ++ [f])) ->
    let s' := Stereo.loop limit turns s in
    Stereo.released (Stereo.done s') = Stereo.fetched (Stereo.done s') /\
    (Stereo.hung s' = false ->
     Stereo.shown (Stereo.done s') = Stereo.fetched (Stereo.done s')) /\
    (Stereo.hung s' = true ->
     exists f, Stereo.fetched (Stereo.done s') = Stereo.shown (Stereo.done s') ++ [f])).
  { induction turns as [|t rest IH]; intros s H; cbn [Stereo.loop]; [exact H|].
    destruct (Stereo.left_loop s || Stereo.hung s) eqn:E; [exact H|].
    apply orb_false_iff in E. destruct E as [_ Hh].
    apply IH. destruct H as (H1 & H2 & _). specialize (H2 Hh).
    destruct (stereo_body_lists limit t s) as [B1 B2]. cbv zeta in B1, B2.
    destruct (Stereo.stop_flag t || Stereo.done_calibrating s).
    - destruct (B1 eq_refl) as [D Hg]. rewrite D, Hg, Hh.
      split; [exact H1|]. split; [auto | discriminate].
    - specialize (B2 eq_refl). destruct (Stereo.filled t) as [f|].
      + destruct B2 as (F & R & B2). rewrite F, R, H1.
        split; [reflexivity|].
        destruct (Stereo.display_misses t); destruct B2 as [S ->]; rewrite S, H2.
        * split; [reflexivity | discriminate].
        * split; [discriminate | eauto].
      + destruct B2 as (F & R & S & Hg). rewrite F, R, S, Hg, Hh.
        split; [exact H1|]. split; [auto | discriminate]. }
  apply G. cbn. split; [reflexivity|]. split; [reflexivity | discriminate].
Qed.

Lemma nth_error_spaced {A} (gap : nat) (l : list A) :
  forall wait k,
  nth_error (Stereo.spaced gap wait l) k = nth_error l (wait + k * (gap + 1)).
Proof.
  induction l as [|x rest IH]; intros wait k; cbn [Stereo.spaced].
  - rewrite !nth_error_nil. reflexivity.
  - destruct wait as [|w].
    + destruct k as [|k]; [reflexivity|].
      cbn [nth_error]. rewrite IH.
      replace (0 + S k * (gap + 1))%nat with (S (gap + k * (gap + 1))) by lia.
      reflexivity.
    + rewrite IH. reflexivity.
Qed.

Lemma stereo_body_arrival (limit f : Z) (n : nat) (s : Stereo.state) :
  Stereo.done_calibrating s = false ->
  Stereo.body limit (Stereo.arrival (f, n)) s =
    let tr := (Stereo.done s ++ [Stereo.Dequeue (Some f); Stereo.Release f])
                ++ Stereo.retries n ++ [Stereo.DisplayDequeue true; Stereo.Show f] in
    let counter := Construct.wrap32 (Stereo.cooldown_counter s + 1) in
    if Stereo.cooldown s >? 0 then
      if counter >=? Stereo.cooldown s
      then Stereo.mkState 0 counter false false false tr
      else Stereo.mkState (Stereo.cooldown s) counter false false false tr
    else Stereo.mkState limit 0 false false false (tr ++ [Stereo.TryFrames f]).
Proof.
  intro Hd. unfold Stereo.body, Stereo.arrival.
  cbn [Stereo.stop_flag Stereo.filled Stereo.display_misses Stereo.status fst snd orb].
  rewrite Hd.
  cbn [Stereo.add Stereo.cooldown Stereo.cooldown_counter Stereo.done
       Stereo.done_calibrating].
  rewrite Hd. reflexivity.
Qed.

Lemma stereo_phases (limit : Z) (fns : list (Z * nat)) :
  0 <= limit < 2 ^ 32 ->
  forall (s : Stereo.state) (wait : nat),
  Stereo.done_calibrating s = false -> Stereo.left_loop s = false ->
  Stereo.hung s = false ->
  (wait <= Z.to_nat limit)%nat ->
  (wait = 0%nat -> Stereo.cooldown s = 0) ->
  (wait <> 0%nat ->
   Stereo.cooldown s = limit /\ Stereo.cooldown_counter s = limit - Z.of_nat wait) ->
  Stereo.tried (Stereo.done (Stereo.loop limit (map Stereo.arrival fns) s))
    = Stereo.tried (Stereo.done s)
        ++ Stereo.spaced (Z.to_nat limit) wait (map fst fns).
Proof.
  intro Hl. change (2 ^ 32) with 4294967296 in Hl.
  induction fns as [|[f n] rest IH]; intros s wait Hd Hleft Hh Hw H0 H1.
  - cbn. rewrite app_nil_r. reflexivity.
  - cbn [map Stereo.loop fst]. rewrite Hleft, Hh. cbn [orb].
    rewrite stereo_body_arrival by exact Hd. cbv zeta.
    destruct (stereo_retries_silent n) as (_ & _ & _ & R4).
    destruct wait as [|w].
    + rewrite (H0 eq_refl). cbn [Z.gtb Z.compare Stereo.spaced].
      match goal with
      | |- context [Stereo.loop limit _ ?s1] =>
          rewrite (IH s1 (Z.to_nat limit) eq_refl eq_refl eq_refl
                     ltac:(lia) ltac:(cbn; lia) ltac:(cbn; split; lia))
      end.
      cbn [Stereo.done]. rewrite !stereo_tried_app, R4. cbn.
      repeat (rewrite app_nil_r || rewrite <- app_assoc). reflexivity.
    + destruct (H1 ltac:(discriminate)) as [Hc Hk]. rewrite Hc, Hk.
      assert (Lpos : 0 < limit) by lia.
      destruct (Z.gtb_spec limit 0) as [_|]; [|lia].
      assert (W : Construct.wrap32 (limit - Z.of_nat (S w) + 1)
                  = limit - Z.of_nat w).
      { unfold Construct.wrap32. change (2 ^ 32) with 4294967296.
        rewrite Z.mod_small by lia. lia. }
      rewrite W. cbn [Stereo.spaced].
      destruct (Z.geb_spec (limit - Z.of_nat w) limit) as [G|G].
      * assert (w = 0%nat) by lia. subst w.
        match goal with
        | |- context [Stereo.loop limit _ ?s1] =>
            rewrite (IH s1 0%nat eq_refl eq_refl eq_refl
                       ltac:(lia) ltac:(reflexivity)
                       ltac:(intro C; destruct (C eq_refl)))
        end.
        cbn [Stereo.done]. rewrite !stereo_tried_app, R4. cbn.
        repeat (rewrite app_nil_r || rewrite <- app_assoc). reflexivity.
      * match goal with
        | |- context [Stereo.loop limit _ ?s1] =>
            rewrite (IH s1 w eq_refl eq_refl eq_refl
                       ltac:(lia) ltac:(cbn; lia)
                       ltac:(cbn; intros _; split; [reflexivity | lia]))
        end.
        cbn [Stereo.done]. rewrite !stereo_tried_app, R4. cbn.
        repeat (rewrite app_nil_r || rewrite <- app_assoc). reflexivity.
Qed.

(** X23: while framesets keep arriving, the stereo tool tries the first
    of them and then every [cooldown_limit + 1]-th: the k-th frameset it
    tries is the one at position [k * (cooldown_limit + 1)] of those it
    took from the queue, so that exactly [cooldown_limit] framesets are
    passed over between two tries (none when [fps / 3 = 0]). *)
Theorem stereo_tries_every_nth_frameset (limit : Z) (fns : list (Z * nat)) (k : nat) :
  0 <= limit < 2 ^ 32 ->
  nth_error
    (Stereo.tried (Stereo.done (Stereo.loop limit (map Stereo.arrival fns) Stereo.init)))
    k
  = nth_error (map fst fns) (k * (Z.to_nat limit + 1)).
Proof.
  intro Hl.
  rewrite (stereo_phases limit fns Hl Stereo.init 0%nat eq_refl eq_refl eq_refl
             ltac:(lia) ltac:(reflexivity) ltac:(intro C; destruct (C eq_refl))).
  cbn [Stereo.init Stereo.done Stereo.tried app].
  rewrite nth_error_spaced. reflexivity.
Qed.

Lemma stereo_tries_every_nth_frameset_witness :
  Stereo.tried
    (Stereo.done
       (Stereo.loop 2
          (map Stereo.arrival
             [(10, 0%nat); (11, 1%nat); (12, 0%nat); (13, 0%nat); (14, 2%nat);
              (15, 0%nat); (16, 0%nat)])
          Stereo.init))
    = [10; 13; 16] /\
  nth_error [10; 13; 16] 1 = nth_error [10; 11; 12; 13; 14; 15; 16] 3.
Proof.
  split; [vm_compute; reflexivity|].
  apply (stereo_tries_every_nth_frameset 2
           [(10, 0%nat); (11, 1%nat); (12, 0%nat); (13, 0%nat); (14, 2%nat);
            (15, 0%nat); (16, 0%nat)] 1).
  cbn; lia.
Defined.

(** ** The queue as a window on the pool *)



Lemma window_range (c : camera_handler_t) (n : nat) (k : Z) :
  0 < frame_buffers_ c -> In k (Pool.window c n) -> 0 <= k < frame_buffers_ c.
Proof.
  intros HN Hin. unfold Pool.window in Hin. apply in_map_iff in Hin.
  destruct Hin as (i & <- & _). apply Z.mod_pos_bound. exact HN.
Qed.

(** Going back fewer than a whole round does not lead to the cursor. *)
Lemma window_misses_cursor (c : camera_handler_t) (n : nat) (k : Z) :
  0 <= frame_bytes_offset_ c < frame_buffers_ c ->
  Z.of_nat n < frame_buffers_ c ->
  In k (Pool.window c n) -> k <> frame_bytes_offset_ c.
Proof.
  intros Hcur Hn Hin. unfold Pool.window in Hin. apply in_map_iff in Hin.
  destruct Hin as (i & <- & Hi). apply in_seq in Hi.
  set (cur := frame_bytes_offset_ c) in *. set (N := frame_buffers_ c) in *.
  destruct (Z_lt_le_dec (cur - Z.of_nat n + Z.of_nat i) 0) as [L|L].
  - replace (cur - Z.of_nat n + Z.of_nat i)
      with (cur - Z.of_nat n + Z.of_nat i + N + (-1) * N) by lia.
    rewrite Z.mod_add by lia. rewrite Z.mod_small by lia. lia.
  - rewrite Z.mod_small by lia. lia.
Qed.

(** Pool and frame size after a completion that is not cancelled. *)
Lemma completion_pool (r : nat) (sched : list nat) (w w' : world)
    (req : request) (data : list byte) :
  nth_error (requests_ (cam w)) r = Some req ->
  req_state req <> RequestCancelled ->
  nth_error (mmap_buffers_ (cam w)) (Z.to_nat (cookie req)) = Some data ->
  Camera.request_complete r sched w = Camera.Completed w' \/
  Camera.request_complete r sched w = Camera.NeverReturns w' ->
  frame_bytes_ (cam w') = frame_bytes_ (cam w) /\
  frame_buffers_ (cam w') = frame_buffers_ (cam w) /\
  pool_base (cam w') = pool_base (cam w) /\
  frame_bytes_offset_ (cam w')
    = (frame_bytes_offset_ (cam w) + 1) mod frame_buffers_ (cam w) /\
  frame_bytes_buffer_ (cam w')
    = Camera.memcpy (frame_bytes_buffer_ (cam w))
        (frame_bytes_ (cam w) * frame_bytes_offset_ (cam w)) data
        (frame_bytes_ (cam w)).
Proof.
  intros Hr Hs Hd Hrun.
  pose proof (request_complete_cases r sched w) as C.
  destruct Hrun as [E|E]; rewrite E in C.
  - destruct C as [(_ & rq & Hq & Hc)|(rq & d & k & n & Hq & _ & Hd' & _ & _ & ->)].
    + congruence.
    + assert (rq = req) by congruence. subst rq.
      assert (d = data) by congruence. subst d. repeat split; reflexivity.
  - destruct C as (rq & d & Hq & _ & Hd' & _ & ->).
    assert (rq = req) by congruence. subst rq.
    assert (d = data) by congruence. subst d. repeat split; reflexivity.
Qed.

(** X24: a completion leaves the frames that wait in the queue alone, as
    long as fewer than [frame_buffers_] of them wait: when the queue holds
    the addresses of the slots written last, each of these addresses is
    that of a slot other than the one the completion writes, and the
    bytes of that slot are after the completion what they were before. *)
Theorem completion_spares_queued_frames
    (r : nat) (sched : list nat) (w w' : world) (req : request) (data : list byte)
    (p : Z) :
  Wf.layout_ok (cam w) ->
  Pool.fresh w ->
  Z.of_nat (length (Queue.items (frame_queue w))) < frame_buffers_ (cam w) ->
  nth_error (requests_ (cam w)) r = Some req ->
  req_state req <> RequestCancelled ->
  nth_error (mmap_buffers_ (cam w)) (Z.to_nat (cookie req)) = Some data ->
  Camera.request_complete r sched w = Camera.Completed w' \/
  Camera.request_complete r sched w = Camera.NeverReturns w' ->
  In p (Queue.items (frame_queue w)) ->
  exists k,
    p = Pool.slot_ptr (cam w) k /\
    0 <= k < frame_buffers_ (cam w) /\
    k <> frame_bytes_offset_ (cam w) /\
    Wf.slot (cam w') k = Wf.slot (cam w) k.
Proof.
  intros Hl Hf Hn Hr Hs Hd Hrun Hin.
  rewrite Hf in Hin. apply in_map_iff in Hin. destruct Hin as (k & <- & Hk).
  exists k. split; [reflexivity|].
  pose proof Hl as (HN & _ & Hcur & _).
  pose proof (window_range _ _ _ HN Hk) as Hrange.
  pose proof (window_misses_cursor _ _ _ Hcur Hn Hk) as Hne.
  split; [exact Hrange|]. split; [exact Hne|].
  destruct (completion_pool r sched w w' req data Hr Hs Hd Hrun)
    as (Hfb & _ & _ & _ & Hp).
  pose proof (valid_cookie_data _ _ _ Hl Hd) as Hlen.
  destruct (memcpy_slots (cam w) data Hl Hlen) as [_ S2]. cbv zeta in S2.
  unfold Wf.slot. rewrite Hfb, Hp. apply S2; assumption.
Qed.

Lemma completion_spares_queued_frames_witness :
  exists k,
    4102 = Pool.slot_ptr (cam Wf.busy) k /\
    Wf.slot (cam (Camera.after_completion 0 (mkRequest 0 (Some 0) RequestPending)
                    (Sample.plane x11) 0 0 Wf.busy)) k
      = Wf.slot (cam Wf.busy) k.
Proof.
  assert (L : Wf.layout_ok (cam Wf.busy)).
  { unfold Wf.layout_ok. cbn. repeat split; try lia; try reflexivity.
    repeat constructor. }
  assert (F : Pool.fresh Wf.busy) by (vm_compute; reflexivity).
  assert (Hn : Z.of_nat (length (Queue.items (frame_queue Wf.busy)))
               < frame_buffers_ (cam Wf.busy)) by (vm_compute; reflexivity).
  assert (Hr : nth_error (requests_ (cam Wf.busy)) 0
               = Some (mkRequest 0 (Some 0) RequestPending)) by reflexivity.
  assert (Hs : req_state (mkRequest 0 (Some 0) RequestPending) <> RequestCancelled)
    by discriminate.
  assert (Hd : nth_error (mmap_buffers_ (cam Wf.busy))
                 (Z.to_nat (cookie (mkRequest 0 (Some 0) RequestPending)))
               = Some (Sample.plane x11)) by reflexivity.
  assert (Hrun : Camera.request_complete 0 [0%nat] Wf.busy
                 = Camera.Completed
                     (Camera.after_completion 0 (mkRequest 0 (Some 0) RequestPending)
                        (Sample.plane x11) 0 0 Wf.busy))
    by (vm_compute; reflexivity).
  assert (Hin : In 4102 (Queue.items (frame_queue Wf.busy)))
    by (right; left; reflexivity).
  destruct (completion_spares_queued_frames 0 [0%nat] Wf.busy _ _ _ 4102
              L F Hn Hr Hs Hd (or_introl Hrun) Hin) as (k & E & _ & _ & S).
  exists k. split; [exact E | exact S].
Defined.

(** X25: the callback itself does not check that the slot it writes is
    free: when as many frames wait in the queue as the pool has slots, the
    oldest of them is the one whose slot the completion overwrites, before
    it finds out whether the queue has room. *)
Theorem completion_overwrites_oldest_when_all_slots_wait
    (r : nat) (sched : list nat) (w w' : world) (req : request) (data : list byte) :
  Wf.layout_ok (cam w) ->
  Pool.fresh w ->
  Z.of_nat (length (Queue.items (frame_queue w))) = frame_buffers_ (cam w) ->
  nth_error (requests_ (cam w)) r = Some req ->
  req_state req <> RequestCancelled ->
  nth_error (mmap_buffers_ (cam w)) (Z.to_nat (cookie req)) = Some data ->
  Camera.request_complete r sched w = Camera.Completed w' \/
  Camera.request_complete r sched w = Camera.NeverReturns w' ->
  hd_error (Queue.items (frame_queue w))
    = Some (Pool.slot_ptr (cam w) (frame_bytes_offset_ (cam w))) /\
  Wf.slot (cam w') (frame_bytes_offset_ (cam w)) = data.
Proof.
  intros Hl Hf Hn Hr Hs Hd Hrun.
  pose proof Hl as (HN & _ & Hcur & _).
  split.
  - rewrite Hf. destruct (length (Queue.items (frame_queue w))) as [|n] eqn:E;
      [cbn in Hn; lia|].
    unfold Pool.window. cbn [seq map hd_error]. do 2 f_equal.
    change (Z.of_nat 0) with 0. rewrite Z.add_0_r, Hn.
    replace (frame_bytes_offset_ (cam w) - frame_buffers_ (cam w))
      with (frame_bytes_offset_ (cam w) + (-1) * frame_buffers_ (cam w)) by lia.
    rewrite Z.mod_add by lia. apply Z.mod_small. exact Hcur.
  - destruct (completion_pool r sched w w' req data Hr Hs Hd Hrun)
      as (Hfb & _ & _ & _ & Hp).
    pose proof (valid_cookie_data _ _ _ Hl Hd) as Hlen.
    destruct (memcpy_slots (cam w) data Hl Hlen) as [S1 _]. cbv zeta in S1.
    unfold Wf.slot. rewrite Hfb, Hp. exact S1.
Qed.

Lemma completion_overwrites_oldest_when_all_slots_wait_witness :
  hd_error (Queue.items (frame_queue Pool.crowded)) = Some 4108 /\
  Wf.slot (cam (Camera.after_completion 0 (mkRequest 0 (Some 0) RequestPending)
                  (Sample.plane x11) 0 0 Pool.crowded)) 2
    = Sample.plane x11.
Proof.
  assert (L : Wf.layout_ok (cam Pool.crowded)).
  { unfold Wf.layout_ok. cbn. repeat split; try lia; try reflexivity.
    repeat constructor. }
  assert (F : Pool.fresh Pool.crowded) by (vm_compute; reflexivity).
  assert (Hn : Z.of_nat (length (Queue.items (frame_queue Pool.crowded)))
               = frame_buffers_ (cam Pool.crowded)) by (vm_compute; reflexivity).
  assert (Hr : nth_error (requests_ (cam Pool.crowded)) 0
               = Some (mkRequest 0 (Some 0) RequestPending)) by reflexivity.
  assert (Hs : req_state (mkRequest 0 (Some 0) RequestPending) <> RequestCancelled)
    by discriminate.
  assert (Hd : nth_error (mmap_buffers_ (cam Pool.crowded))
                 (Z.to_nat (cookie (mkRequest 0 (Some 0) RequestPending)))
               = Some (Sample.plane x11)) by reflexivity.
  assert (Hrun : Camera.request_complete 0 [0%nat] Pool.crowded
                 = Camera.Completed
                     (Camera.after_completion 0 (mkRequest 0 (Some 0) RequestPending)
                        (Sample.plane x11) 0 0 Pool.crowded))
    by (vm_compute; reflexivity).
  exact (completion_overwrites_oldest_when_all_slots_wait 0 [0%nat] Pool.crowded _ _ _
           L F Hn Hr Hs Hd (or_introl Hrun)).
Defined.

(** ** Progress of the main loop *)

Lemma loop_head_blocked (fd : Z) (env : Main.udp_env) (w : world) :
  running w <> 0 -> 0 <= udpfd w ->
  status (Main.loop_head fd env w) = Blocked /\
  udpfd (Main.loop_head fd env w) = udpfd w.
Proof.
  intros Hr Hu. unfold Main.loop_head.
  destruct (running w =? 0) eqn:R; [apply Z.eqb_eq in R; contradiction|].
  destruct (udpfd w <? 0) eqn:U; [apply Z.ltb_lt in U; lia|].
  destruct (timestamp w =? 0) eqn:T.
  - unfold Main.arm_timer. rewrite T. split; reflexivity.
  - unfold Main.arm_timer. cbn [timestamp set_timestamp].
    destruct (Int64.wrap64 (timestamp w + fd) =? 0); split; reflexivity.
Qed.

(** One round of the loop with a frame waiting or not. *)
Lemma wake_round (fd : Z) (env : Main.udp_env) (w : world) :
  status w = Blocked -> 0 < loop_ctl_sem w -> running w <> 0 -> 0 <= udpfd w ->
  let w' := Main.step fd w (Main.Wake env) in
  status w' = Blocked /\ running w' = running w /\ udpfd w' = udpfd w /\
  loop_ctl_sem w' = loop_ctl_sem w - 1 /\
  match Queue.items (frame_queue w) with
  | [] => Queue.items (frame_queue w') = [] /\
          Main.encoded (trace w') = Main.encoded (trace w)
  | p :: ps => Queue.items (frame_queue w') = ps /\
               Main.encoded (trace w')
                 = Main.encoded (trace w) ++ (if p =? 0 then [] else [p])
  end.
Proof.
  intros St Hs Hr Hu. cbv zeta. unfold Main.step. rewrite St.
  destruct (0 <? loop_ctl_sem w) eqn:S; [|apply Z.ltb_ge in S; lia].
  destruct (loop_resume_fields fd env w) as (_ & R & Sem & _ & _ & Hq).
  cbv zeta in R, Sem, Hq.
  split; [|split; [exact R|split; [|split; [exact Sem | exact Hq]]]].
  - rewrite loop_resume_unfold.
    destruct (loop_resume_prefix w) as (_ & _ & R3 & U3). cbv zeta in *.
    apply loop_head_blocked; [rewrite R3; exact Hr | rewrite U3; exact Hu].
  - rewrite loop_resume_unfold.
    destruct (loop_resume_prefix w) as (_ & _ & R3 & U3). cbv zeta in *.
    match goal with
    | |- udpfd (Main.loop_head fd env ?w3) = _ =>
        destruct (loop_head_blocked fd env w3) as [_ E];
          [rewrite R3; exact Hr | rewrite U3; exact Hu | rewrite E; exact U3]
    end.
Qed.

(** X27: the frames that wait in the queue are encoded, in order, by as
    many rounds of the main loop, whether or not the node is capturing:
    each wake-up takes one unit of the semaphore and the oldest frame, and
    the loop waits again afterwards. *)
Theorem waiting_frames_are_encoded
    (fd : Z) (envs : list Main.udp_env) (w : world) :
  status w = Blocked -> running w <> 0 -> 0 <= udpfd w ->
  Forall (fun p => p <> 0) (Queue.items (frame_queue w)) ->
  length envs = length (Queue.items (frame_queue w)) ->
  Z.of_nat (length (Queue.items (frame_queue w))) <= loop_ctl_sem w ->
  let w' := Main.run fd (map Main.Wake envs) w in
  Main.encoded (trace w')
    = Main.encoded (trace w) ++ Queue.items (frame_queue w) /\
  Queue.items (frame_queue w') = [] /\
  status w' = Blocked /\
  loop_ctl_sem w'
    = loop_ctl_sem w - Z.of_nat (length (Queue.items (frame_queue w))).
Proof.
  revert w. induction envs as [|env envs IH]; intros w St Hr Hu Hnz Hlen Hsem; cbv zeta.
  - destruct (Queue.items (frame_queue w)) eqn:Hq; [|discriminate].
    cbn. rewrite app_nil_r, Z.sub_0_r. auto.
  - destruct (Queue.items (frame_queue w)) as [|p ps] eqn:Hq; [discriminate|].
    inversion Hnz as [|? ? Hp Hps]; subst.
    cbn [length] in Hlen, Hsem.
    change (Main.run fd (map Main.Wake (env :: envs)) w)
      with (Main.run fd (map Main.Wake envs) (Main.step fd w (Main.Wake env))).
    destruct (wake_round fd env w St ltac:(lia) Hr Hu) as (St1 & R1 & U1 & S1 & Q1).
    cbv zeta in St1, R1, U1, S1, Q1. rewrite Hq in Q1. destruct Q1 as [Q1 E1].
    destruct (p =? 0) eqn:P; [apply Z.eqb_eq in P; contradiction|].
    destruct (IH (Main.step fd w (Main.Wake env))) as (A & B & C & D).
    + exact St1.
    + rewrite R1. exact Hr.
    + rewrite U1. exact Hu.
    + rewrite Q1. exact Hps.
    + rewrite Q1. lia.
    + rewrite Q1, S1. lia.
    + cbv zeta in A, B, C, D. rewrite A, B, C, D, E1, Q1, S1, <- app_assoc.
      cbn [length app]. repeat split. lia.
Qed.

Lemma waiting_frames_are_encoded_witness :
  Main.encoded
    (trace (Main.run 33333333 (map Main.Wake [Sample.env; Sample.env]) Wf.busy))
    = [4096; 4102].
Proof.
  assert (Hnz : Forall (fun p => p <> 0) (Queue.items (frame_queue Wf.busy)))
    by (repeat constructor; discriminate).
  assert (Hsem : Z.of_nat (length (Queue.items (frame_queue Wf.busy)))
                 <= loop_ctl_sem Wf.busy) by (cbn; lia).
  assert (Hr : running Wf.busy <> 0) by discriminate.
  assert (Hu : 0 <= udpfd Wf.busy) by (cbn; lia).
  destruct (waiting_frames_are_encoded 33333333 [Sample.env; Sample.env] Wf.busy
              eq_refl Hr Hu Hnz eq_refl Hsem) as (H & _).
  exact H.
Defined.

(** X28: what the gate of [queue_request] is for.  When every waiting
    frame has its unit of the semaphore and the queue holds the slots
    written last, a request that passes the gate finds at most
    [frame_buffers_ - 2] frames waiting; if it completes before another
    one does, the slot its frame is copied to is none of theirs, and every
    waiting frame keeps its bytes. *)
Theorem gated_request_spares_queued_frames
    (drv : Z) (r : nat) (sched : list nat) (w w1 w2 : world)
    (req : request) (data : list byte) (p : Z) :
  Wf.layout_ok (cam w) -> Wf.pending_ok w -> Pool.fresh w ->
  Camera.queue_request drv w = (Returned, w1) ->
  nth_error (requests_ (cam w1)) r = Some req ->
  req_state req <> RequestCancelled ->
  nth_error (mmap_buffers_ (cam w1)) (Z.to_nat (cookie req)) = Some data ->
  Camera.request_complete r sched w1 = Camera.Completed w2 \/
  Camera.request_complete r sched w1 = Camera.NeverReturns w2 ->
  In p (Queue.items (frame_queue w)) ->
  Z.of_nat (length (Queue.items (frame_queue w))) <= frame_buffers_ (cam w) - 2 /\
  exists k,
    p = Pool.slot_ptr (cam w) k /\
    0 <= k < frame_buffers_ (cam w) /\
    k <> frame_bytes_offset_ (cam w) /\
    Wf.slot (cam w2) k = Wf.slot (cam w) k.
Proof.
  intros Hl [Hp _] Hf Hq Hr Hs Hd Hrun Hin.
  assert (Hgate : loop_ctl_sem w <= frame_buffers_ (cam w) - 2).
  { destruct (Z.le_gt_cases (loop_ctl_sem w) (frame_buffers_ (cam w) - 2)) as [L|G];
      [exact L|].
    rewrite queue_request_overrun in Hq by lia. discriminate Hq. }
  assert (Hdrv : 0 <= drv).
  { destruct (Z.lt_ge_cases drv 0) as [D|D]; [|exact D].
    rewrite queue_request_refused in Hq by assumption. discriminate Hq. }
  rewrite queue_request_accepted in Hq by assumption. injection Hq as <-.
  split; [lia|].
  rewrite Hf in Hin. apply in_map_iff in Hin. destruct Hin as (k & <- & Hk).
  exists k. split; [reflexivity|].
  pose proof Hl as (HN & Hfb & Hcur & Hidx & Hv & Hsz & Hm & Hb).
  pose proof (window_range _ _ _ HN Hk) as Hrange.
  assert (Hn : Z.of_nat (length (Queue.items (frame_queue w))) < frame_buffers_ (cam w))
    by lia.
  pose proof (window_misses_cursor _ _ _ Hcur Hn Hk) as Hne.
  split; [exact Hrange|]. split; [exact Hne|].
  match type of Hr with
  | nth_error (requests_ (cam ?w1)) r = _ => set (w1' := w1) in *
  end.
  assert (Hl1 : Wf.layout_ok (cam w1')).
  { unfold Wf.layout_ok. subst w1'. cbn. repeat (split; [assumption|]).
    split; [apply Z.mod_pos_bound; lia|]. repeat split; assumption. }
  destruct (completion_pool r sched w1' w2 req data Hr Hs Hd Hrun)
    as (Hfb2 & _ & _ & _ & Hp2).
  pose proof (valid_cookie_data _ _ _ Hl1 Hd) as Hlen.
  destruct (memcpy_slots (cam w1') data Hl1 Hlen) as [_ S2]. cbv zeta in S2.
  unfold Wf.slot. rewrite Hfb2, Hp2. apply S2; assumption.
Qed.

Lemma gated_request_spares_queued_frames_witness :
  exists k,
    4096 = Pool.slot_ptr (cam Wf.busy) k /\ k <> frame_bytes_offset_ (cam Wf.busy).
Proof.
  assert (L : Wf.layout_ok (cam Wf.busy)).
  { unfold Wf.layout_ok. cbn. repeat split; try lia; try reflexivity.
    repeat constructor. }
  assert (P : Wf.pending_ok Wf.busy) by (unfold Wf.pending_ok; cbn; lia).
  assert (F : Pool.fresh Wf.busy) by (vm_compute; reflexivity).
  assert (Hs : req_state (mkRequest 0 (Some 0) RequestPending) <> RequestCancelled)
    by discriminate.
  assert (Hin : In 4096 (Queue.items (frame_queue Wf.busy)))
    by (left; reflexivity).
  destruct (gated_request_spares_queued_frames 0 0 [0%nat] Wf.busy
              (snd (Camera.queue_request 0 Wf.busy))
              (Camera.after_completion 0 (mkRequest 0 (Some 0) RequestPending)
                 (Sample.plane x11) 0 0 (snd (Camera.queue_request 0 Wf.busy)))
              (mkRequest 0 (Some 0) RequestPending) (Sample.plane x11) 4096
              L P F)
    as (_ & k & E & _ & N & _);
    try assumption; try (vm_compute; reflexivity).
  - left. vm_compute. reflexivity.
  - exists k. split; [exact E | exact N].
Defined.

(** ** Set-up of the stereo tool *)

(** X29: the stereo tool pins its main thread and its display thread to
    different cores of the CCD: for a positive camera count the main
    thread gets core [cam_count mod 8] and the display thread the core
    just before it. *)
Theorem stereo_threads_on_different_cores (cam_count : Z) :
  0 < cam_count < 2 ^ 31 ->
  0 <= Stereo.main_core cam_count < Stereo.CORES_PER_CCD /\
  0 <= Stereo.display_core cam_count < Stereo.CORES_PER_CCD /\
  Stereo.main_core cam_count
    = (Stereo.display_core cam_count + 1) mod Stereo.CORES_PER_CCD /\
  Stereo.main_core cam_count <> Stereo.display_core cam_count.
Proof.
  intro H. change (2 ^ 31) with 2147483648 in H.
  unfold Stereo.main_core, Stereo.display_core, Stereo.CORES_PER_CCD, Construct.wrap32.
  change (2 ^ 32) with 4294967296.
  rewrite (Z.mod_small cam_count) by lia.
  rewrite (Z.mod_small (cam_count - 1)) by lia.
  pose proof (Z.mod_pos_bound (cam_count - 1) 8 ltac:(lia)) as B.
  rewrite (Z.mod_small ((cam_count - 1) mod 8)) by lia.
  assert (E : cam_count mod 8 = ((cam_count - 1) mod 8 + 1) mod 8).
  { rewrite Z.add_mod_idemp_l by lia. f_equal. lia. }
  pose proof (Z.mod_pos_bound cam_count 8 ltac:(lia)) as B'.
  split; [exact B'|]. split; [exact B|]. split; [exact E|].
  rewrite E.
  destruct (Z.eq_dec ((cam_count - 1) mod 8) 7) as [E7|N7].
  - rewrite E7. cbn. lia.
  - rewrite Z.mod_small by lia. lia.
Qed.

Lemma stereo_threads_on_different_cores_witness :
  Stereo.main_core 8 <> Stereo.display_core 8.
Proof.
  apply (stereo_threads_on_different_cores 8). cbn. lia.
Defined.

(** X30: the eight framesets that the stereo tool hands to the display
    ring lie one after the other in [display_frames], each with room for
    one frame per camera, none overlapping the next and the last one
    ending where the array ends. *)
Theorem stereo_display_framesets_are_disjoint (cam_count i j : Z) :
  0 < cam_count -> Stereo.DISPLAY_Q_SIZE * cam_count < 2 ^ 32 ->
  0 <= i < j -> j < Stereo.DISPLAY_Q_SIZE ->
  Stereo.display_offset cam_count i + cam_count
    <= Stereo.display_offset cam_count j /\
  Stereo.display_offset cam_count j + cam_count
    <= Stereo.display_frames_size cam_count /\
  Stereo.display_offset cam_count (Stereo.DISPLAY_Q_SIZE - 1) + cam_count
    = Stereo.display_frames_size cam_count.
Proof.
  unfold Stereo.display_offset, Stereo.display_frames_size, Stereo.DISPLAY_Q_SIZE,
    Construct.wrap32.
  change (2 ^ 32) with 4294967296. intros Hc Hfit Hij Hj.
  rewrite (Z.mod_small cam_count) by lia.
  rewrite (Z.mod_small (i * cam_count)) by nia.
  rewrite (Z.mod_small (j * cam_count)) by nia.
  rewrite (Z.mod_small (8 * cam_count)) by lia.
  rewrite (Z.mod_small ((8 - 1) * cam_count)) by lia.
  repeat split; nia.
Qed.

Lemma stereo_display_framesets_are_disjoint_witness :
  Stereo.display_offset 3 2 + 3 <= Stereo.display_offset 3 3.
Proof.
  apply (stereo_display_framesets_are_disjoint 3 2 3);
    unfold Stereo.DISPLAY_Q_SIZE; change (2 ^ 32) with 4294967296; lia.
Defined.

(* ================================================================== *)
(** * The node statement by statement *)

(** ** What the handlers leave alone *)

Lemma arm_timer_fields (w : world) :
  frame_queue (Main.arm_timer w) = frame_queue w /\
  cam (Main.arm_timer w) = cam w /\
  loop_ctl_sem (Main.arm_timer w) = loop_ctl_sem w /\
  Wf.enqueued (trace (Main.arm_timer w)) = Wf.enqueued (trace w) /\
  Main.encoded (trace (Main.arm_timer w)) = Main.encoded (trace w).
Proof.
  unfold Main.arm_timer. destruct (timestamp w =? 0); cbn;
    rewrite ?enqueued_app, ?encoded_app; cbn; rewrite ?app_nil_r; auto.
Qed.

Lemma capture_handler_fields (drv : Z) (w : world) :
  let w' := snd (Main.capture_signal_handler Main.SIGUSR1 drv w) in
  frame_queue w' = frame_queue w /\
  loop_ctl_sem w' = loop_ctl_sem w /\
  Wf.enqueued (trace w') = Wf.enqueued (trace w) /\
  Main.encoded (trace w') = Main.encoded (trace w) /\
  (cam w' = cam w
   \/ cam w' = Camera.set_next_req_idx
                 ((next_req_idx_ (cam w) + 1) mod Z.of_nat (length (requests_ (cam w))))
                 (cam w)).
Proof.
  cbv zeta. unfold Main.capture_signal_handler.
  destruct (negb (Main.SIGUSR1 =? Main.SIGUSR1) || (running w =? 0));
    [cbn; auto 10|].
  destruct (Z.le_gt_cases (loop_ctl_sem w) (frame_buffers_ (cam w) - 2)) as [L|G].
  - destruct (Z.lt_ge_cases drv 0) as [D|D].
    + rewrite queue_request_refused by assumption. cbn.
      rewrite <- ?app_assoc, ?enqueued_app, ?encoded_app; cbn;
        rewrite ?app_nil_r; auto 10.
    + rewrite queue_request_accepted by assumption. cbn.
      rewrite <- ?app_assoc, ?enqueued_app, ?encoded_app; cbn;
        rewrite ?app_nil_r; auto 10.
  - rewrite queue_request_overrun by lia. cbn.
    rewrite <- ?app_assoc, ?enqueued_app, ?encoded_app; cbn;
      rewrite ?app_nil_r; auto 10.
Qed.

Lemma layout_next_req_idx (c : camera_handler_t) :
  Wf.layout_ok c ->
  Wf.layout_ok
    (Camera.set_next_req_idx
       ((next_req_idx_ c + 1) mod Z.of_nat (length (requests_ c))) c).
Proof.
  intros (HN & Hfb & Hcur & Hidx & Hv & Hpool & Hm & Hb).
  unfold Wf.layout_ok. cbn. repeat (split; [assumption|]).
  split; [apply Z.mod_pos_bound; lia|]. repeat split; assumption.
Qed.

(** ** The main thread *)

Lemma main_step_keeps (fd : Z) (env : Main.udp_env) (s : Fine.state) :
  Fine.callback (Fine.main_step fd env s) = Fine.callback s /\
  cam (Fine.data (Fine.main_step fd env s)) = cam (Fine.data s).
Proof.
  unfold Fine.main_step. destruct (Fine.main s).
  - destruct (0 <? _); auto.
  - auto.
  - auto.
  - destruct (running _ =? 0); [auto|].
    destruct (udpfd _ <? 0); [|auto].
    destruct (Main.bind_ret env <? 0); [auto|].
    destruct (Main.sigio_ret env <? 0); auto.
  - auto.
  - destruct (seen =? 0); auto.
  - cbn [Fine.data Fine.callback]. split; [reflexivity|]. apply arm_timer_fields.
  - auto.
  - auto.
Qed.

(** Once the process is gone it stays gone. *)
Lemma step_dead (fd : Z) (s : Fine.state) (e : Fine.event) :
  Fine.alive s = false -> Fine.step fd s e = s.
Proof. intro H. unfold Fine.step. rewrite H. reflexivity. Qed.

Lemma step_alive (fd : Z) (s : Fine.state) (e : Fine.event) :
  Fine.alive (Fine.step fd s e) = true -> Fine.alive s = true.
Proof.
  intro H. destruct (Fine.alive s) eqn:A; [reflexivity|].
  rewrite step_dead in H by exact A. congruence.
Qed.

(** ** Well-formed states *)

Lemma callback_ok_same (s s' : Fine.state) :
  Fine.callback s' = Fine.callback s ->
  requests_ (cam (Fine.data s')) = requests_ (cam (Fine.data s)) ->
  Fine.callback_ok s -> Fine.callback_ok s'.
Proof. unfold Fine.callback_ok. intros -> ->. auto. Qed.

(** The callback entered for a request that was not cancelled. *)
Lemma completed_copy_well_formed (s : Fine.state) (r : nat) (req0 : request)
    (st : req_status) :
  Wf.layout_ok (cam (Fine.data s)) ->
  nth_error (requests_ (cam (Fine.data s))) r = Some req0 ->
  let req := mkRequest (cookie req0) (buffer req0) st in
  let wm := set_cam (Camera.set_requests
                       (Camera.update_nth r req (requests_ (cam (Fine.data s))))
                       (cam (Fine.data s))) (Fine.data s) in
  Wf.layout_ok (cam wm) /\
  Fine.well_formed
    match nth_error (mmap_buffers_ (cam wm)) (Z.to_nat (cookie req)) with
    | None => Fine.mkState wm (Fine.main s) Fine.Faulted
    | Some frame =>
        Fine.mkState (Wf.frame_copied req frame wm) (Fine.main s)
          (Fine.Enqueueing r req
             (pool_base (cam wm)
              + frame_bytes_ (cam wm) * frame_bytes_offset_ (cam wm)))
    end.
Proof.
  intros L Hr req wm.
  assert (Lm : Wf.layout_ok (cam wm))
    by (apply (layout_update_requests _ r req0 req L Hr); reflexivity).
  assert (Hq : nth_error (requests_ (cam wm)) r = Some req)
    by (cbn; apply nth_error_update_nth with (y := req0); exact Hr).
  split; [exact Lm|].
  destruct (nth_error (mmap_buffers_ (cam wm)) (Z.to_nat (cookie req)))
    as [frame|] eqn:Hd.
  - split; [apply layout_frame_copied; assumption|].
    unfold Fine.callback_ok. cbn [Fine.callback Fine.data].
    split; [exact Hq|].
    destruct Lm as (_ & Hfb & Hcur & _ & _ & _ & _ & Hb). nia.
  - split; [exact Lm | exact I].
Qed.

Lemma step_well_formed (fd : Z) (s : Fine.state) (e : Fine.event) :
  Fine.well_formed s -> Fine.well_formed (Fine.step fd s e).
Proof.
  intros [L C]. unfold Fine.step. destruct (Fine.alive s); [|split; assumption].
  destruct e as [p|drv|signo|env|r st|].
  - destruct (io_handler_fields p (Fine.data s)) as (_ & Hc & _).
    split; [cbn [Fine.data]; rewrite Hc; exact L|].
    apply (callback_ok_same s);
      [reflexivity | cbn [Fine.data]; rewrite Hc; reflexivity | exact C].
  - pose proof (capture_handler_fields drv (Fine.data s)) as (_ & _ & _ & _ & Hc).
    destruct (Main.capture_signal_handler Main.SIGUSR1 drv (Fine.data s))
      as [[|what] w'] eqn:E; cbn [snd] in Hc.
    all: split;
      [ cbn [Fine.data]; destruct Hc as [-> | ->];
        [exact L | apply layout_next_req_idx; exact L]
      | unfold Fine.callback_ok in *; cbn [Fine.data Fine.callback];
        destruct Hc as [-> | ->]; exact C ].
  - destruct (exit_handler_fields signo (Fine.data s)) as (_ & Hc & _).
    split; [cbn [Fine.data]; rewrite Hc; exact L|].
    apply (callback_ok_same s);
      [reflexivity | cbn [Fine.data]; rewrite Hc; reflexivity | exact C].
  - destruct (main_step_keeps fd env s) as [Hcb Hc].
    split; [rewrite Hc; exact L|].
    apply (callback_ok_same s); [exact Hcb | rewrite Hc; reflexivity | exact C].
  - unfold Fine.completed. destruct (Fine.callback s) eqn:Cb; try (split; assumption).
    destruct (nth_error (requests_ (cam (Fine.data s))) r) as [req0|] eqn:Hr;
      [|split; [exact L | unfold Fine.callback_ok; cbn; exact I]].
    destruct st.
    + apply (completed_copy_well_formed s r req0 RequestPending L Hr).
    + apply (completed_copy_well_formed s r req0 RequestComplete L Hr).
    + split; [|exact I].
      apply (completed_copy_well_formed s r req0 RequestCancelled L Hr).
  - unfold Fine.callback_step. unfold Fine.callback_ok in C.
    destruct (Fine.callback s) as [|r req p|r req|r req|] eqn:Cb;
      try (split; [exact L | unfold Fine.callback_ok; rewrite Cb; exact C]).
    + destruct C as [Hq Hp]. split; [exact L|].
      unfold Fine.callback_ok. cbn [Fine.callback Fine.data].
      destruct (fst (Queue.enqueue p (frame_queue (Fine.data s)))); auto.
    + split; [exact L | exact C].
    + split; [|exact I]. cbn [Fine.data cam set_cam emit].
      apply (layout_update_requests _ r req (Camera.reuse req) L C). reflexivity.
Qed.

Lemma run_well_formed (fd : Z) (evs : list Fine.event) :
  forall s, Fine.well_formed s -> Fine.well_formed (Fine.run fd evs s).
Proof.
  induction evs as [|e evs IH]; intros s H; [exact H|].
  apply (IH (Fine.step fd s e)). apply step_well_formed. exact H.
Qed.

(** ** The callback stays within the handler's arrays *)

Lemma fine_step_requests_length (fd : Z) (s : Fine.state) (e : Fine.event) :
  length (requests_ (cam (Fine.data (Fine.step fd s e))))
    = length (requests_ (cam (Fine.data s))).
Proof.
  unfold Fine.step. destruct (Fine.alive s); [|reflexivity].
  destruct e as [p|drv|signo|env|r st|].
  - destruct (io_handler_fields p (Fine.data s)) as (_ & Hc & _).
    cbn [Fine.data]. rewrite Hc. reflexivity.
  - pose proof (capture_handler_fields drv (Fine.data s)) as (_ & _ & _ & _ & Hc).
    destruct (Main.capture_signal_handler Main.SIGUSR1 drv (Fine.data s))
      as [[|what] w']; cbn [snd Fine.data] in *; destruct Hc as [-> | ->]; reflexivity.
  - destruct (exit_handler_fields signo (Fine.data s)) as (_ & Hc & _).
    cbn [Fine.data]. rewrite Hc. reflexivity.
  - destruct (main_step_keeps fd env s) as [_ Hc]. rewrite Hc. reflexivity.
  - unfold Fine.completed. destruct (Fine.callback s); try reflexivity.
    destruct (nth_error (requests_ (cam (Fine.data s))) r) as [req0|];
      [|reflexivity].
    destruct st; cbn [Fine.data cam set_cam mmap_buffers_ Camera.set_requests cookie].
    3: cbn; apply length_update_nth.
    all: destruct (nth_error (mmap_buffers_ (cam (Fine.data s)))
                     (Z.to_nat (cookie req0)));
      cbn; apply length_update_nth.
  - unfold Fine.callback_step. destruct (Fine.callback s); try reflexivity.
    cbn. apply length_update_nth.
Qed.

Lemma fine_step_not_faulted (fd : Z) (s : Fine.state) (e : Fine.event) :
  Fine.well_formed s ->
  Fine.callback s <> Fine.Faulted ->
  (forall r st, e = Fine.Completed r st ->
                (r < length (requests_ (cam (Fine.data s))))%nat) ->
  Fine.callback (Fine.step fd s e) <> Fine.Faulted.
Proof.
  intros [L _] C Hr. unfold Fine.step. destruct (Fine.alive s); [|exact C].
  destruct e as [p|drv|signo|env|r st|].
  - exact C.
  - destruct (Main.capture_signal_handler Main.SIGUSR1 drv (Fine.data s))
      as [[|what] w']; exact C.
  - exact C.
  - destruct (main_step_keeps fd env s) as [Hcb _]. rewrite Hcb. exact C.
  - specialize (Hr r st eq_refl). unfold Fine.completed.
    destruct (Fine.callback s) eqn:Cb;
      try (rewrite Cb; discriminate); try (exfalso; apply C; reflexivity).
    destruct (nth_error (requests_ (cam (Fine.data s))) r) as [req0|] eqn:E;
      [|apply nth_error_None in E; lia].
    destruct L as (_ & _ & _ & _ & Hv & _).
    destruct (valid_cookie_lookup _ _ _ Hv E) as (data & Hd).
    destruct st; cbn [Fine.data cam set_cam mmap_buffers_ Camera.set_requests cookie];
      rewrite ?Hd; discriminate.
  - unfold Fine.callback_step.
    destruct (Fine.callback s) eqn:Cb;
      try (rewrite Cb; discriminate); try (exfalso; apply C; reflexivity);
      try discriminate.
    cbn [Fine.callback].
    destruct (fst (Queue.enqueue frame_offset (frame_queue (Fine.data s))));
      discriminate.
Qed.

(** The callback never indexes outside [requests_] or [mmap_buffers_] when
    the driver completes requests of the handler. *)
Lemma callback_never_faults (fd : Z) (evs : list Fine.event) :
  forall s : Fine.state,
  Fine.well_formed s ->
  Fine.callback s <> Fine.Faulted ->
  (forall r st, In (Fine.Completed r st) evs ->
                (r < length (requests_ (cam (Fine.data s))))%nat) ->
  Fine.callback (Fine.run fd evs s) <> Fine.Faulted.
Proof.
  induction evs as [|e evs IH]; intros s W C Hr; [exact C|].
  rewrite run_cons. apply IH.
  - apply step_well_formed. exact W.
  - apply fine_step_not_faulted; [exact W | exact C|].
    intros r st ->. apply (Hr r st). left. reflexivity.
  - intros r st Hin. rewrite fine_step_requests_length.
    apply (Hr r st). right. exact Hin.
Qed.

(** ** The process is not aborted *)

Lemma step_not_aborted (fd : Z) (s : Fine.state) (e : Fine.event) :
  Fine.aborted (Fine.step fd s e) = false -> Fine.aborted s = false.
Proof.
  intro H. destruct (Fine.aborted s) eqn:A; [|reflexivity].
  assert (D : Fine.alive s = false)
    by (unfold Fine.alive, Fine.aborted in *; destruct (Fine.main s); congruence).
  rewrite (step_dead fd s e D) in H. congruence.
Qed.

Lemma run_not_aborted (fd : Z) (evs : list Fine.event) (s : Fine.state) :
  Fine.aborted (Fine.run fd evs s) = false -> Fine.aborted s = false.
Proof.
  revert s. induction evs as [|e evs IH]; intros s H; [exact H|].
  apply (step_not_aborted fd s e). apply IH. exact H.
Qed.

(** ** The semaphore and the queue *)

Lemma fine_step_pending (fd : Z) (s : Fine.state) (e : Fine.event) :
  Fine.pending_ok s ->
  Fine.aborted (Fine.step fd s e) = false ->
  Fine.pending_ok (Fine.step fd s e).
Proof.
  intros P. unfold Fine.step. destruct (Fine.alive s); [|intros _; exact P].
  destruct s as [w m c]. unfold Fine.pending_ok, Fine.behind in *.
  cbn [Fine.data Fine.main Fine.callback] in *.
  destruct P as (P0 & P1 & P2).
  destruct e as [p|drv|signo|env|r st|]; cbn [Fine.data Fine.main Fine.callback].
  - intros _. destruct (io_handler_fields p w) as (-> & _ & _ & _ & Hsem & _).
    cbn [Fine.data Fine.main Fine.callback]. lia.
  - pose proof (capture_handler_fields drv w) as (Hq & Hs & _).
    destruct (Main.capture_signal_handler Main.SIGUSR1 drv w) as [[|what] w'];
      cbn [snd] in *; [|intro A; discriminate A].
    intros _. cbn [Fine.data Fine.main Fine.callback]. rewrite Hq, Hs. lia.
  - intros _. destruct (exit_handler_fields signo w) as (-> & _ & _ & _ & Hsem & _).
    cbn [Fine.data Fine.main Fine.callback]. lia.
  - intros _. unfold Fine.main_step. cbn [Fine.data Fine.main Fine.callback].
    destruct m.
    + destruct (0 <? loop_ctl_sem w) eqn:S;
        cbn [Fine.data Fine.main Fine.callback]; [|lia].
      apply Z.ltb_lt in S. fields. lia.
    + unfold Queue.dequeue.
      destruct (Queue.items (frame_queue w)) as [|q qs] eqn:Eq; fields.
      * rewrite Eq. change (0 =? 0) with true. cbv iota. fields.
        destruct c; lia.
      * destruct (q =? 0); fields; destruct c; lia.
    + fields. lia.
    + destruct (running w =? 0); [fields; lia|].
      destruct (udpfd w <? 0); [|fields; lia].
      destruct (Main.bind_ret env <? 0); [fields; lia|].
      destruct (Main.sigio_ret env <? 0); fields; lia.
    + fields. lia.
    + destruct (seen =? 0); fields; lia.
    + destruct (arm_timer_fields w) as (Hq & _ & Hs & _). fields. rewrite Hq, Hs. lia.
    + fields. lia.
    + fields. lia.
  - intros _. unfold Fine.completed. cbn [Fine.data Fine.main Fine.callback].
    destruct c; cbn [Fine.data Fine.main Fine.callback]; try lia.
    destruct (nth_error (requests_ (cam w)) r) as [req0|]; [|fields; lia].
    destruct st; cbn [Fine.data Fine.main Fine.callback cam set_cam mmap_buffers_
                      Camera.set_requests cookie].
    3: fields; lia.
    all: destruct (nth_error (mmap_buffers_ (cam w)) (Z.to_nat (cookie req0)));
      fields; lia.
  - intros _. unfold Fine.callback_step. cbn [Fine.data Fine.main Fine.callback].
    destruct c as [|r req p|r req|r req|]; cbn [Fine.data Fine.main Fine.callback];
      try lia.
    + unfold Queue.enqueue, Queue.is_full.
      destruct (Queue.capacity (frame_queue w)
                <=? Z.of_nat (length (Queue.items (frame_queue w)))) eqn:F;
        fields; [lia|].
      apply Z.leb_gt in F. rewrite length_app. cbn [length].
      destruct m; lia.
    + fields. destruct m; lia.
    + fields. lia.
Qed.

(** ** The order of the frames *)

Ltac traces :=
  rewrite ?enqueued_app, ?encoded_app; cbn [Wf.enqueued Main.encoded app];
  rewrite ?app_nil_r.

Lemma fine_step_in_order (fd : Z) (s : Fine.state) (e : Fine.event) :
  Fine.well_formed s ->
  Fine.in_order s ->
  Fine.aborted (Fine.step fd s e) = false ->
  Fine.in_order (Fine.step fd s e).
Proof.
  intros [_ C] O. unfold Fine.step. destruct (Fine.alive s); [|intros _; exact O].
  destruct s as [w m c]. unfold Fine.in_order, Fine.in_hand, Fine.callback_ok in *.
  cbn [Fine.data Fine.main Fine.callback] in *.
  destruct O as (O1 & O2).
  destruct e as [p|drv|signo|env|r st|]; cbn [Fine.data Fine.main Fine.callback].
  - intros _. destruct (io_handler_fields p w) as (Hq & _ & _ & _ & _ & He & Hc & _).
    cbn [Fine.data Fine.main Fine.callback]. rewrite Hq, He, Hc. auto.
  - pose proof (capture_handler_fields drv w) as (Hq & _ & He & Hc & _).
    destruct (Main.capture_signal_handler Main.SIGUSR1 drv w) as [[|what] w'];
      cbn [snd] in *; [|intro A; discriminate A].
    intros _. cbn [Fine.data Fine.main Fine.callback]. rewrite Hq, He, Hc. auto.
  - intros _.
    destruct (exit_handler_fields signo w) as (Hq & _ & _ & _ & _ & He & Hc & _).
    cbn [Fine.data Fine.main Fine.callback]. rewrite Hq, He, Hc. auto.
  - intros _. unfold Fine.main_step. cbn [Fine.data Fine.main Fine.callback].
    destruct m.
    + destruct (0 <? loop_ctl_sem w); fields; traces; auto.
    + unfold Queue.dequeue.
      destruct (Queue.items (frame_queue w)) as [|q qs] eqn:Eq; fields; traces.
      * rewrite Eq. change (0 =? 0) with true. cbv iota. auto.
      * assert (Hq : q <> 0).
        { rewrite Forall_forall in O2. apply O2. rewrite O1.
          apply in_or_app. right. left. reflexivity. }
        apply Z.eqb_neq in Hq. rewrite Hq. auto.
    + fields. traces. rewrite <- app_assoc. auto.
    + destruct (running w =? 0); [fields; auto|].
      destruct (udpfd w <? 0); [|fields; auto].
      destruct (Main.bind_ret env <? 0); [fields; traces; auto|].
      destruct (Main.sigio_ret env <? 0); fields; traces; auto.
    + fields. auto.
    + destruct (seen =? 0); fields; auto.
    + destruct (arm_timer_fields w) as (Hq & _ & _ & He & Hc). fields.
      rewrite Hq, He, Hc. auto.
    + fields. auto.
    + fields. auto.
  - intros _. unfold Fine.completed. cbn [Fine.data Fine.main Fine.callback].
    destruct c; cbn [Fine.data Fine.main Fine.callback]; auto.
    destruct (nth_error (requests_ (cam w)) r) as [req0|]; [|fields; auto].
    destruct st; cbn [Fine.data Fine.main Fine.callback cam set_cam mmap_buffers_
                      Camera.set_requests cookie].
    3: fields; auto.
    all: destruct (nth_error (mmap_buffers_ (cam w)) (Z.to_nat (cookie req0)));
      fields; traces; auto.
  - intros _. unfold Fine.callback_step. cbn [Fine.data Fine.main Fine.callback].
    destruct c as [|r req p|r req|r req|]; cbn [Fine.data Fine.main Fine.callback];
      auto.
    + unfold Queue.enqueue. destruct (Queue.is_full (frame_queue w));
        fields; traces; [auto|].
      split; [rewrite O1, <- !app_assoc; reflexivity|].
      apply Forall_app. split; [exact O2|].
      constructor; [apply C | constructor].
    + fields. traces. auto.
    + fields. traces. auto.
Qed.

(** ** The queue and the pool *)




(** ** The node after startup *)

(** When [main] first reaches [sem_wait], with a camera handler laid out as
    its constructor leaves it, the queue is empty and the semaphore at
    zero: the state from which the runs below start in the process. *)
Lemma startup_state (cfg : Main.config) (c : camera_handler_t) (env : Main.udp_env) :
  Wf.layout_ok c ->
  let s := Fine.waiting (Main.startup cfg c env) in
  Fine.well_formed s /\ Fine.pending_ok s /\ Fine.in_order s /\ Fine.fresh s.
Proof.
  intros L s. subst s. unfold Main.startup.
  match goal with
  | |- context [Main.loop_head ?fd env ?w0] =>
      destruct (loop_head_fields fd env w0) as (Hq & Hc & _ & Hs & He & Hd);
      cbv zeta in Hq, Hc, Hs, He, Hd
  end.
  unfold Fine.waiting, Fine.well_formed, Fine.pending_ok, Fine.in_order, Fine.fresh,
    Fine.behind, Fine.in_hand, Fine.in_flight, Fine.callback_ok.
  cbn [Fine.data Fine.main Fine.callback].
  rewrite Hq, Hc, Hs, He, Hd.
  cbn [frame_queue cam loop_ctl_sem trace Queue.create Queue.items Queue.capacity
       Wf.enqueued Main.encoded app length].
  destruct (pow2_ceil_spec (Main.dma_buffers cfg)) as [[k Hk] _].
  pose proof (Z.pow_pos_nonneg 2 (Z.of_nat k)).
  split; [split; [exact L | exact I]|].
  split; [cbn; lia|].
  split; [split; [reflexivity | constructor] | reflexivity].
Qed.

(** ** Every interleaving *)

(** X2: at every point of every interleaving of the main thread, the
    signal handlers and the completion callback, as long as no exception
    has left a handler, the semaphore is not negative and the frames in
    the queue number at most its value plus one for a main thread that is
    between [sem_wait] and [dequeue] and one for a callback that is between
    [enqueue] and [sem_post]; so the queue is ahead of the semaphore by two
    at most, and by nothing when neither is the case.  The queue never
    holds more than its capacity. *)
Theorem queue_ahead_of_semaphore_by_two_at_most
    (fd : Z) (evs : list Fine.event) (s : Fine.state) :
  Fine.pending_ok s ->
  Fine.aborted (Fine.run fd evs s) = false ->
  Fine.pending_ok (Fine.run fd evs s) /\
  Z.of_nat (length (Queue.items (frame_queue (Fine.data (Fine.run fd evs s)))))
    <= loop_ctl_sem (Fine.data (Fine.run fd evs s)) + 2 /\
  (Fine.main (Fine.run fd evs s) <> Fine.AtDequeue ->
   (forall r req, Fine.callback (Fine.run fd evs s) <> Fine.Posting r req) ->
   Z.of_nat (length (Queue.items (frame_queue (Fine.data (Fine.run fd evs s)))))
     <= loop_ctl_sem (Fine.data (Fine.run fd evs s))).
Proof.
  intros P A.
  assert (H : Fine.pending_ok (Fine.run fd evs s)).
  { revert s P A. induction evs as [|e evs IH]; intros s P A; [exact P|].
    rewrite run_cons in *. apply IH; [|exact A].
    apply fine_step_pending; [exact P|].
    apply (run_not_aborted fd evs). exact A. }
  split; [exact H|].
  destruct H as (H0 & H1 & _). unfold Fine.behind in H1. split.
  - destruct (Fine.main (Fine.run fd evs s)), (Fine.callback (Fine.run fd evs s)); lia.
  - intros Hm Hc.
    destruct (Fine.main (Fine.run fd evs s)); try (exfalso; apply Hm; reflexivity);
      destruct (Fine.callback (Fine.run fd evs s)) as [|? ? ?|r req|? ?|];
      try (exfalso; apply (Hc r req); reflexivity); lia.
Qed.

(** Both at once: the main thread has waited and not yet dequeued, the
    callback has enqueued and not yet posted; three frames are in the
    queue and the semaphore is at one. *)
Lemma queue_ahead_of_semaphore_by_two_at_most_witness :
  let s := Fine.run 33333333
             [ Fine.Completed 2 RequestComplete; Fine.MainStep Sample.env;
               Fine.CallbackStep ] (Fine.waiting Wf.busy) in
  Fine.pending_ok s /\
  Queue.items (frame_queue (Fine.data s)) = [4096; 4102; 4108] /\
  loop_ctl_sem (Fine.data s) = 1.
Proof.
  cbv zeta.
  assert (P : Fine.pending_ok (Fine.waiting Wf.busy))
    by (unfold Fine.pending_ok; vm_compute; repeat split; discriminate).
  assert (A : Fine.aborted
                (Fine.run 33333333
                   [ Fine.Completed 2 RequestComplete; Fine.MainStep Sample.env;
                     Fine.CallbackStep ] (Fine.waiting Wf.busy)) = false)
    by (vm_compute; reflexivity).
  split; [|split; vm_compute; reflexivity].
  exact (proj1 (queue_ahead_of_semaphore_by_two_at_most 33333333 _ _ P A)).
Defined.

(** X3: frames reach the encoder in the order in which the callback got
    them into the queue, whatever the interleaving of the main thread, the
    handlers and the callback, also when the callback retries on a full
    queue while the main thread dequeues: as long as no exception has left
    a handler, the pointers enqueued so far are the pointers encoded so
    far, then the one the main thread has dequeued and not yet encoded,
    then the content of the queue; so none is skipped, encoded twice or
    out of turn, and a null pointer is never encoded. *)
Theorem frames_encoded_in_enqueue_order
    (fd : Z) (evs : list Fine.event) (s : Fine.state) :
  Fine.well_formed s ->
  Fine.in_order s ->
  Fine.aborted (Fine.run fd evs s) = false ->
  Wf.enqueued (trace (Fine.data (Fine.run fd evs s)))
    = Main.encoded (trace (Fine.data (Fine.run fd evs s)))
        ++ Fine.in_hand (Fine.run fd evs s)
        ++ Queue.items (frame_queue (Fine.data (Fine.run fd evs s))) /\
  Forall (fun p => p <> 0) (Main.encoded (trace (Fine.data (Fine.run fd evs s)))).
Proof.
  intros W O A.
  assert (H : Fine.in_order (Fine.run fd evs s)).
  { revert s W O A. induction evs as [|e evs IH]; intros s W O A; [exact O|].
    rewrite run_cons in *. apply IH; [apply step_well_formed; exact W| |exact A].
    apply fine_step_in_order; [exact W | exact O|].
    apply (run_not_aborted fd evs). exact A. }
  destruct H as [H1 H2]. split; [exact H1|].
  rewrite H1 in H2. apply Forall_app in H2. apply H2.
Qed.

(** The queue is full when the third completion comes: the callback fails
    to enqueue twice and gets its pointer in after the main loop has taken
    the oldest one out. *)
Lemma frames_encoded_in_enqueue_order_witness :
  let s := Fine.run 33333333
             [ Fine.Completed 2 RequestComplete; Fine.CallbackStep;
               Fine.CallbackStep; Fine.CallbackStep;
               Fine.Completed 0 RequestComplete; Fine.CallbackStep;
               Fine.CallbackStep; Fine.CallbackStep;
               Fine.Completed 1 RequestComplete; Fine.CallbackStep;
               Fine.MainStep Sample.env; Fine.CallbackStep;
               Fine.MainStep Sample.env; Fine.CallbackStep;
               Fine.MainStep Sample.env; Fine.CallbackStep ]
             (Fine.waiting Wf.busy) in
  Wf.enqueued (trace (Fine.data s))
    = Main.encoded (trace (Fine.data s)) ++ Fine.in_hand s
        ++ Queue.items (frame_queue (Fine.data s)) /\
  Main.encoded (trace (Fine.data s)) = [4096] /\
  Queue.items (frame_queue (Fine.data s)) = [4102; 4108; 4114; 4096] /\
  Main.posts (trace (Fine.data s)) = 3%nat.
Proof.
  cbv zeta.
  assert (W : Fine.well_formed (Fine.waiting Wf.busy)).
  { split; [|exact I]. unfold Wf.layout_ok. cbn.
    repeat split; try lia; try reflexivity. repeat constructor. }
  assert (O : Fine.in_order (Fine.waiting Wf.busy)).
  { split; [reflexivity|]. repeat constructor; discriminate. }
  assert (A : Fine.aborted
                (Fine.run 33333333
                   [ Fine.Completed 2 RequestComplete; Fine.CallbackStep;
                     Fine.CallbackStep; Fine.CallbackStep;
                     Fine.Completed 0 RequestComplete; Fine.CallbackStep;
                     Fine.CallbackStep; Fine.CallbackStep;
                     Fine.Completed 1 RequestComplete; Fine.CallbackStep;
                     Fine.MainStep Sample.env; Fine.CallbackStep;
                     Fine.MainStep Sample.env; Fine.CallbackStep;
                     Fine.MainStep Sample.env; Fine.CallbackStep ]
                   (Fine.waiting Wf.busy)) = false)
    by (vm_compute; reflexivity).
  split; [|repeat split; vm_compute; reflexivity].
  exact (proj1 (frames_encoded_in_enqueue_order 33333333 _ _ W O A)).
Defined.



(** ** STOP and the update of the timestamp *)

Lemma fine_step_stopped (fd : Z) (s : Fine.state) (e : Fine.event) :
  Fine.stopped s ->
  Fine.is_start e = false ->
  Fine.stopped (Fine.step fd s e) /\
  Main.timer_arms (trace (Fine.data (Fine.step fd s e)))
    = Main.timer_arms (trace (Fine.data s)).
Proof.
  intros [T0 Hm] Hs. unfold Fine.step. destruct (Fine.alive s); [|repeat split; auto].
  destruct s as [w m c]. unfold Fine.stopped in *.
  cbn [Fine.data Fine.main Fine.callback] in *.
  destruct e as [p|drv|signo|env|r st|]; cbn [Fine.data Fine.main Fine.callback].
  - destruct (io_handler_stopped p w T0 Hs) as (Q1 & Q2 & _).
    rewrite Q1, Q2. auto.
  - pose proof (capture_handler_quiet Main.SIGUSR1 drv w) as (Q1 & Q2 & _).
    destruct (Main.capture_signal_handler Main.SIGUSR1 drv w) as [[|what] w'];
      cbn [snd Fine.data Fine.main] in *; rewrite Q1, Q2; auto.
  - destruct (exit_handler_quiet signo w) as (Q1 & Q2 & _).
    rewrite Q1, Q2. auto.
  - unfold Fine.main_step. cbn [Fine.data Fine.main Fine.callback].
    destruct m.
    + destruct (0 <? loop_ctl_sem w); fields; rewrite ?timer_arms_app;
        cbn [Main.timer_arms]; rewrite ?app_nil_r; auto.
    + fields. rewrite timer_arms_app. cbn [Main.timer_arms]. rewrite app_nil_r.
      destruct (fst (Queue.dequeue (frame_queue w)) =? 0); auto.
    + fields. rewrite timer_arms_app. cbn [Main.timer_arms]. rewrite app_nil_r. auto.
    + destruct (running w =? 0); [fields; auto|].
      destruct (udpfd w <? 0); [|fields; auto].
      destruct (Main.bind_ret env <? 0);
        [fields; rewrite timer_arms_app; cbn [Main.timer_arms];
         rewrite app_nil_r; auto|].
      destruct (Main.sigio_ret env <? 0); fields;
        rewrite <- ?app_assoc, timer_arms_app; cbn [Main.timer_arms app];
        rewrite app_nil_r; auto.
    + fields. auto.
    + subst seen. change (0 =? 0) with true. fields. auto.
    + rewrite (arm_timer_stopped w T0). fields. auto.
    + fields. auto.
    + fields. auto.
  - unfold Fine.completed. cbn [Fine.data Fine.main Fine.callback].
    destruct c; cbn [Fine.data Fine.main Fine.callback]; auto.
    destruct (nth_error (requests_ (cam w)) r) as [req0|]; [|fields; auto].
    destruct st; cbn [Fine.data Fine.main Fine.callback cam set_cam mmap_buffers_
                      Camera.set_requests cookie].
    3: fields; auto.
    all: destruct (nth_error (mmap_buffers_ (cam w)) (Z.to_nat (cookie req0)));
      fields; rewrite ?timer_arms_app; cbn [Main.timer_arms]; rewrite ?app_nil_r; auto.
  - unfold Fine.callback_step. cbn [Fine.data Fine.main Fine.callback].
    destruct c as [|r req p|r req|r req|]; cbn [Fine.data Fine.main Fine.callback];
      auto.
    + fields. rewrite timer_arms_app. cbn [Main.timer_arms]. rewrite app_nil_r.
      destruct (fst (Queue.enqueue p (frame_queue w))); auto.
    + fields. rewrite timer_arms_app. cbn [Main.timer_arms]. rewrite app_nil_r. auto.
    + fields. rewrite timer_arms_app. cbn [Main.timer_arms]. rewrite app_nil_r. auto.
Qed.

(** A STOP that is handled while the main thread is anywhere but between
    the read and the write of line 95 does what the comment of
    [io_signal_handler] says: whatever the interleaving from then on, the
    timer is not armed again before a datagram of eight bytes arrives. *)
Lemma stop_outside_update_halts_arming
    (fd : Z) (evs : list Fine.event) (s : Fine.state) :
  Fine.alive s = true ->
  (forall seen, Fine.main s = Fine.AtWrite seen -> seen = 0) ->
  forallb (fun e => negb (Fine.is_start e)) evs = true ->
  let s1 := Fine.step fd s (Fine.SignalIo (Some Sample.stop_dgram)) in
  timestamp (Fine.data (Fine.run fd evs s1)) = 0 /\
  Main.timer_arms (trace (Fine.data (Fine.run fd evs s1)))
    = Main.timer_arms (trace (Fine.data s)).
Proof.
  intros A Hm Hev s1.
  assert (S1 : Fine.stopped s1 /\
               Main.timer_arms (trace (Fine.data s1))
                 = Main.timer_arms (trace (Fine.data s))).
  { subst s1. unfold Fine.step. rewrite A. rewrite io_handler_stop.
    unfold Fine.stopped. cbn [Fine.data Fine.main]. fields.
    split; [split; [reflexivity|]|].
    - destruct (Fine.main s); auto.
    - rewrite timer_arms_app. cbn. apply app_nil_r. }
  destruct S1 as [S1 <-]. clearbody s1. clear A Hm s.
  revert s1 S1. induction evs as [|e evs IH]; intros s1 S1.
  - split; [apply S1 | reflexivity].
  - cbn [forallb] in Hev. apply andb_true_iff in Hev as [He Hev].
    apply negb_true_iff in He.
    destruct (fine_step_stopped fd s1 e S1 He) as [S2 E2].
    rewrite run_cons. destruct (IH Hev _ S2) as [H1 H2].
    split; [exact H1 | rewrite H2; exact E2].
Qed.

(** C5 at a STOP that is handled inside line 95: the four bytes ["STOP"]
    reset the base timestamp to zero without a post of the semaphore, but
    they do not always stop the timer.  Line 95 of main.cpp reads
    [timestamp], adds the frame duration and writes the sum back; the
    handler preempts the main loop wherever it is.  When it runs between
    the read and the write, the write puts [timestamp + frame_duration]
    over the zero, [arm_timer] arms the timer with it, and the main loop
    waits with a base timestamp that is not zero, although no datagram of
    eight bytes has arrived. *)
Theorem stop_lost_inside_timestamp_update
    (fd : Z) (env : Main.udp_env) (s : Fine.state) :
  Fine.main s = Fine.AtRead ->
  timestamp (Fine.data s) <> 0 ->
  Int64.wrap64 (timestamp (Fine.data s) + fd) <> 0 ->
  let s1 := Fine.step fd s (Fine.MainStep env) in
  let s2 := Fine.step fd s1 (Fine.SignalIo (Some [x53; x54; x4f; x50])) in
  let s3 := Fine.run fd [Fine.MainStep env; Fine.MainStep env] s2 in
  Fine.main s1 = Fine.AtWrite (timestamp (Fine.data s)) /\
  (timestamp (Fine.data s2) = 0 /\
   loop_ctl_sem (Fine.data s2) = loop_ctl_sem (Fine.data s) /\
   Main.posts (trace (Fine.data s2)) = Main.posts (trace (Fine.data s))) /\
  timestamp (Fine.data s3) = Int64.wrap64 (timestamp (Fine.data s) + fd) /\
  Main.timer_arms (trace (Fine.data s3))
    = Main.timer_arms (trace (Fine.data s))
        ++ [Int64.wrap64 (timestamp (Fine.data s) + fd)] /\
  Fine.main s3 = Fine.AtWait.
Proof.
  intros M T Hw. destruct s as [w m c]. cbn [Fine.data Fine.main] in *. subst m.
  cbv zeta. change [x53; x54; x4f; x50] with Sample.stop_dgram.
  assert (E1 : Fine.step fd (Fine.mkState w Fine.AtRead c) (Fine.MainStep env)
               = Fine.mkState w (Fine.AtWrite (timestamp w)) c) by reflexivity.
  assert (E2 : Fine.step fd (Fine.mkState w (Fine.AtWrite (timestamp w)) c)
                 (Fine.SignalIo (Some Sample.stop_dgram))
               = Fine.mkState (set_timestamp 0 (log INFO Main.msg_stop w))
                   (Fine.AtWrite (timestamp w)) c) by reflexivity.
  assert (E3 : Fine.step fd
                 (Fine.mkState (set_timestamp 0 (log INFO Main.msg_stop w))
                    (Fine.AtWrite (timestamp w)) c) (Fine.MainStep env)
               = Fine.mkState
                   (set_timestamp (Int64.wrap64 (timestamp w + fd))
                      (set_timestamp 0 (log INFO Main.msg_stop w)))
                   Fine.AtArm c).
  { unfold Fine.step, Fine.main_step. cbn [Fine.alive Fine.main Fine.data Fine.callback].
    destruct (timestamp w =? 0) eqn:E; [apply Z.eqb_eq in E; contradiction|].
    reflexivity. }
  rewrite E1, E2. unfold Fine.run. cbn [fold_left]. rewrite E3.
  unfold Fine.step, Fine.main_step. cbn [Fine.alive Fine.main Fine.data Fine.callback].
  match goal with
  | |- context [Main.arm_timer ?x] =>
      destruct (arm_timer_armed x) as [A1 A2]; [exact Hw|]
  end.
  rewrite A1, A2. fields. rewrite timer_arms_app, posts_app.
  cbn [Main.timer_arms Main.posts]. rewrite app_nil_r. repeat split. lia.
Qed.

(** On the first round after the start datagram for [10^18]: the STOP
    sets the timestamp to zero, and the timer is armed for
    [10^18 + 33333333] all the same. *)
Lemma stop_lost_inside_timestamp_update_witness :
  let s1 := Fine.step 33333333 Fine.started (Fine.MainStep Sample.env) in
  let s2 := Fine.step 33333333 s1 (Fine.SignalIo (Some [x53; x54; x4f; x50])) in
  let s3 := Fine.run 33333333
              [Fine.MainStep Sample.env; Fine.MainStep Sample.env] s2 in
  timestamp (Fine.data Fine.started) = 1000000000000000000 /\
  Main.timer_arms (trace (Fine.data Fine.started)) = [] /\
  timestamp (Fine.data s2) = 0 /\
  timestamp (Fine.data s3) = 1000000000033333333 /\
  Main.timer_arms (trace (Fine.data s3)) = [1000000000033333333] /\
  Fine.main s3 = Fine.AtWait.
Proof.
  cbv zeta.
  assert (M : Fine.main Fine.started = Fine.AtRead) by (vm_compute; reflexivity).
  assert (T : timestamp (Fine.data Fine.started) <> 0)
    by (vm_compute; discriminate).
  assert (Hw : Int64.wrap64 (timestamp (Fine.data Fine.started) + 33333333) <> 0)
    by (vm_compute; discriminate).
  assert (E0 : timestamp (Fine.data Fine.started) = 1000000000000000000)
    by (vm_compute; reflexivity).
  assert (E1 : Main.timer_arms (trace (Fine.data Fine.started)) = [])
    by (vm_compute; reflexivity).
  assert (E2 : Int64.wrap64 (timestamp (Fine.data Fine.started) + 33333333)
               = 1000000000033333333) by (vm_compute; reflexivity).
  destruct (stop_lost_inside_timestamp_update 33333333 Sample.env Fine.started M T Hw)
    as (_ & (H1 & _) & H2 & H3 & H4).
  split; [exact E0|]. split; [exact E1|]. split; [exact H1|].
  split; [rewrite <- E2; exact H2|].
  split; [rewrite <- E2; etransitivity; [exact H3 | rewrite E1; reflexivity]|].
  exact H4.
Defined.

(** ** Runs of [Main.step] among the runs of [Fine.step] *)

Lemma set_status_same (w : world) : set_status (status w) w = w.
Proof. destruct w. reflexivity. Qed.

Lemma run_app (fd : Z) (a b : list Fine.event) (s : Fine.state) :
  Fine.run fd (a ++ b) s = Fine.run fd b (Fine.run fd a s).
Proof. unfold Fine.run. apply fold_left_app. Qed.

Lemma run_dead (fd : Z) (evs : list Fine.event) (s : Fine.state) :
  Fine.alive s = false -> Fine.run fd evs s = s.
Proof.
  intro D. induction evs as [|e evs IH]; [reflexivity|].
  rewrite run_cons, step_dead by exact D. exact IH.
Qed.

Lemma run_dead_callback (fd : Z) (w : world) (m : Fine.main_pc) :
  Fine.run fd [Fine.CallbackStep; Fine.CallbackStep; Fine.CallbackStep]
    (Fine.mkState w m Fine.Idle)
  = Fine.mkState w m Fine.Idle.
Proof.
  unfold Fine.run. cbn [fold_left]. unfold Fine.step, Fine.callback_step.
  cbn [Fine.callback Fine.main Fine.alive]. destruct m; reflexivity.
Qed.

Lemma capture_handler_status (drv : Z) (w : world) :
  status (snd (Main.capture_signal_handler Main.SIGUSR1 drv w)) = status w.
Proof.
  unfold Main.capture_signal_handler.
  destruct (negb (Main.SIGUSR1 =? Main.SIGUSR1) || (running w =? 0));
    [reflexivity|].
  destruct (Z.le_gt_cases (loop_ctl_sem w) (frame_buffers_ (cam w) - 2)) as [L|G].
  - destruct (Z.lt_ge_cases drv 0) as [D|D].
    + rewrite queue_request_refused by assumption. reflexivity.
    + rewrite queue_request_accepted by assumption. reflexivity.
  - rewrite queue_request_overrun by lia. reflexivity.
Qed.

Lemma arm_timer_status (w : world) : status (Main.arm_timer w) = status w.
Proof. unfold Main.arm_timer. destruct (timestamp w =? 0); reflexivity. Qed.

(** The four statements from the loop condition to [sem_wait] are
    [Main.loop_head]. *)
Lemma loop_head_refined (fd : Z) (env : Main.udp_env) (w : world) :
  status w = Blocked ->
  let s := Fine.run fd (repeat (Fine.MainStep env) 4)
             (Fine.mkState w Fine.AtTest Fine.Idle) in
  Fine.coarse s = Main.loop_head fd env w /\
  Fine.callback s = Fine.Idle /\
  (Fine.main s = Fine.AtWait /\ status (Fine.data s) = Blocked
   \/ Fine.alive s = false).
Proof.
  intros St s. subst s. cbn [repeat]. rewrite run_cons.
  unfold Main.loop_head.
  assert (Go : forall w1 : world, status w1 = Blocked ->
    let s := Fine.run fd [Fine.MainStep env; Fine.MainStep env; Fine.MainStep env]
               (Fine.mkState w1 Fine.AtRead Fine.Idle) in
    Fine.coarse s
      = set_status Blocked
          (Main.arm_timer
             (if timestamp w1 =? 0 then w1
              else set_timestamp (Int64.wrap64 (timestamp w1 + fd)) w1)) /\
    Fine.callback s = Fine.Idle /\
    (Fine.main s = Fine.AtWait /\ status (Fine.data s) = Blocked
     \/ Fine.alive s = false)).
  { intros w1 S1 s. subst s. unfold Fine.run. cbn [fold_left].
    unfold Fine.step, Fine.main_step.
    cbn [Fine.alive Fine.main Fine.data Fine.callback].
    split; [reflexivity|]. split; [reflexivity|]. left. split; [reflexivity|].
    rewrite arm_timer_status. destruct (timestamp w1 =? 0); exact S1. }
  assert (Stop : forall (w1 : world) (code : Z) (evs : list Fine.event),
    let s := Fine.run fd evs (Fine.mkState w1 (Fine.MainReturned code) Fine.Idle) in
    Fine.coarse s = set_status (Exited code) w1 /\
    Fine.callback s = Fine.Idle /\
    (Fine.main s = Fine.AtWait /\ status (Fine.data s) = Blocked
     \/ Fine.alive s = false)).
  { intros w1 code evs s. subst s. rewrite run_dead by reflexivity.
    split; [reflexivity|]. split; [reflexivity|]. right. reflexivity. }
  unfold Fine.step. cbn [Fine.alive Fine.main].
  unfold Fine.main_step. cbn [Fine.main Fine.data Fine.callback].
  destruct (running w =? 0); [apply Stop|].
  destruct (udpfd w <? 0); [|apply Go; exact St].
  destruct (Main.bind_ret env <? 0); [apply Stop|].
  destruct (Main.sigio_ret env <? 0); [apply Stop|].
  apply Go. exact St.
Qed.

(** The six or seven statements of a round are [Main.loop_resume]. *)
Lemma wake_refined (fd : Z) (env : Main.udp_env) (w : world) :
  status w = Blocked ->
  let s := Fine.run fd (Fine.steps_of (Main.Wake env) w) (Fine.waiting w) in
  Fine.coarse s = Main.step fd w (Main.Wake env) /\
  Fine.callback s = Fine.Idle /\
  (Fine.main s = Fine.AtWait /\ status (Fine.data s) = Blocked
   \/ Fine.alive s = false).
Proof.
  intros St s. subst s. unfold Fine.steps_of, Main.step. rewrite St.
  destruct (0 <? loop_ctl_sem w) eqn:S.
  2: { split; [|split; [reflexivity | left; split; [reflexivity | exact St]]].
       unfold Fine.coarse. cbn. rewrite <- St. apply set_status_same. }
  rewrite loop_resume_unfold. cbv zeta.
  set (w1 := emit SemWait (set_sem (loop_ctl_sem w - 1) w)).
  change (frame_queue w) with (frame_queue w1).
  set (fq := Queue.dequeue (frame_queue w1)).
  set (w2 := emit (Dequeued (fst fq)) (set_queue (snd fq) w1)).
  assert (E1 : Fine.step fd (Fine.waiting w) (Fine.MainStep env)
               = Fine.mkState w1 Fine.AtDequeue Fine.Idle).
  { unfold Fine.step, Fine.main_step, Fine.waiting.
    cbn [Fine.alive Fine.main Fine.data Fine.callback]. rewrite S. reflexivity. }
  assert (E2 : Fine.step fd (Fine.mkState w1 Fine.AtDequeue Fine.Idle)
                 (Fine.MainStep env)
               = Fine.mkState w2
                   (if fst fq =? 0 then Fine.AtTest else Fine.AtEncode (fst fq))
                   Fine.Idle) by reflexivity.
  destruct (fst fq =? 0) eqn:F.
  - change 6%nat with (2 + 4)%nat. rewrite repeat_app, run_app.
    cbn [repeat]. rewrite !run_cons, E1, E2.
    change (Fine.run fd [] ?x) with x.
    apply loop_head_refined. exact St.
  - change 7%nat with (3 + 4)%nat. rewrite repeat_app, run_app.
    cbn [repeat]. rewrite !run_cons, E1, E2.
    change (Fine.run fd [] ?x) with x.
    assert (E3 : Fine.step fd (Fine.mkState w2 (Fine.AtEncode (fst fq)) Fine.Idle)
                   (Fine.MainStep env)
                 = Fine.mkState (emit (EncodeFrame (fst fq)) w2) Fine.AtTest Fine.Idle)
      by reflexivity.
    rewrite E3. apply loop_head_refined. exact St.
Qed.

(** The entry of the callback and its three statements are a completion
    that the main loop does not disturb. *)
Lemma completion_refined (fd : Z) (r : nat) (st : req_status) (sched : list nat)
    (w : world) :
  status w = Blocked ->
  Fine.atomic (Main.RequestCompleted r st sched) w = true ->
  let s := Fine.run fd (Fine.steps_of (Main.RequestCompleted r st sched) w)
             (Fine.waiting w) in
  Fine.coarse s = Main.step fd w (Main.RequestCompleted r st sched) /\
  Fine.callback s = Fine.Idle /\
  Fine.main s = Fine.AtWait /\ status (Fine.data s) = Blocked.
Proof.
  intros St A s. subst s. unfold Fine.atomic in A.
  apply andb_true_iff in A as [Hz A]. unfold Main.step. rewrite St.
  unfold Camera.driver_complete in *.
  destruct (nth_error (requests_ (cam w)) r) as [req0|] eqn:Hr; [|discriminate A].
  set (req := mkRequest (cookie req0) (buffer req0) st) in *.
  set (wm := set_cam (Camera.set_requests
                        (Camera.update_nth r req (requests_ (cam w))) (cam w)) w)
    in *.
  assert (Hq : nth_error (requests_ (cam wm)) r = Some req)
    by (cbn; apply nth_error_update_nth with (y := req0); exact Hr).
  assert (Sm : status wm = Blocked) by exact St.
  pose proof (request_complete_cases r sched wm) as C.
  destruct (Camera.request_complete r sched wm) as [w'|w'|] eqn:E;
    try discriminate A. clear A.
  unfold Fine.steps_of. rewrite run_cons.
  assert (E0 : Fine.step fd (Fine.waiting w) (Fine.Completed r st)
               = match st with
                 | RequestCancelled => Fine.mkState wm Fine.AtWait Fine.Idle
                 | _ =>
                   match nth_error (mmap_buffers_ (cam wm)) (Z.to_nat (cookie req)) with
                   | None => Fine.mkState wm Fine.AtWait Fine.Faulted
                   | Some frame =>
                       Fine.mkState (Wf.frame_copied req frame wm) Fine.AtWait
                         (Fine.Enqueueing r req
                            (pool_base (cam wm)
                             + frame_bytes_ (cam wm) * frame_bytes_offset_ (cam wm)))
                   end
                 end).
  { unfold Fine.step, Fine.completed, Fine.waiting.
    cbn [Fine.alive Fine.main Fine.data Fine.callback]. rewrite Hr.
    destruct st; reflexivity. }
  rewrite E0. clear E0.
  destruct C as [(-> & rq & Hq' & Hc)|(rq & data & k & n & Hq' & Hnc & Hd & Hroom & _ & _)].
  - assert (rq = req) by congruence. subst rq. cbn [req_state req] in Hc. subst st.
    rewrite run_dead_callback.
    split; [|split; [reflexivity | split; [reflexivity | exact Sm]]].
    unfold Fine.coarse. cbn [Fine.main Fine.data]. rewrite <- Sm. apply set_status_same.
  - assert (rq = req) by congruence. subst rq.
    rewrite (request_complete_undisturbed r sched wm req data Hq Hnc Hd Hz Hroom) in E.
    injection E as <-.
    rewrite eventually_room_undisturbed in Hroom by exact Hz.
    apply andb_true_iff in Hroom as [Hfull _]. apply negb_true_iff in Hfull.
    assert (Hst : match st with
                  | RequestCancelled => Fine.mkState wm Fine.AtWait Fine.Idle
                  | _ =>
                    match nth_error (mmap_buffers_ (cam wm)) (Z.to_nat (cookie req)) with
                    | None => Fine.mkState wm Fine.AtWait Fine.Faulted
                    | Some frame =>
                        Fine.mkState (Wf.frame_copied req frame wm) Fine.AtWait
                          (Fine.Enqueueing r req
                             (pool_base (cam wm)
                              + frame_bytes_ (cam wm) * frame_bytes_offset_ (cam wm)))
                    end
                  end
                  = Fine.mkState (Wf.frame_copied req data wm) Fine.AtWait
                      (Fine.Enqueueing r req
                         (pool_base (cam wm)
                          + frame_bytes_ (cam wm) * frame_bytes_offset_ (cam wm)))).
    { rewrite Hd. cbn [req_state req] in Hnc. destruct st; try reflexivity.
      exfalso. apply Hnc. reflexivity. }
    rewrite Hst. clear Hst.
    set (p := pool_base (cam wm) + frame_bytes_ (cam wm) * frame_bytes_offset_ (cam wm)).
    set (wc := Wf.frame_copied req data wm).
    assert (E1 : Fine.step fd (Fine.mkState wc Fine.AtWait (Fine.Enqueueing r req p))
                   Fine.CallbackStep
                 = Fine.mkState
                     (emit (EnqueueTry p true)
                        (set_queue
                           (Queue.mkQueue (Queue.capacity (frame_queue wm))
                              (Queue.items (frame_queue wm) ++ [p])) wc))
                     Fine.AtWait (Fine.Posting r req)).
    { unfold Fine.step, Fine.callback_step.
      cbn [Fine.alive Fine.main Fine.callback Fine.data]. unfold Queue.enqueue.
      change (frame_queue wc) with (frame_queue wm). rewrite Hfull. reflexivity. }
    rewrite !run_cons, E1. change (Fine.run fd [] ?x) with x.
    unfold Fine.step, Fine.callback_step.
    cbn [Fine.alive Fine.main Fine.callback Fine.data].
    split; [|split; [reflexivity | split; [reflexivity | exact Sm]]].
    unfold Fine.coarse. cbn [Fine.main Fine.data].
    apply world_eq; try reflexivity; [exact (eq_sym Sm)|].
    cbn. rewrite <- !app_assoc. reflexivity.
Qed.

Lemma step_refined (fd : Z) (e : Main.event) (w : world) :
  status w = Blocked ->
  Fine.atomic e w = true ->
  let s := Fine.run fd (Fine.steps_of e w) (Fine.waiting w) in
  Fine.coarse s = Main.step fd w e /\
  Fine.callback s = Fine.Idle /\
  (Fine.main s = Fine.AtWait /\ status (Fine.data s) = Blocked
   \/ Fine.alive s = false).
Proof.
  intros St A. destruct e as [p|drv|signo|r st sched|env].
  - cbv zeta. unfold Main.step. rewrite St.
    destruct (io_handler_fields p w) as (_ & _ & _ & Hs & _).
    cbn. rewrite St in Hs.
    split; [|split; [reflexivity | left; split; [reflexivity | exact Hs]]].
    unfold Fine.coarse. cbn. rewrite <- Hs. apply set_status_same.
  - cbv zeta. unfold Main.step. rewrite St.
    pose proof (capture_handler_status drv w) as Hs. rewrite St in Hs.
    cbn. destruct (Main.capture_signal_handler Main.SIGUSR1 drv w) as [[|what] w'];
      cbn [snd] in Hs.
    + split; [|split; [reflexivity | left; split; [reflexivity | exact Hs]]].
      unfold Fine.coarse. cbn. rewrite <- Hs. apply set_status_same.
    + split; [reflexivity|]. split; [reflexivity|]. right. reflexivity.
  - cbv zeta. unfold Main.step. rewrite St.
    destruct (exit_handler_fields signo w) as (_ & _ & Hs & _).
    cbn. rewrite St in Hs.
    split; [|split; [reflexivity | left; split; [reflexivity | exact Hs]]].
    unfold Fine.coarse. cbn. rewrite <- Hs. apply set_status_same.
  - destruct (completion_refined fd r st sched w St A) as (H1 & H2 & H3 & H4).
    cbv zeta. auto.
  - apply wake_refined. exact St.
Qed.

(** Every run of [Main.step] whose completions the main loop does not
    disturb is a run of [Fine.step]: the one in which every handler and
    every callback is run from beginning to end while the main thread is in
    [sem_wait]. *)
Lemma coarse_runs_are_fine_runs (fd : Z) (evs : list Main.event) :
  forall w : world,
  status w = Blocked ->
  Fine.atomic_run fd evs w = true ->
  Fine.coarse (Fine.run fd (Fine.steps_of_run fd evs w) (Fine.waiting w))
    = Main.run fd evs w.
Proof.
  induction evs as [|e evs IH]; intros w St A.
  - unfold Fine.coarse. cbn. rewrite <- St. apply set_status_same.
  - cbn [Fine.atomic_run Fine.steps_of_run] in *. rewrite St in *.
    apply andb_true_iff in A as [Ae A]. rewrite run_app.
    change (Main.run fd (e :: evs) w) with (Main.run fd evs (Main.step fd w e)).
    destruct (step_refined fd e w St Ae) as (H1 & H2 & [[H3 H4]|D]);
      cbv zeta in H1, H2.
    + set (s := Fine.run fd (Fine.steps_of e w) (Fine.waiting w)) in *.
      assert (Ew : Main.step fd w e = Fine.data s).
      { rewrite <- H1. unfold Fine.coarse. rewrite H3, <- H4.
        apply set_status_same. }
      assert (Es : s = Fine.waiting (Main.step fd w e)).
      { rewrite Ew. destruct s as [d m c]. cbn in *. subst. reflexivity. }
      rewrite Es. apply IH; [rewrite Ew; exact H4 | exact A].
    + rewrite run_dead by exact D. rewrite H1.
      symmetry. apply run_not_blocked. rewrite <- H1.
      unfold Fine.coarse, Fine.alive in *. cbn.
      destruct (Fine.main (Fine.run fd (Fine.steps_of e w) (Fine.waiting w)));
        discriminate.
Qed.
